(** * WarpX particle boundary buffer: a shallow embedding

    This development embeds [Source/Particles/ParticleBoundaryBuffer.cpp]:
    the domain-face classifier [IsOutsideDomainBoundary], the two
    compaction functors [CopyAndTimestamp] and [FindBoundaryIntersection],
    and the methods of [ParticleBoundaryBuffer] (constructor,
    [gatherParticles], [clearParticles], [redistribute],
    [getNumParticlesInContainer], [getParticleBuffer],
    [getParticleBufferPointer]).

    Conventions.
    - [amrex::Real] and [amrex::ParticleReal] are exact rationals ([Q]);
      rounding and NaN are outside the model.
    - [int] values that are stored or compared are [Z]; loop counters and
      array indices are [nat].  A write through an index that is out of
      range (undefined behaviour in C++) leaves the array as it is.
    - Reference parameters and [this] are passed and returned explicitly.
    - A particle tile is a structure of arrays, as in the pure-SoA layout
      selected by [ParConstIterSoA<PIdx::nattribs, 0>]. *)

From Stdlib Require Import ZArith QArith Qabs Lia.
From stdpp Require Import base list gmap strings pretty.

Close Scope Q_scope.
Open Scope nat_scope.

Set Default Proof Using "Type".

(** ** Reals *)

Abbreviation Real := Q (only parsing).

#[global] Instance Real_inhabited : Inhabited Real := populate 0%Q.

(** [a < b] and [a >= b] on [amrex::Real]. *)
Definition Real_lt (a b : Real) : bool := negb (Qle_bool b a).
Definition Real_ge (a b : Real) : bool := Qle_bool b a.

(** ** Loops *)

(** [for (int j = 0; j < n; ++j) body]. *)
Definition for_loop {S : Type} (n : nat) (body : nat → S → S) (s : S) : S :=
  fold_left (λ s j, body j s) (seq 0 n) s.

(** ** Particle tiles (amrex::ParticleTile / ParticleTileData, SoA layout) *)

Module amrex.

(** The arrays of one tile.  [m_rdata] holds the [NAR] compile-time real
    components (the first [AMREX_SPACEDIM] of them are the position),
    [m_runtime_rdata] and [m_runtime_idata] the components added at run
    time; [m_idcpu] is the packed 64-bit id/cpu word. *)
Record ParticleTile := mkTile {
  m_idcpu : list Z;
  m_rdata : list (list Real);
  m_runtime_rdata : list (list Real);
  m_runtime_idata : list (list Z);
}.

Definition numParticles (t : ParticleTile) : nat := length (m_idcpu t).
Definition m_num_runtime_real (t : ParticleTile) : nat := length (m_runtime_rdata t).
Definition m_num_runtime_int (t : ParticleTile) : nat := length (m_runtime_idata t).
Definition NumRuntimeIntComps (t : ParticleTile) : nat := length (m_runtime_idata t).

(** [cols[j][i]] and [cols[j][i] = v]. *)
Definition col_get {A} `{Inhabited A} (cols : list (list A)) (j i : nat) : A :=
  (cols !!! j) !!! i.
Definition col_set {A} (cols : list (list A)) (j i : nat) (v : A) : list (list A) :=
  alter (<[i:=v]>) j cols.

Definition set_idcpu (f : list Z → list Z) (t : ParticleTile) : ParticleTile :=
  mkTile (f (m_idcpu t)) (m_rdata t) (m_runtime_rdata t) (m_runtime_idata t).
Definition set_rdata (f : list (list Real) → list (list Real)) (t : ParticleTile) :=
  mkTile (m_idcpu t) (f (m_rdata t)) (m_runtime_rdata t) (m_runtime_idata t).
Definition set_runtime_rdata (f : list (list Real) → list (list Real)) (t : ParticleTile) :=
  mkTile (m_idcpu t) (m_rdata t) (f (m_runtime_rdata t)) (m_runtime_idata t).
Definition set_runtime_idata (f : list (list Z) → list (list Z)) (t : ParticleTile) :=
  mkTile (m_idcpu t) (m_rdata t) (m_runtime_rdata t) (f (m_runtime_idata t)).

(** One particle read out of the arrays ([getSuperParticle]). *)
Record SuperParticle := mkSP {
  sp_idcpu : Z;
  sp_rdata : list Real;
  sp_runtime_rdata : list Real;
  sp_runtime_idata : list Z;
}.

Definition getSuperParticle (t : ParticleTile) (i : nat) : SuperParticle :=
  mkSP (m_idcpu t !!! i)
       ((λ c, c !!! i) <$> m_rdata t)
       ((λ c, c !!! i) <$> m_runtime_rdata t)
       ((λ c, c !!! i) <$> m_runtime_idata t).

(** [p.pos(d)]: the position is stored in the first real components. *)
Definition pos (p : SuperParticle) (d : nat) : Real := sp_rdata p !!! d.

(** All particles of a tile, in storage order. *)
Definition particles (t : ParticleTile) : list SuperParticle :=
  getSuperParticle t <$> seq 0 (numParticles t).

(** [ptile.resize(n)]: every array is cut or extended to [n] entries. *)
Definition tile_resize (n : nat) (t : ParticleTile) : ParticleTile :=
  mkTile (resize n 0%Z (m_idcpu t))
         (resize n 0%Q <$> m_rdata t)
         (resize n 0%Q <$> m_runtime_rdata t)
         (resize n 0%Z <$> m_runtime_idata t).

(** [ptile.define(num_rr, num_ir)]: fixes the number of arrays of the
    tile ([NAR] compile-time real arrays and the run-time ones). *)
Definition tile_define (NAR num_rr num_ir : nat) (t : ParticleTile) : ParticleTile :=
  mkTile (m_idcpu t)
         (resize NAR [] (m_rdata t))
         (resize num_rr [] (m_runtime_rdata t))
         (resize num_ir [] (m_runtime_idata t)).

Definition empty_tile : ParticleTile := mkTile [] [] [] [].

#[global] Instance ParticleTile_inhabited : Inhabited ParticleTile := populate empty_tile.

(** The id stored in the packed word: bit 63 is the sign (set for a
    valid, non-negative id), bits 24..62 the magnitude. *)
Definition id_of (idcpu : Z) : Z :=
  let sign := Z.shiftr idcpu 63 in
  let val := Z.land (Z.shiftr idcpu 24) 549755813887 in
  if bool_decide (sign ≠ 0%Z) then val else (- val)%Z.

(** Keep the entries of [col] whose mask entry is set. *)
Definition select {A} (mask : list bool) (col : list A) : list A :=
  (filter (λ mb, mb.1 = true) (zip mask col)).*2.

Definition tile_filter (keep : Z → bool) (t : ParticleTile) : ParticleTile :=
  let mask := keep <$> m_idcpu t in
  mkTile (select mask (m_idcpu t))
         (select mask <$> m_rdata t)
         (select mask <$> m_runtime_rdata t)
         (select mask <$> m_runtime_idata t).

(** ** Particle containers *)

(** A particle container: whether it has been defined (a
    default-constructed container is not), its run-time components and,
    per refinement level, the tiles keyed by (grid index, tile index). *)
Record ParticleContainer := mkPC {
  isDefined : bool;
  NumRuntimeRealComps : nat;
  runtime_icomps : list string;
  m_particles : list (gmap (nat * nat) ParticleTile);
}.

Definition NumRuntimeIntComps_pc (c : ParticleContainer) : nat := length (runtime_icomps c).
Definition numLevels (c : ParticleContainer) : nat := length (m_particles c).
Definition GetParticles (c : ParticleContainer) (lev : nat) : gmap (nat * nat) ParticleTile :=
  m_particles c !!! lev.

Definition undefined_container : ParticleContainer := mkPC false 0 [] [].

#[global] Instance ParticleContainer_inhabited : Inhabited ParticleContainer :=
  populate undefined_container.

Definition set_particles
    (f : list (gmap (nat * nat) ParticleTile) → list (gmap (nat * nat) ParticleTile))
    (c : ParticleContainer) : ParticleContainer :=
  mkPC (isDefined c) (NumRuntimeRealComps c) (runtime_icomps c) (f (m_particles c)).

(** [c.DefineAndReturnParticleTile(lev, grid, tile)]: the tile is created
    when absent and defined with the container's run-time components. *)
Definition DefineAndReturnParticleTile (NAR : nat) (c : ParticleContainer)
    (lev : nat) (index : nat * nat) : ParticleContainer :=
  set_particles (alter (λ plev,
    <[index := tile_define NAR (NumRuntimeRealComps c) (NumRuntimeIntComps_pc c)
                 (default empty_tile (plev !! index))]> plev) lev) c.

Definition ParticlesAt (c : ParticleContainer) (lev : nat) (index : nat * nat) : ParticleTile :=
  default empty_tile (GetParticles c lev !! index).

(** Storing back through the reference returned by
    [DefineAndReturnParticleTile]. *)
Definition store_tile (c : ParticleContainer) (lev : nat) (index : nat * nat)
    (t : ParticleTile) : ParticleContainer :=
  set_particles (alter (<[index := t]>) lev) c.

(** [c.clearParticles()]: every level loses its tiles. *)
Definition clearParticles_pc (c : ParticleContainer) : ParticleContainer :=
  set_particles (λ levels, (λ _, ∅) <$> levels) c.

(** [c.TotalNumberOfParticles(only_valid, only_local)] on one rank. *)
Definition tile_count (only_valid : bool) (t : ParticleTile) : nat :=
  if only_valid
  then length (filter (λ w, (0 < id_of w)%Z) (m_idcpu t))
  else numParticles t.

Definition TotalNumberOfParticles (c : ParticleContainer) (only_valid only_local : bool) : Z :=
  Z.of_nat (sum_list ((λ plev : gmap (nat * nat) ParticleTile,
      sum_list (tile_count only_valid <$> (map_to_list plev).*2)) <$> m_particles c)).

(** [c.Redistribute(lev_min, lev_max, nGrow, local, remove_negative)] on
    one rank whose particles stay in their tiles: the only change to the
    stored data is the removal of the particles with a negative id, and
    only when [remove_negative] is set. *)
Definition Redistribute (c : ParticleContainer) (lev_min lev_max nGrow local : Z)
    (remove_negative : bool) : ParticleContainer :=
  if remove_negative
  then set_particles (λ levels,
         (λ plev : gmap (nat * nat) ParticleTile,
            tile_filter (λ w, bool_decide (0 ≤ id_of w)%Z) <$> plev) <$> levels) c
  else c.

(** ** Stream compaction *)

(** [Gpu::exclusive_scan] of the mask. *)
Fixpoint exclusive_scan (acc : nat) (mask : list Z) : list nat :=
  match mask with
  | [] => []
  | m :: rest => acc :: exclusive_scan (if bool_decide (m ≠ 0%Z) then S acc else acc) rest
  end.

(** [filterAndTransformParticles(dst, src, p, f, src_start, dst_start)]:
    the predicate fills a mask, the mask is scanned into destination
    offsets, and [f] is called for every source index whose mask entry is
    set.  The result is the written destination and the number of
    particles written. *)
Definition filterAndTransformParticles (dst src : ParticleTile)
    (p : ParticleTile → nat → Z)
    (f : ParticleTile → ParticleTile → nat → nat → ParticleTile)
    (src_start dst_start : nat) : ParticleTile * nat :=
  let np := numParticles src in
  let mask := (λ i, p src (src_start + i)) <$> seq 0 np in
  let offsets := exclusive_scan 0 mask in
  (for_loop np (λ i dst,
     if bool_decide (mask !!! i ≠ 0%Z)
     then f dst src (src_start + i) (dst_start + offsets !!! (src_start + i))
     else dst) dst,
   length (filter (λ m, m ≠ 0%Z) mask)).

(** [ReduceOps<ReduceOpSum>::eval(np, ..., g)] followed by
    [get<0>(reduce_data.value())]. *)
Definition reduce_sum (np : nat) (g : nat → nat) : nat := sum_list (g <$> seq 0 np).

End amrex.
Import amrex.

(** ** The domain-face classifier *)

Definition IsOutsideDomainBoundary (m_plo m_phi : list Real) (m_idim : nat) (m_iside : Z)
    (src : ParticleTile) (ip : nat) : Z :=
  let p := getSuperParticle src ip in
  if bool_decide (m_iside = 0%Z) then
    if Real_lt (pos p m_idim) (m_plo !!! m_idim) then 1%Z else 0%Z
  else
    if Real_ge (pos p m_idim) (m_phi !!! m_idim) then 1%Z else 0%Z.

(** ** The domain-face compaction functor *)

Definition CopyAndTimestamp (NAR : nat) (m_index : Z) (m_step : Z)
    (dst src : ParticleTile) (src_i dst_i : nat) : ParticleTile :=
  let dst := set_idcpu (<[dst_i := m_idcpu src !!! src_i]>) dst in
  let dst := for_loop NAR (λ j,
               set_rdata (λ d, col_set d j dst_i (col_get (m_rdata src) j src_i))) dst in
  let dst := for_loop (m_num_runtime_real src) (λ j,
               set_runtime_rdata (λ d, col_set d j dst_i (col_get (m_runtime_rdata src) j src_i))) dst in
  let dst := for_loop (m_num_runtime_int src) (λ j,
               set_runtime_idata (λ d, col_set d j dst_i (col_get (m_runtime_idata src) j src_i))) dst in
  if bool_decide (0 ≤ m_index)%Z
  then set_runtime_idata (λ d, col_set d (Z.to_nat m_index) dst_i m_step) dst
  else dst.

(** ** The simulation around the buffer *)

Inductive WarpXDim := DIM_1D_Z | DIM_XZ | DIM_RZ | DIM_3D.

Definition AMREX_SPACEDIM (d : WarpXDim) : nat :=
  match d with DIM_1D_Z => 1 | DIM_XZ | DIM_RZ => 2 | DIM_3D => 3 end.

(** [amrex::Array4<const Real>]: the values of one grid at (i,j,k);
    a [MultiFab] gives one per grid index. *)
Abbreviation Array4 := (Z → Z → Z → Q) (only parsing).
Abbreviation MultiFab := (nat → Z → Z → Z → Q) (only parsing).

Record Geometry := mkGeom {
  ProbLoArray : list Real;
  ProbHiArray : list Real;
  isPeriodic : nat → bool;
  InvCellSizeArray : list Real;
}.

(** What [ParticleBoundaryBuffer.cpp] takes from the rest of the program:
    the build configuration, [WarpX::GetInstance()], the input table read
    through [ParmParse], the component indices [PIdx] and the numerical
    routines of [UpdatePosition.H], [GetAndSetPosition.H],
    [NodalFieldGather.H] and [AMReX_Algorithm.H].  None of them is defined
    in the file, so they are parameters of the model. *)
Record WarpX := mkWarpX {
  WARPX_DIM : WarpXDim;
  AMREX_USE_EB : bool;
  PIdx_ux : nat;
  PIdx_uy : nat;
  PIdx_uz : nat;
  PIdx_theta : nat;
  PIdx_nattribs : nat;
  Geom : nat → Geometry;
  getistep : nat → Z;
  getdt : nat → Real;
  getSpeciesID : string → nat;
  queryarr_species_names : list string;
  ParmParse_query : string → string → option Z;
  UpdatePosition : Real * Real * Real → Real * Real * Real → Real → Real * Real * Real;
  compute_weights_nodal :
    Real → Real → Real → list Real → list Real → Z * Z * Z * list (list Real);
  interp_field_nodal : Z → Z → Z → list (list Real) → Array4 → Real;
  doGatherScalarFieldNodal : Real → Real → Real → Array4 → list Real → list Real → Real;
  bisect : Real → Real → (Real → Real) → Real;
  get_particle_position : SuperParticle → Real * Real * Real;
  GetParticlePosition : ParticleTile → nat → Real * Real * Real;
  std_sqrt : Real → Real;
  std_atan2 : Real → Real → Real;
}.

(** Modelled from the spec: [make_alike] of the species container
    (declared in the container headers, which are not part of the sources
    at hand) creates a "buffer-alike" container: defined, with the
    run-time components of its model and no particles. *)
Definition make_alike (pc : ParticleContainer) : ParticleContainer :=
  mkPC true (NumRuntimeRealComps pc) (runtime_icomps pc) ((λ _, ∅) <$> m_particles pc).

(** Modelled from the spec: [AddIntComp(name, comm)] adds one named
    run-time integer attribute to a container; every tile gets one more
    integer array. *)
Definition AddIntComp (c : ParticleContainer) (name : string) (comm : bool)
    : ParticleContainer :=
  mkPC (isDefined c) (NumRuntimeRealComps c) (runtime_icomps c ++ [name])
       ((λ plev : gmap (nat * nat) ParticleTile,
           (λ t, set_runtime_idata (λ d, d ++ [replicate (numParticles t) 0%Z]) t) <$> plev)
          <$> m_particles c).

(** ** The embedded-boundary compaction functor *)

(** The functor addresses the particle struct of slot [i] as [m_aos[i]];
    in the SoA tile the struct is the id word together with the position
    components, which is what [aos_assign] copies and [aos_set_pos]
    writes. *)
Definition aos_assign (SPACEDIM : nat) (dst : ParticleTile) (dst_i : nat)
    (src : ParticleTile) (src_i : nat) : ParticleTile :=
  let dst := set_idcpu (<[dst_i := m_idcpu src !!! src_i]>) dst in
  for_loop SPACEDIM (λ d,
    set_rdata (λ c, col_set c d dst_i (col_get (m_rdata src) d src_i))) dst.

Definition aos_set_pos (dst : ParticleTile) (dst_i d : nat) (v : Real) : ParticleTile :=
  set_rdata (λ c, col_set c d dst_i v) dst.

(** The function handed to [bisect]: the signed distance at the position
    reached by stepping back by [dt_frac * dt]. *)
Definition phi_along (wx : WarpX) (xyz u : Real * Real * Real) (dt : Real)
    (phiarr : Array4) (dxi plo : list Real) (dt_frac : Real) : Real :=
  let '(x_temp, y_temp, z_temp) := UpdatePosition wx xyz u (- dt_frac * dt)%Q in
  let '(i, j, k, W) := compute_weights_nodal wx x_temp y_temp z_temp plo dxi in
  interp_field_nodal wx i j k W phiarr.

Definition FindBoundaryIntersection (wx : WarpX) (m_index : Z) (m_step : Z) (m_dt : Real)
    (m_phiarr : Array4) (m_dxi m_plo : list Real)
    (dst src : ParticleTile) (src_i dst_i : nat) : ParticleTile :=
  let dst := aos_assign (AMREX_SPACEDIM (WARPX_DIM wx)) dst dst_i src src_i in
  let dst := for_loop (PIdx_nattribs wx) (λ j,
               set_rdata (λ d, col_set d j dst_i (col_get (m_rdata src) j src_i))) dst in
  let dst := for_loop (m_num_runtime_real src) (λ j,
               set_runtime_rdata (λ d, col_set d j dst_i (col_get (m_runtime_rdata src) j src_i))) dst in
  let dst := for_loop (m_num_runtime_int src) (λ j,
               set_runtime_idata (λ d, col_set d j dst_i (col_get (m_runtime_idata src) j src_i))) dst in
  let dst := if bool_decide (0 ≤ m_index)%Z
             then set_runtime_idata (λ d, col_set d (Z.to_nat m_index) dst_i m_step) dst
             else dst in
  let p := getSuperParticle dst dst_i in
  let xyz := get_particle_position wx p in
  let ux := col_get (m_rdata dst) (PIdx_ux wx) dst_i in
  let uy := col_get (m_rdata dst) (PIdx_uy wx) dst_i in
  let uz := col_get (m_rdata dst) (PIdx_uz wx) dst_i in
  let dt_fraction :=
    bisect wx 0%Q 1%Q (phi_along wx xyz (ux, uy, uz) m_dt m_phiarr m_dxi m_plo) in
  let '(x_temp, y_temp, z_temp) :=
    UpdatePosition wx xyz (ux, uy, uz) (- dt_fraction * m_dt)%Q in
  match WARPX_DIM wx with
  | DIM_3D =>
      let dst := aos_set_pos dst dst_i 0 x_temp in
      let dst := aos_set_pos dst dst_i 1 y_temp in
      aos_set_pos dst dst_i 2 z_temp
  | DIM_XZ =>
      let dst := aos_set_pos dst dst_i 0 x_temp in
      aos_set_pos dst dst_i 1 z_temp
  | DIM_RZ =>
      let dst := aos_set_pos dst dst_i 0 (std_sqrt wx (x_temp * x_temp + y_temp * y_temp)%Q) in
      let dst := set_rdata (λ d, col_set d (PIdx_theta wx) dst_i (std_atan2 wx y_temp x_temp)) dst in
      aos_set_pos dst dst_i 1 z_temp
  | DIM_1D_Z =>
      aos_set_pos dst dst_i 0 z_temp
  end.

(** ** ParticleBoundaryBuffer *)

Record ParticleBoundaryBuffer := mkPBB {
  m_particle_containers : list (list ParticleContainer);
  m_do_boundary_buffer : list (list Z);
  m_do_any_boundary : list Z;
  m_boundary_names : list string;
  m_species_names : list string;
}.

(** Modelled from the spec: [numBoundaries()] (declared in the header) is
    twice the spatial dimensionality, plus one if embedded boundaries are
    enabled. *)
Definition numBoundaries (wx : WarpX) : nat :=
  AMREX_SPACEDIM (WARPX_DIM wx) * 2 + (if AMREX_USE_EB wx then 1 else 0).

(** [getSpeciesNames()]: read once from the input table. *)
Definition getSpeciesNames (wx : WarpX) : list string := queryarr_species_names wx.

(** Modelled from the spec: [numSpecies()] (declared in the header) is the
    length of the list of species names. *)
Definition numSpecies (this : ParticleBoundaryBuffer) : nat := length (m_species_names this).

(** The faces in index order: idx_xlo, idx_xhi, ... of the constructor. *)
Definition face_names (d : WarpXDim) : list string :=
  match d with
  | DIM_1D_Z => ["zlo"; "zhi"]
  | DIM_XZ | DIM_RZ => ["xlo"; "xhi"; "zlo"; "zhi"]
  | DIM_3D => ["xlo"; "xhi"; "ylo"; "yhi"; "zlo"; "zhi"]
  end%string.

Definition boundary_names (wx : WarpX) : list string :=
  face_names (WARPX_DIM wx) ++ (if AMREX_USE_EB wx then ["eb"%string] else []).

(** [pp_species.query(key, flags[idx][ispecies])]: the flag is written
    only when the key is present. *)
Definition query_flag (wx : WarpX) (species key : string) (idx ispecies : nat)
    (flags : list (list Z)) : list (list Z) :=
  match ParmParse_query wx species key with
  | Some v => col_set flags idx ispecies v
  | None => flags
  end.

Definition ParticleBoundaryBuffer_ctor (wx : WarpX) : ParticleBoundaryBuffer :=
  let nb := numBoundaries wx in
  let names := getSpeciesNames wx in
  let ns := length names in
  let containers := replicate nb (replicate ns undefined_container) in
  let flags0 := replicate nb (replicate ns 0%Z) in
  let '(flags, any) :=
    for_loop ns (λ ispecies '(flags, any),
      let species := names !!! ispecies in
      let flags :=
        for_loop nb (λ idx flags,
          query_flag wx species ("save_particles_at_" +:+ (boundary_names wx !!! idx))
                     idx ispecies flags) flags in
      let any :=
        for_loop nb (λ i any,
          if bool_decide (col_get flags i ispecies ≠ 0%Z) then <[i := 1%Z]> any else any) any in
      (flags, any)) (flags0, replicate nb 0%Z) in
  mkPBB containers flags any (boundary_names wx) names.

Definition set_containers
    (f : list (list ParticleContainer) → list (list ParticleContainer))
    (this : ParticleBoundaryBuffer) : ParticleBoundaryBuffer :=
  mkPBB (f (m_particle_containers this)) (m_do_boundary_buffer this)
        (m_do_any_boundary this) (m_boundary_names this) (m_species_names this).

(** *** redistribute *)

Definition redistribute (this : ParticleBoundaryBuffer) (wx : WarpX) : ParticleBoundaryBuffer :=
  for_loop (numBoundaries wx) (λ i this,
    for_loop (numSpecies this) (λ ispecies this,
      let species_buffer := col_get (m_particle_containers this) i ispecies in
      if isDefined species_buffer
      then set_containers (λ c,
             col_set c i ispecies (Redistribute species_buffer 0 (-1) 0 0 false)) this
      else this) this) this.

(** *** clearParticles *)

Definition clearParticles_i (this : ParticleBoundaryBuffer) (i : nat) : ParticleBoundaryBuffer :=
  for_loop (numSpecies this) (λ ispecies this,
    let species_buffer := col_get (m_particle_containers this) i ispecies in
    if isDefined species_buffer
    then set_containers (λ c, col_set c i ispecies (clearParticles_pc species_buffer)) this
    else this) this.

Definition clearParticles (this : ParticleBoundaryBuffer) (wx : WarpX) : ParticleBoundaryBuffer :=
  for_loop (numBoundaries wx) (λ i this, clearParticles_i this i) this.

(** *** gatherParticles *)

(** The tiles visited by [PIter pti(pc, lev)], as (index, LocalTileIndex). *)
Definition PIter (plevel : gmap (nat * nat) ParticleTile) : list (nat * nat) :=
  (map_to_list plevel).*1.

(** Count, resize, filter and transform: the three blocks at the end of
    the loop over tiles. *)
Definition count_resize_compact (predicate : ParticleTile → nat → Z)
    (transform : Z → ParticleTile → ParticleTile → nat → nat → ParticleTile)
    (ptile_buffer ptile : ParticleTile) : ParticleTile :=
  let np := numParticles ptile in
  let count := reduce_sum np (λ ip, if bool_decide (predicate ptile ip ≠ 0%Z) then 1 else 0) in
  let dst_index := numParticles ptile_buffer in
  let ptile_buffer := tile_resize (dst_index + count) ptile_buffer in
  let timestamp_index := (Z.of_nat (NumRuntimeIntComps ptile_buffer) - 1)%Z in
  (filterAndTransformParticles ptile_buffer ptile predicate (transform timestamp_index)
     0 dst_index).1.

(** The body of the loop over tiles. *)
Definition gather_tile (wx : WarpX) (predicate : nat * nat → ParticleTile → nat → Z)
    (transform : nat * nat → Z → ParticleTile → ParticleTile → nat → nat → ParticleTile)
    (plevel : gmap (nat * nat) ParticleTile) (lev : nat)
    (index : nat * nat) (species_buffer : ParticleContainer) : ParticleContainer :=
  match plevel !! index with
  | None => species_buffer
  | Some ptile =>
      let species_buffer :=
        DefineAndReturnParticleTile (PIdx_nattribs wx) species_buffer lev index in
      let ptile_buffer := ParticlesAt species_buffer lev index in
      if bool_decide (numParticles ptile = 0) then species_buffer
      else store_tile species_buffer lev index
             (count_resize_compact (predicate index) (transform index) ptile_buffer ptile)
  end.

(** The loops over levels and tiles. *)
Definition gather_levels (wx : WarpX)
    (predicate : nat → nat * nat → ParticleTile → nat → Z)
    (transform : nat → nat * nat → Z → ParticleTile → ParticleTile → nat → nat → ParticleTile)
    (pc species_buffer : ParticleContainer) : ParticleContainer :=
  for_loop (numLevels pc) (λ lev species_buffer,
    let plevel := GetParticles pc lev in
    fold_left (λ species_buffer index,
                 gather_tile wx (predicate lev) (transform lev) plevel lev index species_buffer)
              (PIter plevel) species_buffer) species_buffer.

(** The body of the loop over species, for boundary [b]. *)
Definition gather_species (wx : WarpX) (b : nat)
    (predicate : nat → nat * nat → ParticleTile → nat → Z)
    (transform : nat → nat * nat → Z → ParticleTile → ParticleTile → nat → nat → ParticleTile)
    (mypc : list ParticleContainer) (i : nat)
    (this : ParticleBoundaryBuffer) : ParticleBoundaryBuffer :=
  if bool_decide (col_get (m_do_boundary_buffer this) b i = 0%Z) then this
  else
    let pc := mypc !!! i in
    let buffer_i := col_get (m_particle_containers this) b i in
    let buffer_i :=
      if isDefined buffer_i then buffer_i
      else AddIntComp (make_alike pc) "timestamp" false in
    set_containers (λ c,
      col_set c b i (gather_levels wx predicate transform pc buffer_i)) this.

(** The predicate and the transform of the domain faces: the struct
    [IsOutsideDomainBoundary{plo, phi, idim, iside}] and
    [CopyAndTimestamp{timestamp_index, timestep}]. *)
Definition domain_predicate (plo phi : list Real) (idim iside : nat)
    : nat → nat * nat → ParticleTile → nat → Z :=
  λ _ _, IsOutsideDomainBoundary plo phi idim (Z.of_nat iside).

Definition domain_transform (wx : WarpX)
    : nat → nat * nat → Z → ParticleTile → ParticleTile → nat → nat → ParticleTile :=
  λ _ _ timestamp_index,
    CopyAndTimestamp (PIdx_nattribs wx) timestamp_index (getistep wx 0).

(** The predicate of the embedded boundary (the lambda [predicate]) and
    [FindBoundaryIntersection{timestamp_index, timestep, dt, phiarr, dxi, plo}]. *)
Definition eb_predicate (wx : WarpX) (distance_to_eb : list MultiFab) (plo : list Real)
    : nat → nat * nat → ParticleTile → nat → Z :=
  λ lev index ptile ip,
    let phiarr := (distance_to_eb !!! lev) index.1 in
    let dxi := InvCellSizeArray (Geom wx lev) in
    let '(xp, yp, zp) := GetParticlePosition wx ptile ip in
    let phi_value := doGatherScalarFieldNodal wx xp yp zp phiarr dxi plo in
    if Real_lt phi_value 0%Q then 1%Z else 0%Z.

Definition eb_transform (wx : WarpX) (distance_to_eb : list MultiFab) (plo : list Real)
    : nat → nat * nat → Z → ParticleTile → ParticleTile → nat → nat → ParticleTile :=
  λ lev index timestamp_index,
    let phiarr := (distance_to_eb !!! lev) index.1 in
    let dxi := InvCellSizeArray (Geom wx lev) in
    FindBoundaryIntersection wx timestamp_index (getistep wx 0) (getdt wx lev)
      phiarr dxi plo.

Definition gatherParticles (this : ParticleBoundaryBuffer) (wx : WarpX)
    (mypc : list ParticleContainer) (distance_to_eb : list MultiFab)
    : ParticleBoundaryBuffer * list ParticleContainer :=
  let geom := Geom wx 0 in
  let plo := ProbLoArray geom in
  let phi := ProbHiArray geom in
  let this :=
    for_loop (AMREX_SPACEDIM (WARPX_DIM wx)) (λ idim this,
      if isPeriodic geom idim then this
      else
        for_loop 2 (λ iside this,
          for_loop (numSpecies this) (λ i this,
            gather_species wx (2 * idim + iside)
              (domain_predicate plo phi idim iside) (domain_transform wx)
              mypc i this) this) this) this in
  let this :=
    if AMREX_USE_EB wx then
      let eb := length (m_particle_containers this) - 1 in
      for_loop (numSpecies this) (λ i this,
        gather_species wx eb
          (eb_predicate wx distance_to_eb plo) (eb_transform wx distance_to_eb plo)
          mypc i this) this
    else this in
  (this, mypc).

(** *** Accessors *)

(** [static_cast<int>] of a [Long]. *)
Definition cast_int (z : Z) : Z := ((z + 2147483648) mod 4294967296 - 2147483648)%Z.

Definition getNumParticlesInContainer (this : ParticleBoundaryBuffer) (wx : WarpX)
    (species_name : string) (boundary : nat) (local : bool) : Z :=
  let buffer := m_particle_containers this !!! boundary in
  let index := getSpeciesID wx species_name in
  if isDefined (buffer !!! index)
  then cast_int (TotalNumberOfParticles (buffer !!! index) false local)
  else 0%Z.

(** A call either returns or stops the program with a message
    ([WARPX_ALWAYS_ASSERT_WITH_MESSAGE]). *)
Inductive outcome (A : Type) :=
  | Returns (a : A)
  | Aborts (msg : string).
Arguments Returns {A} a.
Arguments Aborts {A} msg.

Definition getParticleBuffer (this : ParticleBoundaryBuffer) (wx : WarpX)
    (species_name : string) (boundary : nat) : outcome ParticleContainer :=
  let buffer := m_particle_containers this !!! boundary in
  let index := getSpeciesID wx species_name in
  if bool_decide (col_get (m_do_boundary_buffer this) boundary index = 0%Z)
  then Aborts ("Attempted to get particle buffer for boundary "
               +:+ pretty boundary +:+ ", which is not used!")
  else if negb (isDefined (buffer !!! index))
  then Aborts "Tried to get a buffer that is not defined!"
  else Returns (buffer !!! index).

(** The pointer [&buffer[index]] is the place of the slot: its boundary
    and species indices. *)
Definition getParticleBufferPointer (this : ParticleBoundaryBuffer) (wx : WarpX)
    (species_name : string) (boundary : nat) : outcome (nat * nat) :=
  let index := getSpeciesID wx species_name in
  Returns (boundary, index).

Definition deref (this : ParticleBoundaryBuffer) (p : nat * nat) : ParticleContainer :=
  col_get (m_particle_containers this) p.1 p.2.

(** *** printNumParticles *)

(** The messages handed to [Utils::TextMsg::Info], in the order in which
    they are printed. *)
Definition printNumParticles (this : ParticleBoundaryBuffer) (wx : WarpX) : list string :=
  let out :=
    for_loop (AMREX_SPACEDIM (WARPX_DIM wx)) (λ idim out,
      for_loop 2 (λ iside out,
        let buffer := m_particle_containers this !!! (2 * idim + iside) in
        for_loop (numSpecies this) (λ i out,
          let np := if isDefined (buffer !!! i)
                    then TotalNumberOfParticles (buffer !!! i) false false else 0%Z in
          out ++ ["Species " +:+ (m_species_names this !!! i) +:+ " has "
                  +:+ pretty np +:+ " particles in the boundary buffer "
                  +:+ "for side " +:+ pretty iside +:+ " of dim " +:+ pretty idim])
          out) out) [] in
  if AMREX_USE_EB wx then
    let buffer := m_particle_containers this !!! (2 * AMREX_SPACEDIM (WARPX_DIM wx)) in
    for_loop (numSpecies this) (λ i out,
      let np := if isDefined (buffer !!! i)
                then TotalNumberOfParticles (buffer !!! i) false false else 0%Z in
      out ++ ["Species " +:+ (m_species_names this !!! i) +:+ " has "
              +:+ pretty np +:+ " particles in the EB boundary buffer"]) out
  else out.

(** *** getSpeciesNames, with its static flag *)

Definition set_species_names (names : list string) (this : ParticleBoundaryBuffer)
    : ParticleBoundaryBuffer :=
  mkPBB (m_particle_containers this) (m_do_boundary_buffer this) (m_do_any_boundary this)
        (m_boundary_names this) names.

(** [getSpeciesNames()] with its function-local [static bool initialized]
    passed and returned: the first call in the process reads
    "particles.species_names" into the (still empty) vector of the object
    it is called on; every call returns the vector of its object. *)
Definition getSpeciesNames_static (initialized : bool) (this : ParticleBoundaryBuffer)
    (wx : WarpX) : list string * bool * ParticleBoundaryBuffer :=
  let this :=
    if negb initialized then set_species_names (queryarr_species_names wx) this else this in
  (m_species_names this, true, this).

(** The answers of a sequence of calls, each with the input table of its
    moment. *)
Fixpoint getSpeciesNames_calls (initialized : bool) (this : ParticleBoundaryBuffer)
    (tables : list WarpX) : list (list string) :=
  match tables with
  | [] => []
  | wx :: tables =>
      let '(names, initialized, this) := getSpeciesNames_static initialized this wx in
      names :: getSpeciesNames_calls initialized this tables
  end.

(** * Vocabulary of the statements *)

(** Row [k] of a family of arrays: entry [k] of each array. *)
Definition row {A} `{Inhabited A} (cols : list (list A)) (k : nat) : list A :=
  (λ c, c !!! k) <$> cols.

(** Every array of the family has [n] entries. *)
Definition cols_ok {A} (n : nat) (cols : list (list A)) : Prop :=
  Forall (λ c, length c = n) cols.

(** Every array of the tile has as many entries as the tile has particles. *)
Definition tile_ok (t : ParticleTile) : Prop :=
  cols_ok (numParticles t) (m_rdata t)
  ∧ cols_ok (numParticles t) (m_runtime_rdata t)
  ∧ cols_ok (numParticles t) (m_runtime_idata t).

(** The tile has [NAR] real, [nrr] run-time real and [nri] run-time
    integer arrays. *)
Definition tile_schema (NAR nrr nri : nat) (t : ParticleTile) : Prop :=
  length (m_rdata t) = NAR
  ∧ length (m_runtime_rdata t) = nrr
  ∧ length (m_runtime_idata t) = nri.

Definition tile_wf (NAR nrr nri : nat) (t : ParticleTile) : Prop :=
  tile_schema NAR nrr nri t ∧ tile_ok t.

(** A particle with the time step appended to its run-time integers. *)
Definition stamp (m_step : Z) (p : SuperParticle) : SuperParticle :=
  mkSP (sp_idcpu p) (sp_rdata p) (sp_runtime_rdata p) (sp_runtime_idata p ++ [m_step]).

(** What the copy loops do to the row of the destination slot. *)
Definition copy_row {A} `{Inhabited A} (n : nat) (src_row dst_row : list A) : list A :=
  for_loop n (λ j r, <[j := src_row !!! j]> r) dst_row.

Definition timestamp_row (m_index : Z) (m_step : Z) (r : list Z) : list Z :=
  if bool_decide (0 ≤ m_index)%Z then <[Z.to_nat m_index := m_step]> r else r.

(** [CopyAndTimestamp] seen from the destination slot: [sp] is the source
    particle, [dp] what the slot held. *)
Definition CopyAndTimestamp_row (NAR : nat) (m_index m_step : Z)
    (sp dp : SuperParticle) : SuperParticle :=
  mkSP (sp_idcpu sp)
       (copy_row NAR (sp_rdata sp) (sp_rdata dp))
       (copy_row (length (sp_runtime_rdata sp)) (sp_runtime_rdata sp) (sp_runtime_rdata dp))
       (timestamp_row m_index m_step
          (copy_row (length (sp_runtime_idata sp)) (sp_runtime_idata sp) (sp_runtime_idata dp))).

(** The source indices selected by a predicate, in order. *)
Definition matched (p : ParticleTile → nat → Z) (src : ParticleTile) : list nat :=
  filter (λ ip, p src ip ≠ 0%Z) (seq 0 (numParticles src)).

(** [d'] is [d] with slot [dst_i] replaced by [h] of its particle: same
    size, same layout, every other slot untouched. *)
Definition slot_update (dst_i : nat) (h : SuperParticle → SuperParticle)
    (d d' : ParticleTile) : Prop :=
  numParticles d' = numParticles d
  ∧ tile_ok d'
  ∧ (∀ NAR nrr nri, tile_schema NAR nrr nri d → tile_schema NAR nrr nri d')
  ∧ ∀ k, getSuperParticle d' k
         = if decide (k = dst_i) then h (getSuperParticle d dst_i) else getSuperParticle d k.

(** A compaction functor [f] writes one slot: slot [dst_i] receives
    [R sp dp], where [sp] is the source particle and [dp] what the slot
    held. *)
Definition slot_writer
    (f : ParticleTile → ParticleTile → nat → nat → ParticleTile)
    (R : SuperParticle → SuperParticle → SuperParticle) : Prop :=
  ∀ dst src src_i dst_i, tile_ok dst → dst_i < numParticles dst →
    slot_update dst_i (R (getSuperParticle src src_i)) dst (f dst src src_i dst_i).

Definition sp_set_rdata (f : list Real → list Real) (p : SuperParticle) : SuperParticle :=
  mkSP (sp_idcpu p) (f (sp_rdata p)) (sp_runtime_rdata p) (sp_runtime_idata p).

(** The struct assignment [dst.m_aos[dst_i] = src.m_aos[src_i]] seen from
    the slot. *)
Definition aos_assign_row (SPACEDIM : nat) (sp dp : SuperParticle) : SuperParticle :=
  mkSP (sp_idcpu sp) (copy_row SPACEDIM (sp_rdata sp) (sp_rdata dp))
       (sp_runtime_rdata dp) (sp_runtime_idata dp).

(** The writes of the intersection point, per build dimension. *)
Definition set_position_row (wx : WarpX) (xyz : Real * Real * Real) (r : list Real)
    : list Real :=
  let '(x_temp, y_temp, z_temp) := xyz in
  match WARPX_DIM wx with
  | DIM_3D => <[2 := z_temp]> (<[1 := y_temp]> (<[0 := x_temp]> r))
  | DIM_XZ => <[1 := z_temp]> (<[0 := x_temp]> r)
  | DIM_RZ =>
      <[1 := z_temp]>
        (<[PIdx_theta wx := std_atan2 wx y_temp x_temp]>
           (<[0 := std_sqrt wx (x_temp * x_temp + y_temp * y_temp)%Q]> r))
  | DIM_1D_Z => <[0 := z_temp]> r
  end.

Definition set_position_tile (wx : WarpX) (xyz : Real * Real * Real)
    (dst : ParticleTile) (dst_i : nat) : ParticleTile :=
  let '(x_temp, y_temp, z_temp) := xyz in
  match WARPX_DIM wx with
  | DIM_3D =>
      aos_set_pos (aos_set_pos (aos_set_pos dst dst_i 0 x_temp) dst_i 1 y_temp) dst_i 2 z_temp
  | DIM_XZ => aos_set_pos (aos_set_pos dst dst_i 0 x_temp) dst_i 1 z_temp
  | DIM_RZ =>
      aos_set_pos
        (set_rdata (λ d, col_set d (PIdx_theta wx) dst_i (std_atan2 wx y_temp x_temp))
           (aos_set_pos dst dst_i 0 (std_sqrt wx (x_temp * x_temp + y_temp * y_temp)%Q)))
        dst_i 1 z_temp
  | DIM_1D_Z => aos_set_pos dst dst_i 0 z_temp
  end.

(** The momentum read back from the destination slot. *)
Definition momentum (wx : WarpX) (p : SuperParticle) : Real * Real * Real :=
  (sp_rdata p !!! PIdx_ux wx, sp_rdata p !!! PIdx_uy wx, sp_rdata p !!! PIdx_uz wx).

(** The step fraction found by the bisection for particle [p], and the
    point reached by stepping [p] back by that fraction of [m_dt]. *)
Definition dt_fraction_of (wx : WarpX) (m_dt : Real) (phiarr : Array4)
    (dxi plo : list Real) (p : SuperParticle) : Real :=
  bisect wx 0%Q 1%Q
    (phi_along wx (get_particle_position wx p) (momentum wx p) m_dt phiarr dxi plo).

Definition intersection (wx : WarpX) (m_dt : Real) (phiarr : Array4)
    (dxi plo : list Real) (p : SuperParticle) : Real * Real * Real :=
  UpdatePosition wx (get_particle_position wx p) (momentum wx p)
    (- dt_fraction_of wx m_dt phiarr dxi plo p * m_dt)%Q.

Definition move_to_intersection (wx : WarpX) (m_dt : Real) (phiarr : Array4)
    (dxi plo : list Real) (p : SuperParticle) : SuperParticle :=
  sp_set_rdata (set_position_row wx (intersection wx m_dt phiarr dxi plo p)) p.

(** [FindBoundaryIntersection] seen from the destination slot. *)
Definition FindBoundaryIntersection_row (wx : WarpX) (m_index m_step : Z) (m_dt : Real)
    (phiarr : Array4) (dxi plo : list Real) (sp dp : SuperParticle) : SuperParticle :=
  move_to_intersection wx m_dt phiarr dxi plo
    (CopyAndTimestamp_row (PIdx_nattribs wx) m_index m_step sp
       (aos_assign_row (AMREX_SPACEDIM (WARPX_DIM wx)) sp dp)).


(** The particle has [NAR] real, [nrr] run-time real and [nri] run-time
    integer attributes. *)
Definition sp_schema (NAR nrr nri : nat) (p : SuperParticle) : Prop :=
  length (sp_rdata p) = NAR
  ∧ length (sp_runtime_rdata p) = nrr
  ∧ length (sp_runtime_idata p) = nri.

(** The buffer tile after one visit of the loop over tiles: [old] is the
    buffer tile found (if any), [ptile] the tile of live particles. *)
Definition gathered_tile (NAR nrr nri : nat) (predicate : ParticleTile → nat → Z)
    (transform : Z → ParticleTile → ParticleTile → nat → nat → ParticleTile)
    (old : option ParticleTile) (ptile : ParticleTile) : ParticleTile :=
  let t0 := tile_define NAR nrr nri (default empty_tile old) in
  if bool_decide (numParticles ptile = 0) then t0
  else count_resize_compact predicate transform t0 ptile.

(** Two containers agree on everything but their particles. *)
Definition same_header (c c' : ParticleContainer) : Prop :=
  isDefined c' = isDefined c
  ∧ NumRuntimeRealComps c' = NumRuntimeRealComps c
  ∧ runtime_icomps c' = runtime_icomps c
  ∧ numLevels c' = numLevels c.

(** The buffer of boundary [b] and species [i], its activation flag, and
    whether the slot exists. *)
Definition slot (this : ParticleBoundaryBuffer) (b i : nat) : ParticleContainer :=
  col_get (m_particle_containers this) b i.

Definition flag (this : ParticleBoundaryBuffer) (b i : nat) : Z :=
  col_get (m_do_boundary_buffer this) b i.

Definition shape (this : ParticleBoundaryBuffer) : list nat :=
  length <$> m_particle_containers this.

Definition in_range (this : ParticleBoundaryBuffer) (b i : nat) : Prop :=
  i < default 0 (shape this !! b).

#[global] Instance in_range_dec this b i : Decision (in_range this b i) :=
  decide (i < default 0 (shape this !! b)).

(** Two buffer managers agree on everything but the buffered particles. *)
Definition same_config (this this' : ParticleBoundaryBuffer) : Prop :=
  m_do_boundary_buffer this' = m_do_boundary_buffer this
  ∧ m_do_any_boundary this' = m_do_any_boundary this
  ∧ m_boundary_names this' = m_boundary_names this
  ∧ m_species_names this' = m_species_names this
  ∧ shape this' = shape this.

(** The buffer of one (boundary, species) pair after the body of the loop
    over species has run for it. *)
Definition gathered_buffer (wx : WarpX)
    (predicate : nat → nat * nat → ParticleTile → nat → Z)
    (transform : nat → nat * nat → Z → ParticleTile → ParticleTile → nat → nat → ParticleTile)
    (pc buf : ParticleContainer) : ParticleContainer :=
  gather_levels wx predicate transform pc
    (if isDefined buf then buf else AddIntComp (make_alike pc) "timestamp" false).

(** Boundary [b] is the face of dimension [b / 2] on side [b mod 2];
    these are the buffers written for a face and for the embedded
    boundary. *)
Definition face_gathered (wx : WarpX) (mypc : list ParticleContainer) (b i : nat)
    (buf : ParticleContainer) : ParticleContainer :=
  gathered_buffer wx
    (domain_predicate (ProbLoArray (Geom wx 0)) (ProbHiArray (Geom wx 0)) (b / 2) (b mod 2))
    (domain_transform wx) (mypc !!! i) buf.

Definition eb_gathered (wx : WarpX) (mypc : list ParticleContainer)
    (distance_to_eb : list MultiFab) (i : nat) (buf : ParticleContainer)
    : ParticleContainer :=
  gathered_buffer wx
    (eb_predicate wx distance_to_eb (ProbLoArray (Geom wx 0)))
    (eb_transform wx distance_to_eb (ProbLoArray (Geom wx 0))) (mypc !!! i) buf.

(** The pairs that [gatherParticles] visits. *)
Definition face_active (wx : WarpX) (this : ParticleBoundaryBuffer) (b i : nat) : Prop :=
  b < 2 * AMREX_SPACEDIM (WARPX_DIM wx)
  ∧ isPeriodic (Geom wx 0) (b / 2) = false
  ∧ i < numSpecies this
  ∧ flag this b i ≠ 0%Z
  ∧ in_range this b i.

Definition eb_active (wx : WarpX) (this : ParticleBoundaryBuffer) (b i : nat) : Prop :=
  AMREX_USE_EB wx = true
  ∧ b = length (m_particle_containers this) - 1
  ∧ i < numSpecies this
  ∧ flag this b i ≠ 0%Z
  ∧ in_range this b i.

#[global] Instance face_active_dec wx this b i : Decision (face_active wx this b i).
Proof. unfold face_active. apply _. Defined.

#[global] Instance eb_active_dec wx this b i : Decision (eb_active wx this b i).
Proof. unfold eb_active. apply _. Defined.

(** Every tile of the container is laid out as the container says. *)
Definition container_wf (NAR : nat) (c : ParticleContainer) : Prop :=
  ∀ lev index t, GetParticles c lev !! index = Some t →
    tile_wf NAR (NumRuntimeRealComps c) (NumRuntimeIntComps_pc c) t.

(** The state of a buffer with respect to the species container [pc] it
    buffers: either it has never been defined, or it is laid out like
    [pc] with the "timestamp" component added after the components of
    [pc]. *)
Definition buffer_inv (NAR : nat) (pc buf : ParticleContainer) : Prop :=
  (isDefined buf = false → buf = undefined_container)
  ∧ (isDefined buf = true →
       NumRuntimeRealComps buf = NumRuntimeRealComps pc
       ∧ runtime_icomps buf = runtime_icomps pc ++ ["timestamp"%string]
       ∧ numLevels pc ≤ numLevels buf
       ∧ container_wf NAR buf).

(** The invariant of the buffer manager during a run in which the species
    containers [mypc] keep their run-time components: one slot per
    boundary and species, each in the state described above.  The
    constructor establishes it and every method preserves it
    ([reachable_inv] below). *)
Definition pbb_inv (wx : WarpX) (mypc : list ParticleContainer)
    (this : ParticleBoundaryBuffer) : Prop :=
  shape this = replicate (numBoundaries wx) (numSpecies this)
  ∧ ∀ b i, buffer_inv (PIdx_nattribs wx) (mypc !!! i) (slot this b i).

(** The species containers are well formed. *)
Definition mypc_wf (wx : WarpX) (mypc : list ParticleContainer) : Prop :=
  ∀ i, container_wf (PIdx_nattribs wx) (mypc !!! i).

(** Two states of the simulation built the same way, and two states of the
    species containers with the same run-time components and levels. *)
Definition same_build (wx wx' : WarpX) : Prop :=
  WARPX_DIM wx' = WARPX_DIM wx
  ∧ AMREX_USE_EB wx' = AMREX_USE_EB wx
  ∧ PIdx_nattribs wx' = PIdx_nattribs wx.

Definition same_schema (mypc mypc' : list ParticleContainer) : Prop :=
  ∀ i, NumRuntimeRealComps (mypc' !!! i) = NumRuntimeRealComps (mypc !!! i)
       ∧ runtime_icomps (mypc' !!! i) = runtime_icomps (mypc !!! i)
       ∧ numLevels (mypc' !!! i) = numLevels (mypc !!! i).

(** The states of the buffer manager in a run: it is constructed, and
    then gathers, clears and redistributes in any order, while the
    simulation advances ([wx'], [mypc'] are its state at each call). *)
Inductive reachable (wx : WarpX) (mypc : list ParticleContainer)
    : ParticleBoundaryBuffer → Prop :=
  | reachable_ctor : reachable wx mypc (ParticleBoundaryBuffer_ctor wx)
  | reachable_gather this wx' mypc' distance_to_eb :
      reachable wx mypc this → same_build wx wx' → same_schema mypc mypc' →
      mypc_wf wx' mypc' →
      reachable wx mypc (gatherParticles this wx' mypc' distance_to_eb).1
  | reachable_clear this wx' :
      reachable wx mypc this → reachable wx mypc (clearParticles this wx')
  | reachable_clear_i this i :
      reachable wx mypc this → reachable wx mypc (clearParticles_i this i)
  | reachable_redistribute this wx' :
      reachable wx mypc this → reachable wx mypc (redistribute this wx').

(** A transform whose effect on a destination laid out for the source
    plus one integer array is to store [T] of the source particle. *)
Definition good_transform (NAR nrr nri : nat)
    (transform : Z → ParticleTile → ParticleTile → nat → nat → ParticleTile)
    (T : SuperParticle → SuperParticle) : Prop :=
  ∃ R : Z → SuperParticle → SuperParticle → SuperParticle,
    (∀ idx, slot_writer (transform idx) (R idx))
    ∧ ∀ sp dp, sp_schema NAR nrr nri sp → sp_schema NAR nrr (S nri) dp →
               R (Z.of_nat nri) sp dp = T sp.

(** What is stored for a particle matched at the embedded boundary on
    level [lev], grid [index.1]. *)
Definition eb_stored (wx : WarpX) (distance_to_eb : list MultiFab)
    (lev : nat) (index : nat * nat) (sp : SuperParticle) : SuperParticle :=
  move_to_intersection wx (getdt wx lev) ((distance_to_eb !!! lev) index.1)
    (InvCellSizeArray (Geom wx lev)) (ProbLoArray (Geom wx 0))
    (stamp (getistep wx 0) sp).

(** What [gatherParticles] appends to the tile (lev, index) of the buffer
    of boundary [b] and species [i]. *)
Definition face_appended (wx : WarpX) (mypc : list ParticleContainer) (b i lev : nat)
    (index : nat * nat) : list SuperParticle :=
  match GetParticles (mypc !!! i) lev !! index with
  | Some ptile =>
      (λ ip, stamp (getistep wx 0) (getSuperParticle ptile ip))
        <$> matched (domain_predicate (ProbLoArray (Geom wx 0)) (ProbHiArray (Geom wx 0))
                       (b / 2) (b mod 2) lev index) ptile
  | None => []
  end.

Definition eb_appended (wx : WarpX) (mypc : list ParticleContainer)
    (distance_to_eb : list MultiFab) (i lev : nat) (index : nat * nat)
    : list SuperParticle :=
  match GetParticles (mypc !!! i) lev !! index with
  | Some ptile =>
      (λ ip, eb_stored wx distance_to_eb lev index (getSuperParticle ptile ip))
        <$> matched (eb_predicate wx distance_to_eb (ProbLoArray (Geom wx 0)) lev index) ptile
  | None => []
  end.

(** The body shared by the loops of [redistribute] and [clearParticles]:
    a defined buffer is replaced by [F] of itself. *)
Definition update_slot (F : ParticleContainer → ParticleContainer) (b i : nat)
    (this : ParticleBoundaryBuffer) : ParticleBoundaryBuffer :=
  let species_buffer := col_get (m_particle_containers this) b i in
  if isDefined species_buffer
  then set_containers (λ c, col_set c b i (F species_buffer)) this
  else this.

Definition if_defined (F : ParticleContainer → ParticleContainer) (c : ParticleContainer)
    : ParticleContainer :=
  if isDefined c then F c else c.

(** [a < b] on reals is decidable. *)
#[global] Instance Qlt_dec (a b : Q) : Decision (a < b)%Q :=
  match Qlt_le_dec a b with
  | left H => left H
  | right H => right (Qle_not_lt _ _ H)
  end.

(** An executable form of [mypc_wf]. *)
Definition tile_wf_check (NAR nrr nri : nat) (t : ParticleTile) : bool :=
  bool_decide (length (m_rdata t) = NAR)
  && bool_decide (length (m_runtime_rdata t) = nrr)
  && bool_decide (length (m_runtime_idata t) = nri)
  && forallb (λ c, bool_decide (length c = numParticles t)) (m_rdata t)
  && forallb (λ c, bool_decide (length c = numParticles t)) (m_runtime_rdata t)
  && forallb (λ c, bool_decide (length c = numParticles t)) (m_runtime_idata t).

Definition container_wf_check (NAR : nat) (c : ParticleContainer) : bool :=
  forallb (λ plev : gmap (nat * nat) ParticleTile,
             forallb (λ kt, tile_wf_check NAR (NumRuntimeRealComps c)
                              (NumRuntimeIntComps_pc c) kt.2)
                     (map_to_list plev))
          (m_particles c).

Definition mypc_wf_check (wx : WarpX) (mypc : list ParticleContainer) : bool :=
  forallb (container_wf_check (PIdx_nattribs wx)) mypc.


(** [a <= b] on reals is decidable. *)
#[global] Instance Qle_dec (a b : Q) : Decision (a <= b)%Q :=
  match Qlt_le_dec b a with
  | left H => right (Qlt_not_le _ _ H)
  | right H => left H
  end.

(** The value that the constructor reads for boundary [b] and species
    [i]: the entry "<species>.save_particles_at_<boundary>" of the input
    table, 0 when it is absent. *)
Definition configured (wx : WarpX) (b i : nat) : Z :=
  default 0%Z (ParmParse_query wx (getSpeciesNames wx !!! i)
                 ("save_particles_at_" +:+ (boundary_names wx !!! b))).

(** The signed distance sampled at the position of particle [ip], as the
    predicate of the embedded boundary computes it. *)
Definition sampled_distance (wx : WarpX) (distance_to_eb : list MultiFab) (lev : nat)
    (index : nat * nat) (ptile : ParticleTile) (ip : nat) : Real :=
  let '(xp, yp, zp) := GetParticlePosition wx ptile ip in
  doGatherScalarFieldNodal wx xp yp zp ((distance_to_eb !!! lev) index.1)
    (InvCellSizeArray (Geom wx lev)) (ProbLoArray (Geom wx 0)).

(** Sums over the tiles of one level: [wsum w m] adds [w index tile] over
    the tiles of [m]; [wat w m index] is the summand of [index], 0 when
    there is no such tile. *)
Definition wsum `{Countable K} {A} (w : K → A → nat) (m : gmap K A) : nat :=
  sum_list ((λ kv, w kv.1 kv.2) <$> map_to_list m).

Definition wat `{Countable K} {A} (w : K → A → nat) (m : gmap K A) (k : K) : nat :=
  from_option (w k) 0 (m !! k).

(** The particles of level [lev] of a container, and the particles that
    a predicate matches in a species container. *)
Definition level_total (c : ParticleContainer) (lev : nat) : nat :=
  wsum (λ _ t, numParticles t) (GetParticles c lev).

Definition num_matched (predicate : nat → nat * nat → ParticleTile → nat → Z)
    (pc : ParticleContainer) : nat :=
  sum_list ((λ lev, wsum (λ index ptile, length (matched (predicate lev index) ptile))
                      (GetParticles pc lev)) <$> seq 0 (numLevels pc)).

(** The count that [printNumParticles] reports for boundary [b] and
    species [i], and its two kinds of lines. *)
Definition reported (this : ParticleBoundaryBuffer) (b i : nat) : Z :=
  if isDefined (slot this b i) then TotalNumberOfParticles (slot this b i) false false
  else 0%Z.

Definition face_line (this : ParticleBoundaryBuffer) (b i : nat) : string :=
  "Species " +:+ (m_species_names this !!! i) +:+ " has "
  +:+ pretty (reported this b i) +:+ " particles in the boundary buffer "
  +:+ "for side " +:+ pretty (b mod 2) +:+ " of dim " +:+ pretty (b / 2).

Definition eb_line (this : ParticleBoundaryBuffer) (b i : nat) : string :=
  "Species " +:+ (m_species_names this !!! i) +:+ " has "
  +:+ pretty (reported this b i) +:+ " particles in the EB boundary buffer".

(** ** A small simulation used to exercise the statements *)

Module Example.

(** Bisection on exact rationals with a fixed number of halvings. *)
Fixpoint bisect_fuel (n : nat) (lo hi : Q) (f : Q → Q) : Q :=
  let mi := ((lo + hi) / 2)%Q in
  match n with
  | 0 => mi
  | S n =>
      if Qeq_bool (f mi) 0 then mi
      else if Real_lt (f mi * f lo)%Q 0 then bisect_fuel n lo mi f
      else bisect_fuel n mi hi f
  end.

(** Three dimensions with an embedded boundary; y is periodic; the
    boundary is the plane x = 8 (the signed distance is 8 - x); the
    simulation is at step 7.  Species "electrons" is buffered at xlo, ylo
    and at the embedded boundary, species "ions" nowhere. *)
Definition wx : WarpX :=
  mkWarpX DIM_3D true 4 5 6 7 7
    (λ _, mkGeom [0; 0; 0]%Q [10; 10; 10]%Q (λ d, bool_decide (d = 1)) [1; 1; 1]%Q)
    (λ _, 7%Z) (λ _, 1%Q)
    (λ name, if bool_decide (name = "ions"%string) then 1 else 0)
    ["electrons"; "ions"]%string
    (λ species key,
       if bool_decide (species = "electrons"%string)
          && (bool_decide (key = "save_particles_at_xlo"%string)
              || bool_decide (key = "save_particles_at_ylo"%string)
              || bool_decide (key = "save_particles_at_eb"%string))
       then Some 1%Z else None)
    (λ '(x, y, z) '(ux, uy, uz) dt, (x + ux * dt, y + uy * dt, z + uz * dt)%Q)
    (λ x y z plo dxi, (0%Z, 0%Z, 0%Z, [[x]; [y]; [z]]))
    (λ i j k W phiarr,
       (phiarr 0%Z 0%Z 0%Z + (phiarr 1%Z 0%Z 0%Z - phiarr 0%Z 0%Z 0%Z) * col_get W 0 0)%Q)
    (λ x y z phiarr dxi plo,
       (phiarr 0%Z 0%Z 0%Z + (phiarr 1%Z 0%Z 0%Z - phiarr 0%Z 0%Z 0%Z) * x)%Q)
    (bisect_fuel 20)
    (λ p, (pos p 0, pos p 1, pos p 2))
    (λ t i, (col_get (m_rdata t) 0 i, col_get (m_rdata t) 1 i, col_get (m_rdata t) 2 i))
    (λ x, x) (λ y x, 0%Q).

Definition distance_to_eb : list MultiFab := [λ _ i _ _, (8 - inject_Z i)%Q].

(** Four electrons in one tile: ids 1, 2, 3 and -1.  The first is below
    xlo, the second behind the embedded boundary, the third below ylo
    (periodic), the fourth below xlo with a negative id. *)
Definition electrons_tile : ParticleTile :=
  mkTile [9223372036871553024; 9223372036888330240; 9223372036905107456; 16777216]%Z
    [[-1 # 2; 17 # 2; 5; -2]; [5; 5; -1; 5]; [5; 5; 5; 5]; [1; 1; 1; 1];
     [-1; 1; 0; -1]; [0; 0; -1; 0]; [0; 0; 0; 0]]%Q
    []
    [[3; 2; 1; 0]]%Z.

Definition electrons : ParticleContainer :=
  mkPC true 0 ["ionizationLevel"%string] [ {[ (0, 0) := electrons_tile ]} ].

Definition ions : ParticleContainer := mkPC true 0 [] [ ∅ ].

Definition mypc : list ParticleContainer := [electrons; ions].

(** The same species with no particle at all. *)
Definition mypc_empty : list ParticleContainer :=
  [mkPC true 0 ["ionizationLevel"%string] [ ∅ ]; ions].






(** The same simulation in a fully periodic box without embedded
    boundary. *)
Definition periodic_wx : WarpX :=
  mkWarpX (WARPX_DIM wx) false (PIdx_ux wx) (PIdx_uy wx) (PIdx_uz wx)
    (PIdx_theta wx) (PIdx_nattribs wx)
    (λ _, mkGeom [0; 0; 0]%Q [10; 10; 10]%Q (λ _, true) [1; 1; 1]%Q)
    (getistep wx) (getdt wx)
    (getSpeciesID wx) (queryarr_species_names wx) (ParmParse_query wx)
    (UpdatePosition wx) (compute_weights_nodal wx) (interp_field_nodal wx)
    (doGatherScalarFieldNodal wx) (bisect wx) (get_particle_position wx)
    (GetParticlePosition wx) (std_sqrt wx) (std_atan2 wx).

(** A two-dimensional (x, z) build of the same simulation: the real
    components are x, z, w, ux, uy, uz, and the y coordinate handed to
    the position update is 0. *)
Definition wx_xz : WarpX :=
  mkWarpX DIM_XZ true 3 4 5 6 6
    (λ _, mkGeom [0; 0]%Q [10; 10]%Q (λ _, false) [1; 1]%Q)
    (getistep wx) (getdt wx)
    (getSpeciesID wx) (queryarr_species_names wx) (ParmParse_query wx)
    (UpdatePosition wx)
    (λ x y z plo dxi, (0%Z, 0%Z, 0%Z, [[x]; [z]]))
    (interp_field_nodal wx) (doGatherScalarFieldNodal wx) (bisect wx)
    (λ p, (pos p 0, 0%Q, pos p 1))
    (λ t i, (col_get (m_rdata t) 0 i, 0%Q, col_get (m_rdata t) 1 i))
    (std_sqrt wx) (std_atan2 wx).

(** One electron behind the embedded boundary, moving in x and y. *)
Definition mypc_xz : list ParticleContainer :=
  [mkPC true 0 ["ionizationLevel"%string]
     [ {[ (0, 0) := mkTile [9223372036871553024]%Z
                      [[17 # 2]; [5]; [1]; [1]; [1]; [0]]%Q [] [[3]]%Z ]} ];
   ions].




Definition s0 : ParticleBoundaryBuffer := ParticleBoundaryBuffer_ctor wx.
Definition s1 : ParticleBoundaryBuffer := (gatherParticles s0 wx mypc distance_to_eb).1.

End Example.

(** * Properties *)

Lemma Real_lt_spec a b : Real_lt a b = true ↔ (a < b)%Q.
Proof.
  unfold Real_lt. rewrite negb_true_iff.
  destruct (Qle_bool b a) eqn:E.
  - apply Qle_bool_iff in E. split; [done|]. intros H. by apply Qlt_not_le in H.
  - split; [|done]. intros _. apply Qnot_le_lt. intros H.
    apply Qle_bool_iff in H. congruence.
Qed.

Lemma Real_ge_spec a b : Real_ge a b = true ↔ (b <= a)%Q.
Proof. unfold Real_ge. apply Qle_bool_iff. Qed.

Lemma for_loop_0 {S} (body : nat → S → S) s : for_loop 0 body s = s.
Proof. done. Qed.

Lemma for_loop_S {S} n (body : nat → S → S) s :
  for_loop (Datatypes.S n) body s = body n (for_loop n body s).
Proof. unfold for_loop. by rewrite seq_S, fold_left_app. Qed.

Lemma IsOutsideDomainBoundary_cases (m_plo m_phi : list Real) (m_idim : nat)
    (m_iside : Z) (src : ParticleTile) (ip : nat) :
  let x := pos (getSuperParticle src ip) m_idim in
  (IsOutsideDomainBoundary m_plo m_phi m_idim m_iside src ip = 1%Z
   ∨ IsOutsideDomainBoundary m_plo m_phi m_idim m_iside src ip = 0%Z)
  ∧ (IsOutsideDomainBoundary m_plo m_phi m_idim m_iside src ip ≠ 0%Z ↔
       (m_iside = 0%Z ∧ (x < m_plo !!! m_idim)%Q)
       ∨ (m_iside ≠ 0%Z ∧ (m_phi !!! m_idim <= x)%Q)).
Proof.
  intros x. unfold IsOutsideDomainBoundary. fold x.
  case_bool_decide as Hs.
  - destruct (Real_lt x (m_plo !!! m_idim)) eqn:E.
    + apply Real_lt_spec in E. split; [by left|]. split; [by left|done].
    + split; [by right|]. split; [done|].
      intros [[_ H]|[H _]]; [|done].
      apply Real_lt_spec in H. congruence.
  - destruct (Real_ge x (m_phi !!! m_idim)) eqn:E.
    + apply Real_ge_spec in E. split; [by left|]. split; [by right|done].
    + split; [by right|]. split; [done|].
      intros [[H _]|[_ H]]; [done|].
      apply Real_ge_spec in H. congruence.
Qed.

(** ** Arrays and rows *)

Lemma for_loop_ext {S} n (f g : nat → S → S) s :
  (∀ j s, j < n → f j s = g j s) → for_loop n f s = for_loop n g s.
Proof.
  induction n as [|n IH]; intros Hfg; [done|].
  rewrite !for_loop_S, IH by (intros; apply Hfg; lia). apply Hfg. lia.
Qed.

Lemma for_loop_ind {S} (P : nat → S → Prop) n (f : nat → S → S) s :
  P 0 s → (∀ j s, j < n → P j s → P (Datatypes.S j) (f j s)) → P n (for_loop n f s).
Proof.
  intros H0 HS. induction n as [|n IH]; [done|].
  rewrite for_loop_S. apply HS; [lia|]. apply IH. intros; apply HS; [lia|done].
Qed.

Lemma col_get_row {A} `{Inhabited A} (cols : list (list A)) j i :
  col_get cols j i = row cols i !!! j.
Proof.
  unfold col_get, row. rewrite !list_lookup_total_alt, list_lookup_fmap.
  destruct (cols !! j) as [c|]; simpl; [|done].
  by rewrite list_lookup_total_alt.
Qed.

Lemma length_col_set {A} (cols : list (list A)) j i v :
  length (col_set cols j i v) = length cols.
Proof. apply length_alter. Qed.

Lemma cols_ok_col_set {A} n (cols : list (list A)) j i v :
  cols_ok n cols → cols_ok n (col_set cols j i v).
Proof.
  intros Hok. apply Forall_alter; [done|].
  intros c _ Hc. by rewrite length_insert.
Qed.

Lemma length_row {A} `{Inhabited A} (cols : list (list A)) k :
  length (row cols k) = length cols.
Proof. apply length_fmap. Qed.

Lemma row_col_set {A} `{Inhabited A} n (cols : list (list A)) j di v k :
  cols_ok n cols → di < n →
  row (col_set cols j di v) k
  = if decide (k = di) then <[j := v]> (row cols k) else row cols k.
Proof.
  intros Hok Hdi. apply list_eq. intros j'. unfold row, col_set.
  rewrite list_lookup_fmap.
  destruct (decide (j = j')) as [<-|Hj].
  - rewrite list_lookup_alter_eq.
    destruct (cols !! j) as [c|] eqn:Hc; simpl.
    + assert (length c = n) as Hlen
        by exact (Forall_lookup_1 (λ c, length c = n) cols j c Hok Hc).
      destruct (decide (k = di)) as [->|Hk].
      * rewrite list_lookup_insert_eq by (rewrite length_fmap; by eapply lookup_lt_Some).
        rewrite list_lookup_total_insert_eq by lia. done.
      * rewrite list_lookup_total_insert_ne by done.
        by rewrite list_lookup_fmap, Hc.
    + destruct (decide (k = di)).
      * rewrite list_insert_ge; [by rewrite list_lookup_fmap, Hc|].
        rewrite length_fmap. by apply lookup_ge_None.
      * by rewrite list_lookup_fmap, Hc.
  - rewrite list_lookup_alter_ne by done.
    destruct (decide (k = di)).
    + rewrite list_lookup_insert_ne by done. by rewrite list_lookup_fmap.
    + by rewrite list_lookup_fmap.
Qed.

Lemma copy_cols_ok {A} `{Inhabited A} n m (cols : list (list A)) di (g : nat → A) :
  cols_ok n cols →
  cols_ok n (for_loop m (λ j d, col_set d j di (g j)) cols)
  ∧ length (for_loop m (λ j d, col_set d j di (g j)) cols) = length cols.
Proof.
  intros Hok.
  apply (for_loop_ind (λ _ d, cols_ok n d ∧ length d = length cols)); [done|].
  intros j d _ [Hd Hl]. split; [by apply cols_ok_col_set|].
  by rewrite length_col_set.
Qed.

Lemma row_copy_cols {A} `{Inhabited A} n m (cols : list (list A)) di (g : nat → A) k :
  cols_ok n cols → di < n →
  row (for_loop m (λ j d, col_set d j di (g j)) cols) k
  = if decide (k = di) then for_loop m (λ j r, <[j := g j]> r) (row cols k) else row cols k.
Proof.
  intros Hok Hdi. induction m as [|m IH].
  - rewrite !for_loop_0. by destruct (decide _).
  - rewrite !for_loop_S.
    rewrite (row_col_set n) by (done || by apply copy_cols_ok).
    rewrite IH. by destruct (decide _).
Qed.

Lemma copy_row_take_drop {A} `{Inhabited A} m (s d : list A) :
  m ≤ length s → m ≤ length d → copy_row m s d = take m s ++ drop m d.
Proof.
  unfold copy_row. induction m as [|m IH]; intros Hs Hd.
  - by rewrite for_loop_0, take_0, drop_0.
  - rewrite for_loop_S, IH by lia.
    destruct (lookup_lt_is_Some_2 s m) as [x Hx]; [lia|].
    destruct (lookup_lt_is_Some_2 d m) as [y Hy]; [lia|].
    rewrite (list_lookup_total_correct _ _ _ Hx).
    rewrite (take_S_r _ _ _ Hx), (drop_S _ _ _ Hy).
    assert (length (take m s) = m) as Hlen by (rewrite length_take; lia).
    rewrite <-(Nat.add_0_r m) at 1. rewrite <-Hlen at 1.
    rewrite insert_app_r. simpl. by rewrite <-app_assoc.
Qed.

Lemma copy_row_all {A} `{Inhabited A} (s d : list A) :
  length d = length s → copy_row (length s) s d = s.
Proof.
  intros Hd. rewrite copy_row_take_drop by lia.
  rewrite take_ge, drop_ge by lia. apply app_nil_r.
Qed.

Lemma timestamp_row_last n m_step (s d : list Z) :
  length s = n → length d = S n →
  timestamp_row (Z.of_nat n) m_step (copy_row n s d) = s ++ [m_step].
Proof.
  intros Hs Hd. unfold timestamp_row.
  rewrite bool_decide_true by lia. rewrite Nat2Z.id.
  rewrite copy_row_take_drop by lia. rewrite take_ge by lia.
  destruct (lookup_lt_is_Some_2 d n) as [y Hy]; [lia|].
  rewrite (drop_S _ _ _ Hy), drop_ge by lia.
  rewrite <-(Nat.add_0_r n) at 1. rewrite <-Hs at 1.
  by rewrite insert_app_r.
Qed.

(** With the arrays of the destination laid out for the source plus one
    integer array, the slot ends up holding the stamped source particle. *)
Lemma CopyAndTimestamp_row_stamp NAR m_step (sp dp : SuperParticle) :
  length (sp_rdata sp) = NAR → length (sp_rdata dp) = NAR →
  length (sp_runtime_rdata dp) = length (sp_runtime_rdata sp) →
  length (sp_runtime_idata dp) = S (length (sp_runtime_idata sp)) →
  CopyAndTimestamp_row NAR (Z.of_nat (length (sp_runtime_idata sp))) m_step sp dp
  = stamp m_step sp.
Proof.
  intros H1 H2 H3 H4. unfold CopyAndTimestamp_row, stamp. f_equal.
  - rewrite <-H1. apply copy_row_all. lia.
  - by apply copy_row_all.
  - by apply timestamp_row_last.
Qed.

(** ** The functors, slot by slot *)

Lemma for_loop_set_rdata n (F : nat → list (list Real) → list (list Real)) t :
  for_loop n (λ j, set_rdata (F j)) t = set_rdata (for_loop n F) t.
Proof.
  induction n as [|n IH]; [by destruct t|].
  rewrite !for_loop_S, IH. unfold set_rdata; simpl. by rewrite for_loop_S.
Qed.

Lemma for_loop_set_runtime_rdata n (F : nat → list (list Real) → list (list Real)) t :
  for_loop n (λ j, set_runtime_rdata (F j)) t = set_runtime_rdata (for_loop n F) t.
Proof.
  induction n as [|n IH]; [by destruct t|].
  rewrite !for_loop_S, IH. unfold set_runtime_rdata; simpl. by rewrite for_loop_S.
Qed.

Lemma for_loop_set_runtime_idata n (F : nat → list (list Z) → list (list Z)) t :
  for_loop n (λ j, set_runtime_idata (F j)) t = set_runtime_idata (for_loop n F) t.
Proof.
  induction n as [|n IH]; [by destruct t|].
  rewrite !for_loop_S, IH. unfold set_runtime_idata; simpl. by rewrite for_loop_S.
Qed.

Lemma copy_row_cols {A} `{Inhabited A} m (src : list (list A)) si (r : list A) :
  for_loop m (λ j r, <[j := col_get src j si]> r) r = copy_row m (row src si) r.
Proof. apply for_loop_ext. intros j r' _. by rewrite col_get_row. Qed.

Lemma CopyAndTimestamp_tile NAR m_index m_step dst src src_i dst_i :
  CopyAndTimestamp NAR m_index m_step dst src src_i dst_i
  = mkTile (<[dst_i := m_idcpu src !!! src_i]> (m_idcpu dst))
      (for_loop NAR (λ j d, col_set d j dst_i (col_get (m_rdata src) j src_i)) (m_rdata dst))
      (for_loop (m_num_runtime_real src)
         (λ j d, col_set d j dst_i (col_get (m_runtime_rdata src) j src_i)) (m_runtime_rdata dst))
      (let d := for_loop (m_num_runtime_int src)
                  (λ j d, col_set d j dst_i (col_get (m_runtime_idata src) j src_i))
                  (m_runtime_idata dst) in
       if bool_decide (0 ≤ m_index)%Z then col_set d (Z.to_nat m_index) dst_i m_step else d).
Proof.
  unfold CopyAndTimestamp.
  rewrite for_loop_set_rdata, for_loop_set_runtime_rdata, for_loop_set_runtime_idata.
  destruct dst; simpl. by case_bool_decide.
Qed.

Lemma CopyAndTimestamp_slot NAR m_index m_step :
  slot_writer (CopyAndTimestamp NAR m_index m_step) (CopyAndTimestamp_row NAR m_index m_step).
Proof.
  intros dst src si di (Hr & Hrr & Hri) Hdi. unfold slot_update.
  rewrite CopyAndTimestamp_tile. unfold numParticles in *.
  set (n := length (m_idcpu dst)) in *.
  pose proof (copy_cols_ok n NAR (m_rdata dst) di
                (λ j, col_get (m_rdata src) j si) Hr) as [Hr1 Hr2].
  pose proof (copy_cols_ok n (m_num_runtime_real src) (m_runtime_rdata dst) di
                (λ j, col_get (m_runtime_rdata src) j si) Hrr) as [Hrr1 Hrr2].
  pose proof (copy_cols_ok n (m_num_runtime_int src) (m_runtime_idata dst) di
                (λ j, col_get (m_runtime_idata src) j si) Hri) as [Hri1 Hri2].
  split; [by simpl; rewrite length_insert|].
  split; [|split].
  - unfold tile_ok, numParticles; simpl. rewrite length_insert. fold n.
    split; [done|]. split; [done|].
    case_bool_decide; [by apply cols_ok_col_set|done].
  - intros NAR' nrr nri (H1 & H2 & H3). unfold tile_schema; simpl.
    split; [congruence|]. split; [congruence|].
    case_bool_decide; [rewrite length_col_set|]; congruence.
  - intros k. unfold getSuperParticle, CopyAndTimestamp_row; simpl.
    fold (row (m_rdata src) si) (row (m_runtime_rdata src) si) (row (m_runtime_idata src) si).
    fold (row (m_rdata dst) di) (row (m_runtime_rdata dst) di) (row (m_runtime_idata dst) di).
    fold (row (m_rdata dst) k) (row (m_runtime_rdata dst) k) (row (m_runtime_idata dst) k).
    match goal with |- mkSP _ (?f <$> ?c1) (?f <$> ?c2) (?g <$> ?c3) = _ =>
      change (f <$> c1) with (row c1 k); change (f <$> c2) with (row c2 k);
      change (g <$> c3) with (row c3 k) end.
    rewrite !length_row.
    assert (row (if bool_decide (0 ≤ m_index)%Z
                 then col_set (for_loop (m_num_runtime_int src)
                        (λ j d, col_set d j di (col_get (m_runtime_idata src) j si))
                        (m_runtime_idata dst)) (Z.to_nat m_index) di m_step
                 else for_loop (m_num_runtime_int src)
                        (λ j d, col_set d j di (col_get (m_runtime_idata src) j si))
                        (m_runtime_idata dst)) k
            = if decide (k = di)
              then timestamp_row m_index m_step
                     (copy_row (length (m_runtime_idata src)) (row (m_runtime_idata src) si)
                        (row (m_runtime_idata dst) di))
              else row (m_runtime_idata dst) k) as ->.
    { unfold timestamp_row. case_bool_decide.
      - rewrite (row_col_set n) by done.
        rewrite (row_copy_cols n) by done.
        destruct (decide (k = di)) as [->|]; [|done].
        by rewrite copy_row_cols.
      - rewrite (row_copy_cols n) by done.
        destruct (decide (k = di)) as [->|]; [|done].
        by rewrite copy_row_cols. }
    rewrite !(row_copy_cols n) by done.
    destruct (decide (k = di)) as [->|Hk].
    + rewrite list_lookup_total_insert_eq by done.
      by rewrite !copy_row_cols.
    + by rewrite list_lookup_total_insert_ne.
Qed.

Lemma slot_update_trans di h1 h2 d d1 d2 :
  slot_update di h1 d d1 → slot_update di h2 d1 d2 → slot_update di (h2 ∘ h1) d d2.
Proof.
  intros (Hn1 & Hok1 & Hs1 & Hg1) (Hn2 & Hok2 & Hs2 & Hg2).
  split; [congruence|]. split; [done|]. split; [by eauto|].
  intros k. rewrite Hg2, !Hg1. destruct (decide (k = di)); [|done].
  by rewrite decide_True.
Qed.

Lemma slot_update_set_rdata d j di v :
  tile_ok d → di < numParticles d →
  slot_update di (sp_set_rdata (<[j := v]>)) d (set_rdata (λ c, col_set c j di v) d).
Proof.
  intros (Hr & Hrr & Hri) Hdi. unfold slot_update, numParticles in *.
  split; [done|]. split; [|split].
  - split; [|done]. simpl. by apply cols_ok_col_set.
  - intros NAR nrr nri (H1 & H2 & H3). split; [|done].
    simpl. by rewrite length_col_set.
  - intros k. unfold getSuperParticle, sp_set_rdata; simpl.
    change ((λ c : list Q, c !!! k) <$> col_set (m_rdata d) j di v)
      with (row (col_set (m_rdata d) j di v) k).
    rewrite (row_col_set (length (m_idcpu d))) by done.
    by destruct (decide (k = di)) as [->|].
Qed.

Lemma aos_assign_slot SPACEDIM :
  slot_writer (λ dst src src_i dst_i, aos_assign SPACEDIM dst dst_i src src_i)
              (aos_assign_row SPACEDIM).
Proof.
  intros dst src si di (Hr & Hrr & Hri) Hdi. unfold slot_update, aos_assign.
  rewrite for_loop_set_rdata. unfold numParticles in *.
  set (n := length (m_idcpu dst)) in *.
  pose proof (copy_cols_ok n SPACEDIM (m_rdata dst) di
                (λ j, col_get (m_rdata src) j si) Hr) as [Hr1 Hr2].
  split; [by simpl; rewrite length_insert|]. split; [|split].
  - unfold tile_ok, numParticles; simpl. rewrite length_insert. by fold n.
  - intros NAR nrr nri (H1 & H2 & H3). unfold tile_schema; simpl.
    split; [congruence|done].
  - intros k. unfold getSuperParticle, aos_assign_row; simpl.
    change ((λ c : list Q, c !!! k) <$> ?c) with (row c k).
    rewrite (row_copy_cols n) by done.
    destruct (decide (k = di)) as [->|Hk].
    + rewrite list_lookup_total_insert_eq by done. by rewrite copy_row_cols.
    + by rewrite list_lookup_total_insert_ne.
Qed.

Lemma set_position_tile_slot wx xyz d di :
  tile_ok d → di < numParticles d →
  slot_update di (sp_set_rdata (set_position_row wx xyz)) d (set_position_tile wx xyz d di).
Proof.
  intros Hok Hdi. destruct xyz as [[x y] z].
  unfold set_position_tile, set_position_row, aos_set_pos.
  destruct (WARPX_DIM wx).
  - by apply slot_update_set_rdata.
  - pose proof (slot_update_set_rdata d 0 di x Hok Hdi) as H1.
    pose proof H1 as (Hn1 & Hok1 & _).
    pose proof (slot_update_set_rdata _ 1 di z Hok1 ltac:(by rewrite Hn1)) as H2.
    exact (slot_update_trans _ _ _ _ _ _ H1 H2).
  - pose proof (slot_update_set_rdata d 0 di
                  (std_sqrt wx (x * x + y * y)%Q) Hok Hdi) as H1.
    pose proof H1 as (Hn1 & Hok1 & _).
    pose proof (slot_update_set_rdata _ (PIdx_theta wx) di (std_atan2 wx y x)
                  Hok1 ltac:(by rewrite Hn1)) as H2.
    pose proof H2 as (Hn2 & Hok2 & _).
    pose proof (slot_update_set_rdata _ 1 di z Hok2 ltac:(by rewrite Hn2, Hn1)) as H3.
    exact (slot_update_trans _ _ _ _ _ _ (slot_update_trans _ _ _ _ _ _ H1 H2) H3).
  - pose proof (slot_update_set_rdata d 0 di x Hok Hdi) as H1.
    pose proof H1 as (Hn1 & Hok1 & _).
    pose proof (slot_update_set_rdata _ 1 di y Hok1 ltac:(by rewrite Hn1)) as H2.
    pose proof H2 as (Hn2 & Hok2 & _).
    pose proof (slot_update_set_rdata _ 2 di z Hok2 ltac:(by rewrite Hn2, Hn1)) as H3.
    exact (slot_update_trans _ _ _ _ _ _ (slot_update_trans _ _ _ _ _ _ H1 H2) H3).
Qed.

Lemma FindBoundaryIntersection_eq wx m_index m_step m_dt phiarr dxi plo dst src si di :
  let d1 := CopyAndTimestamp (PIdx_nattribs wx) m_index m_step
              (aos_assign (AMREX_SPACEDIM (WARPX_DIM wx)) dst di src si) src si di in
  FindBoundaryIntersection wx m_index m_step m_dt phiarr dxi plo dst src si di
  = set_position_tile wx
      (intersection wx m_dt phiarr dxi plo (getSuperParticle d1 di)) d1 di.
Proof.
  intros d1.
  assert (set_idcpu (<[di := m_idcpu src !!! si]>)
            (aos_assign (AMREX_SPACEDIM (WARPX_DIM wx)) dst di src si)
          = aos_assign (AMREX_SPACEDIM (WARPX_DIM wx)) dst di src si) as Hid.
  { unfold aos_assign. rewrite for_loop_set_rdata. unfold set_idcpu, set_rdata; simpl.
    by rewrite list_insert_insert_eq. }
  unfold FindBoundaryIntersection. cbv zeta.
  assert (d1 = (if bool_decide (0 ≤ m_index)%Z
     then set_runtime_idata (λ d, col_set d (Z.to_nat m_index) di m_step)
            (for_loop (m_num_runtime_int src) (λ j,
               set_runtime_idata (λ d, col_set d j di (col_get (m_runtime_idata src) j si)))
             (for_loop (m_num_runtime_real src) (λ j,
               set_runtime_rdata (λ d, col_set d j di (col_get (m_runtime_rdata src) j si)))
              (for_loop (PIdx_nattribs wx) (λ j,
                 set_rdata (λ d, col_set d j di (col_get (m_rdata src) j si)))
                (aos_assign (AMREX_SPACEDIM (WARPX_DIM wx)) dst di src si))))
     else for_loop (m_num_runtime_int src) (λ j,
               set_runtime_idata (λ d, col_set d j di (col_get (m_runtime_idata src) j si)))
             (for_loop (m_num_runtime_real src) (λ j,
               set_runtime_rdata (λ d, col_set d j di (col_get (m_runtime_rdata src) j si)))
              (for_loop (PIdx_nattribs wx) (λ j,
                 set_rdata (λ d, col_set d j di (col_get (m_rdata src) j si)))
                (aos_assign (AMREX_SPACEDIM (WARPX_DIM wx)) dst di src si))))) as <-.
  { unfold d1, CopyAndTimestamp. cbv zeta. rewrite Hid. by case_bool_decide. }
  unfold intersection, dt_fraction_of, momentum, set_position_tile.
  rewrite !col_get_row.
  change (row (m_rdata d1) di) with (sp_rdata (getSuperParticle d1 di)).
  destruct (UpdatePosition wx _ _ _) as [[x y] z].
  by destruct (WARPX_DIM wx).
Qed.

Lemma FindBoundaryIntersection_slot wx m_index m_step m_dt phiarr dxi plo :
  slot_writer (FindBoundaryIntersection wx m_index m_step m_dt phiarr dxi plo)
              (FindBoundaryIntersection_row wx m_index m_step m_dt phiarr dxi plo).
Proof.
  intros dst src si di Hok Hdi.
  rewrite FindBoundaryIntersection_eq. cbv zeta.
  pose proof (aos_assign_slot (AMREX_SPACEDIM (WARPX_DIM wx)) dst src si di Hok Hdi) as H0.
  simpl in H0.
  set (d0 := aos_assign (AMREX_SPACEDIM (WARPX_DIM wx)) dst di src si) in *.
  assert (numParticles d0 = numParticles dst ∧ tile_ok d0) as [Hn0 Hok0]
    by (by destruct H0 as (? & ? & _)).
  pose proof (CopyAndTimestamp_slot (PIdx_nattribs wx) m_index m_step d0 src si di
                Hok0 ltac:(by rewrite Hn0)) as H1.
  set (d1 := CopyAndTimestamp (PIdx_nattribs wx) m_index m_step d0 src si di) in *.
  assert (numParticles d1 = numParticles d0 ∧ tile_ok d1) as [Hn1 Hok1]
    by (by destruct H1 as (? & ? & _)).
  pose proof (slot_update_trans _ _ _ _ _ _ H0 H1) as H01.
  assert (getSuperParticle d1 di
          = CopyAndTimestamp_row (PIdx_nattribs wx) m_index m_step (getSuperParticle src si)
              (aos_assign_row (AMREX_SPACEDIM (WARPX_DIM wx)) (getSuperParticle src si)
                 (getSuperParticle dst di))) as Hp.
  { destruct H01 as (_ & _ & _ & Hg). rewrite Hg. by rewrite decide_True. }
  pose proof (set_position_tile_slot wx
                (intersection wx m_dt phiarr dxi plo (getSuperParticle d1 di)) d1 di
                Hok1 ltac:(by rewrite Hn1, Hn0)) as H2.
  pose proof (slot_update_trans _ _ _ _ _ _ H01 H2) as (Hn & Hk & Hs & Hg).
  split; [done|]. split; [done|]. split; [done|].
  intros k. rewrite Hg. destruct (decide (k = di)); [|done].
  unfold FindBoundaryIntersection_row, move_to_intersection. simpl.
  by rewrite Hp.
Qed.

(** ** Stream compaction *)

Lemma filter_fmap {A B} (f : A → B) (P : B → Prop) `{∀ x, Decision (P x)} (l : list A) :
  filter P (f <$> l) = f <$> filter (λ x, P (f x)) l.
Proof.
  induction l as [|x l IH]; [done|].
  rewrite fmap_cons, !filter_cons.
  destruct (decide (P (f x))); [rewrite fmap_cons|]; by rewrite IH.
Qed.

Lemma exclusive_scan_lookup mask acc i :
  i < length mask →
  exclusive_scan acc mask !!! i = acc + length (filter (λ m, m ≠ 0%Z) (take i mask)).
Proof.
  revert acc i. induction mask as [|m mask IH]; intros acc i Hi; simpl in Hi; [lia|].
  destruct i as [|i]; simpl; [lia|].
  rewrite IH by lia. rewrite filter_cons.
  case_bool_decide; destruct (decide (m ≠ 0%Z)); simpl; try done; lia.
Qed.

Lemma filter_seq_S (P : nat → Prop) `{∀ x, Decision (P x)} n :
  filter P (seq 0 (S n)) = filter P (seq 0 n) ++ (if decide (P n) then [n] else []).
Proof.
  rewrite seq_S, filter_app. f_equal.
Qed.

Lemma filter_seq_mono (P : nat → Prop) `{∀ x, Decision (P x)} i n :
  i ≤ n → length (filter P (seq 0 i)) ≤ length (filter P (seq 0 n)).
Proof.
  intros Hi. replace n with (i + (n - i)) by lia.
  rewrite seq_app, filter_app, length_app. lia.
Qed.

Lemma reduce_sum_count (P : nat → Prop) `{∀ x, Decision (P x)} np :
  reduce_sum np (λ ip, if bool_decide (P ip) then 1 else 0) = length (filter P (seq 0 np)).
Proof.
  unfold reduce_sum. induction np as [|np IH]; [done|].
  rewrite filter_seq_S, length_app, <-IH, seq_S, fmap_app, sum_list_with_app. simpl.
  case_bool_decide; destruct (decide (P np)); simpl; done || lia.
Qed.

Lemma filterAndTransformParticles_spec (I : ParticleTile → Prop)
    (T : SuperParticle → SuperParticle) f p src dst0 dst_start :
  (∀ dst si di, I dst → di < numParticles dst →
     I (f dst src si di)
     ∧ numParticles (f dst src si di) = numParticles dst
     ∧ ∀ k, getSuperParticle (f dst src si di) k
            = if decide (k = di) then T (getSuperParticle src si)
              else getSuperParticle dst k) →
  I dst0 →
  numParticles dst0 = dst_start + length (matched p src) →
  let r := (filterAndTransformParticles dst0 src p f 0 dst_start).1 in
  I r ∧ numParticles r = numParticles dst0
  ∧ ∀ k, getSuperParticle r k
         = if decide (dst_start ≤ k < dst_start + length (matched p src))
           then T (getSuperParticle src (matched p src !!! (k - dst_start)))
           else getSuperParticle dst0 k.
Proof.
  intros Hf HI Hn. unfold filterAndTransformParticles; simpl.
  set (np := numParticles src).
  set (mask := (λ i, p src i) <$> seq 0 np).
  set (M := λ i, filter (λ ip, p src ip ≠ 0%Z) (seq 0 i)).
  change (matched p src) with (M np) in *.
  set (P := λ i d,
    I d ∧ numParticles d = numParticles dst0
    ∧ ∀ k, getSuperParticle d k
           = if decide (dst_start ≤ k < dst_start + length (M i))
             then T (getSuperParticle src (M i !!! (k - dst_start)))
             else getSuperParticle dst0 k).
  lazymatch goal with
  | |- context [for_loop np ?b dst0] => apply (for_loop_ind P np b dst0)
  end; unfold P.
  { split; [done|]. split; [done|]. intros k. simpl.
    rewrite decide_False by lia. done. }
  intros j d Hj (HId & Hnd & Hgd).
  assert (mask !!! j = p src j) as Hmask.
  { unfold mask. rewrite !list_lookup_total_alt, list_lookup_fmap.
    by rewrite lookup_seq_lt. }
  assert (exclusive_scan 0 mask !!! j = length (M j)) as Hoff.
  { rewrite exclusive_scan_lookup by (unfold mask; rewrite length_fmap, length_seq; lia).
    unfold mask. rewrite <-fmap_take, take_seq, Nat.min_l by lia.
    rewrite filter_fmap, length_fmap. done. }
  rewrite Hmask, Hoff.
  assert (M (S j) = M j ++ (if decide (p src j ≠ 0%Z) then [j] else [])) as HM
    by apply filter_seq_S.
  case_bool_decide as Hp.
  - rewrite decide_True in HM by done.
    assert (length (M (S j)) ≤ length (M np)) as Hle by (apply filter_seq_mono; lia).
    rewrite HM, length_app in Hle; simpl in Hle.
    destruct (Hf d j (dst_start + length (M j)) HId ltac:(lia)) as (HI' & Hn' & Hg').
    split; [done|]. split; [congruence|].
    intros k. rewrite Hg', Hgd, HM, length_app. simpl.
    destruct (decide (k = dst_start + length (M j))) as [->|Hk].
    + rewrite decide_True by lia.
      replace (dst_start + length (M j) - dst_start) with (length (M j)) by lia.
      by rewrite list_lookup_total_middle.
    + destruct (decide (dst_start ≤ k < dst_start + length (M j))).
      * rewrite decide_True by lia.
        assert (k - dst_start < length (M j)) as Hlt by lia.
        by rewrite (lookup_total_app_l _ _ _ Hlt).
      * destruct (decide (dst_start ≤ k < dst_start + (length (M j) + 1))); [lia|done].
  - rewrite decide_False in HM by (intros Hq; contradiction). rewrite app_nil_r in HM.
    rewrite HM. done.
Qed.

Lemma fmap_seq_lookup_total {A B} `{Inhabited A} (f : nat → B) (g : A → B) a (l : list A) :
  (∀ i, i < length l → f (a + i) = g (l !!! i)) →
  f <$> seq a (length l) = g <$> l.
Proof.
  intros Hfg. apply list_eq. intros i. rewrite !list_lookup_fmap.
  destruct (decide (i < length l)) as [Hi|Hi].
  - rewrite lookup_seq_lt by done. simpl.
    rewrite (list_lookup_lookup_total_lt l i) by done. simpl. by rewrite Hfg.
  - rewrite lookup_seq_ge by lia. by rewrite (lookup_ge_None_2 l i) by lia.
Qed.

(** ** Resizing *)

Lemma tile_resize_numParticles n t : numParticles (tile_resize n t) = n.
Proof. unfold numParticles; simpl. apply length_resize. Qed.

Lemma tile_resize_ok n t : tile_ok (tile_resize n t).
Proof.
  unfold tile_ok. rewrite tile_resize_numParticles. simpl. unfold cols_ok.
  repeat split; apply Forall_fmap, Forall_forall; intros c _; apply length_resize.
Qed.

Lemma tile_resize_schema NAR nrr nri n t :
  tile_schema NAR nrr nri t → tile_schema NAR nrr nri (tile_resize n t).
Proof. intros (H1 & H2 & H3). unfold tile_schema; simpl. by rewrite !length_fmap. Qed.

Lemma row_resize {A} `{Inhabited A} n m (x : A) (cols : list (list A)) k :
  cols_ok n cols → k < n → n ≤ m → row (resize m x <$> cols) k = row cols k.
Proof.
  intros Hok Hk Hm. unfold row. rewrite <-list_fmap_compose.
  apply Forall_fmap_ext_1. eapply Forall_impl; [exact Hok|].
  intros c Hc. simpl in *. rewrite !list_lookup_total_alt.
  by rewrite lookup_resize by lia.
Qed.

Lemma tile_resize_getSuperParticle m t k :
  tile_ok t → k < numParticles t → numParticles t ≤ m →
  getSuperParticle (tile_resize m t) k = getSuperParticle t k.
Proof.
  intros (Hr & Hrr & Hri) Hk Hm. unfold getSuperParticle; simpl.
  change ((λ c : list Q, c !!! k) <$> ?c) with (row c k).
  change ((λ c : list Z, c !!! k) <$> ?c) with (row c k).
  rewrite !(row_resize (numParticles t)) by done.
  f_equal. rewrite !list_lookup_total_alt. by rewrite lookup_resize by (done || lia).
Qed.

Lemma getSuperParticle_schema NAR nrr nri t k :
  tile_schema NAR nrr nri t → sp_schema NAR nrr nri (getSuperParticle t k).
Proof.
  intros (H1 & H2 & H3). unfold sp_schema, getSuperParticle; simpl.
  by rewrite !length_fmap.
Qed.

(** ** One tile of [gatherParticles] *)

Lemma count_resize_compact_spec NAR nrr nri predicate transform
    (R : Z → SuperParticle → SuperParticle → SuperParticle)
    (T : SuperParticle → SuperParticle) ptile_buffer ptile :
  (∀ idx, slot_writer (transform idx) (R idx)) →
  (∀ sp dp, sp_schema NAR nrr nri sp → sp_schema NAR nrr (S nri) dp →
            R (Z.of_nat nri) sp dp = T sp) →
  tile_wf NAR nrr (S nri) ptile_buffer →
  tile_schema NAR nrr nri ptile →
  let r := count_resize_compact predicate transform ptile_buffer ptile in
  tile_wf NAR nrr (S nri) r
  ∧ particles r
    = particles ptile_buffer
      ++ ((λ ip, T (getSuperParticle ptile ip)) <$> matched predicate ptile).
Proof.
  intros Hslot HRT [Hsch Hok] Hsrc. unfold count_resize_compact. cbv zeta.
  rewrite (reduce_sum_count (λ ip, predicate ptile ip ≠ 0%Z)).
  fold (matched predicate ptile).
  set (a := numParticles ptile_buffer).
  set (c := length (matched predicate ptile)).
  set (dst0 := tile_resize (a + c) ptile_buffer).
  assert (NumRuntimeIntComps dst0 = S nri) as ->.
  { unfold NumRuntimeIntComps, dst0; simpl. rewrite length_fmap. by destruct Hsch as (_ & _ & ?). }
  replace (Z.of_nat (S nri) - 1)%Z with (Z.of_nat nri) by lia.
  set (r := (filterAndTransformParticles dst0 ptile predicate
               (transform (Z.of_nat nri)) 0 a).1).
  assert (tile_wf NAR nrr (S nri) r ∧ numParticles r = numParticles dst0
          ∧ ∀ k, getSuperParticle r k
                 = if decide (a ≤ k < a + c)
                   then T (getSuperParticle ptile (matched predicate ptile !!! (k - a)))
                   else getSuperParticle dst0 k) as (Hwf & Hn & Hg).
  { apply (filterAndTransformParticles_spec (λ d, tile_wf NAR nrr (S nri) d)
             T (transform (Z.of_nat nri)) predicate ptile dst0 a).
    - intros dst si di [Hs Ho] Hdi.
      destruct (Hslot (Z.of_nat nri) dst ptile si di Ho Hdi) as (Hn' & Ho' & Hs' & Hg').
      split; [split; [by apply Hs'|done]|]. split; [done|].
      intros k. rewrite Hg'. destruct (decide (k = di)); [|done].
      apply HRT; by apply getSuperParticle_schema.
    - split; [by apply tile_resize_schema|apply tile_resize_ok].
    - unfold dst0. by rewrite tile_resize_numParticles. }
  split; [done|].
  unfold particles. rewrite Hn. unfold dst0 at 1. rewrite tile_resize_numParticles.
  rewrite seq_app, fmap_app. f_equal.
  - apply list_fmap_ext. intros i k Hk. apply lookup_seq in Hk as [-> Hk]. simpl.
    rewrite Hg. destruct (decide (a ≤ i < a + c)); [lia|].
    unfold dst0. apply tile_resize_getSuperParticle; [done|done|fold a; lia].
  - simpl. unfold c. apply fmap_seq_lookup_total. intros i Hi.
    rewrite Hg. fold c in Hi. destruct (decide (a ≤ a + i < a + c)); [|lia].
    by replace (a + i - a) with i by lia.
Qed.

(** ** The loops over tiles and levels *)

Lemma same_header_refl c : same_header c c.
Proof. by repeat split. Qed.

Lemma same_header_trans c1 c2 c3 :
  same_header c1 c2 → same_header c2 c3 → same_header c1 c3.
Proof. intros (?&?&?&?) (?&?&?&?). repeat split; congruence. Qed.

Lemma GetParticles_alter f lev c lev' :
  GetParticles (set_particles (alter f lev) c) lev'
  = if decide (lev = lev' ∧ lev < numLevels c) then f (GetParticles c lev)
    else GetParticles c lev'.
Proof. unfold GetParticles, set_particles; simpl. apply list_lookup_total_alter. Qed.

Lemma same_header_alter f lev c : same_header c (set_particles (alter f lev) c).
Proof. repeat split. unfold numLevels; simpl. apply length_alter. Qed.

Lemma gather_tile_spec wx predicate transform plevel lev index c :
  let c' := gather_tile wx predicate transform plevel lev index c in
  same_header c c'
  ∧ ∀ lev' index', GetParticles c' lev' !! index'
      = if decide (lev' = lev ∧ index' = index ∧ lev < numLevels c) then
          match plevel !! index with
          | Some ptile =>
              Some (gathered_tile (PIdx_nattribs wx) (NumRuntimeRealComps c)
                      (NumRuntimeIntComps_pc c) (predicate index) (transform index)
                      (GetParticles c lev !! index) ptile)
          | None => GetParticles c lev !! index
          end
        else GetParticles c lev' !! index'.
Proof.
  unfold gather_tile. destruct (plevel !! index) as [ptile|] eqn:Hsrc; cbv zeta.
  2:{ split; [apply same_header_refl|]. intros lev' index'.
      destruct (decide _) as [(-> & -> & _)|]; done. }
  set (t0 := tile_define (PIdx_nattribs wx) (NumRuntimeRealComps c)
               (NumRuntimeIntComps_pc c) (default empty_tile (GetParticles c lev !! index))).
  set (c1 := DefineAndReturnParticleTile (PIdx_nattribs wx) c lev index).
  assert (same_header c c1) as Hh1 by apply same_header_alter.
  assert (∀ lev', GetParticles c1 lev'
            = if decide (lev = lev' ∧ lev < numLevels c)
              then <[index := t0]> (GetParticles c lev) else GetParticles c lev') as Hc1.
  { intros lev'. unfold c1, DefineAndReturnParticleTile. by rewrite GetParticles_alter. }
  unfold gathered_tile. fold t0. cbv zeta.
  case_bool_decide as Hnp.
  - split; [done|]. intros lev' index'. rewrite Hc1.
    destruct (decide (lev = lev' ∧ lev < numLevels c)) as [[<- Hlev]|Hn].
    + destruct (decide (index' = index)) as [->|Hi].
      * rewrite decide_True by done. by rewrite lookup_insert_eq.
      * rewrite decide_False by (intros (_ & ? & _); done). by rewrite lookup_insert_ne.
    + rewrite decide_False; [done|]. intros (-> & _ & ?). by apply Hn.
  - split; [exact (same_header_trans _ _ _ Hh1 (same_header_alter _ _ _))|].
    intros lev' index'. unfold store_tile. rewrite GetParticles_alter.
    assert (numLevels c1 = numLevels c) as -> by (by destruct Hh1 as (_&_&_&?)).
    unfold ParticlesAt. rewrite !Hc1.
    destruct (decide (lev = lev' ∧ lev < numLevels c)) as [[<- Hlev]|Hn].
    + rewrite decide_True by done.
      destruct (decide (index' = index)) as [->|Hi].
      * rewrite decide_True by done. rewrite !lookup_insert_eq. done.
      * rewrite decide_False by (intros (_ & ? & _); done). by rewrite !lookup_insert_ne.
    + rewrite decide_False; [done|]. intros (-> & _ & ?). by apply Hn.
Qed.

Lemma gather_keys_spec wx predicate transform plevel lev keys c :
  NoDup keys →
  let c' := fold_left (λ c index, gather_tile wx predicate transform plevel lev index c)
              keys c in
  same_header c c'
  ∧ ∀ lev' index', GetParticles c' lev' !! index'
      = if decide (lev' = lev ∧ index' ∈ keys ∧ lev < numLevels c) then
          match plevel !! index' with
          | Some ptile =>
              Some (gathered_tile (PIdx_nattribs wx) (NumRuntimeRealComps c)
                      (NumRuntimeIntComps_pc c) (predicate index') (transform index')
                      (GetParticles c lev !! index') ptile)
          | None => GetParticles c lev !! index'
          end
        else GetParticles c lev' !! index'.
Proof.
  revert c. induction keys as [|k keys IH]; intros c Hnd; cbv zeta.
  { split; [apply same_header_refl|]. intros lev' index'.
    rewrite decide_False; [done|]. intros (_ & H & _). by apply elem_of_nil in H. }
  apply NoDup_cons in Hnd as [Hk Hnd]. simpl.
  destruct (gather_tile_spec wx predicate transform plevel lev k c) as [Hh1 Hg1].
  set (c1 := gather_tile wx predicate transform plevel lev k c) in *.
  destruct (IH c1 Hnd) as [Hh2 Hg2].
  split; [exact (same_header_trans _ _ _ Hh1 Hh2)|].
  intros lev' index'. rewrite Hg2.
  destruct Hh1 as (_ & -> & Hi1 & ->). unfold NumRuntimeIntComps_pc. rewrite Hi1.
  rewrite !Hg1.
  destruct (decide (lev' = lev ∧ index' ∈ keys ∧ lev < numLevels c)) as [(-> & Hin & Hlev)|Hn].
  - rewrite (decide_True (P := lev = lev ∧ index' ∈ k :: keys ∧ lev < numLevels c))
      by (split_and!; [done|by apply elem_of_cons; right|done]).
    rewrite (decide_False (P := lev = lev ∧ index' = k ∧ lev < numLevels c)); [done|].
    intros (_ & -> & _). done.
  - destruct (decide (lev' = lev ∧ index' = k ∧ lev < numLevels c)) as [(-> & -> & Hlev)|Hn'].
    + rewrite (decide_True (P := lev = lev ∧ k ∈ k :: keys ∧ lev < numLevels c))
        by (split_and!; [done|by apply elem_of_cons; left|done]).
      done.
    + rewrite (decide_False (P := lev' = lev ∧ index' ∈ k :: keys ∧ lev < numLevels c));
        [done|].
      intros (-> & [->|Hin]%elem_of_cons & Hlev); [by apply Hn'|by apply Hn].
Qed.

Lemma gather_levels_spec wx predicate transform pc c :
  let c' := gather_levels wx predicate transform pc c in
  same_header c c'
  ∧ ∀ lev index, GetParticles c' lev !! index
      = if decide (lev < numLevels pc ∧ lev < numLevels c) then
          match GetParticles pc lev !! index with
          | Some ptile =>
              Some (gathered_tile (PIdx_nattribs wx) (NumRuntimeRealComps c)
                      (NumRuntimeIntComps_pc c) (predicate lev index) (transform lev index)
                      (GetParticles c lev !! index) ptile)
          | None => GetParticles c lev !! index
          end
        else GetParticles c lev !! index.
Proof.
  unfold gather_levels. cbv zeta.
  set (P := λ n c',
    same_header c c'
    ∧ ∀ lev index, GetParticles c' lev !! index
        = if decide (lev < n ∧ lev < numLevels c) then
            match GetParticles pc lev !! index with
            | Some ptile =>
                Some (gathered_tile (PIdx_nattribs wx) (NumRuntimeRealComps c)
                        (NumRuntimeIntComps_pc c) (predicate lev index) (transform lev index)
                        (GetParticles c lev !! index) ptile)
            | None => GetParticles c lev !! index
            end
          else GetParticles c lev !! index).
  lazymatch goal with
  | |- context [for_loop (numLevels pc) ?b c] => apply (for_loop_ind P (numLevels pc) b c)
  end; unfold P.
  { split; [apply same_header_refl|]. intros lev index. by rewrite decide_False by lia. }
  intros n c1 Hn [Hh1 Hg1].
  destruct (gather_keys_spec wx (predicate n) (transform n) (GetParticles pc n) n
              (PIter (GetParticles pc n)) c1 (NoDup_fst_map_to_list _)) as [Hh2 Hg2].
  split; [exact (same_header_trans _ _ _ Hh1 Hh2)|].
  intros lev index. rewrite Hg2.
  destruct Hh1 as (_ & -> & Hi1 & ->). unfold NumRuntimeIntComps_pc. rewrite Hi1.
  rewrite !Hg1.
  destruct (decide (lev = n)) as [->|Hne].
  - rewrite (decide_False (P:=n < n ∧ _)) by lia.
    destruct (decide (n < S n ∧ n < numLevels c)) as [[_ Hlev]|Hx].
    + destruct (GetParticles pc n !! index) as [ptile|] eqn:Hsrc.
      * rewrite decide_True; [done|]. split_and!; [done| |done].
        unfold PIter. apply list_elem_of_fmap. exists (index, ptile).
        split; [done|]. by apply elem_of_map_to_list.
      * by destruct (decide _).
    + rewrite decide_False; [done|]. intros (_ & _ & ?). lia.
  - rewrite decide_False by (intros (? & _); done).
    destruct (decide (lev < n ∧ lev < numLevels c)).
    + by rewrite decide_True by lia.
    + by rewrite decide_False by lia.
Qed.

(** ** The loops over species, sides and dimensions *)

Lemma for_loop_slots {S K V} (get : K → S → V) (I : S → Prop) (owner : K → nat)
    (upd : K → V → V) n (body : nat → S → S) s :
  I s →
  (∀ j s, j < n → I s →
     I (body j s)
     ∧ ∀ k, get k (body j s) = if decide (owner k = j) then upd k (get k s) else get k s) →
  I (for_loop n body s)
  ∧ ∀ k, get k (for_loop n body s)
         = if decide (owner k < n) then upd k (get k s) else get k s.
Proof.
  intros HI Hbody.
  set (P := λ m s', I s' ∧ ∀ k, get k s'
                      = if decide (owner k < m) then upd k (get k s) else get k s).
  apply (for_loop_ind P n body s); unfold P.
  { split; [done|]. intros k. by rewrite decide_False by lia. }
  intros j s' Hj [HI' Hg]. destruct (Hbody j s' Hj HI') as [HI'' Hg'].
  split; [done|]. intros k. rewrite Hg', Hg.
  destruct (decide (owner k = j)) as [Hk|Hk].
  - rewrite decide_False by lia. by rewrite decide_True by lia.
  - destruct (decide (owner k < j)).
    + by rewrite decide_True by lia.
    + by rewrite decide_False by lia.
Qed.

Lemma col_get_col_set {A} `{Inhabited A} (cols : list (list A)) b i v b' i' :
  col_get (col_set cols b i v) b' i'
  = if decide (b' = b ∧ i' = i ∧ i < default 0 ((length <$> cols) !! b)) then v
    else col_get cols b' i'.
Proof.
  unfold col_get, col_set. rewrite list_lookup_total_alter, list_lookup_fmap.
  destruct (decide (b = b' ∧ b < length cols)) as [[<- Hb]|Hn].
  - destruct (lookup_lt_is_Some_2 cols b Hb) as [r Hr].
    rewrite Hr, (list_lookup_total_correct _ _ _ Hr). simpl.
    rewrite list_lookup_total_insert.
    destruct (decide (i = i' ∧ i < length r)) as [[<- Hi]|Hn].
    + by rewrite decide_True.
    + rewrite decide_False; [done|]. intros (_ & -> & ?). by apply Hn.
  - rewrite decide_False; [done|]. intros (-> & -> & Hi). apply Hn. split; [done|].
    destruct (cols !! b) eqn:E; simpl in Hi; [|lia]. by eapply lookup_lt_Some.
Qed.

Lemma shape_col_set {A} (cols : list (list A)) b i v :
  length <$> col_set cols b i v = length <$> cols.
Proof.
  unfold col_set. apply list_eq. intros j.
  rewrite !list_lookup_fmap, list_lookup_alter.
  destruct (decide (b = j)) as [<-|]; [|done].
  destruct (cols !! b); simpl; [|done]. by rewrite length_insert.
Qed.

Lemma same_config_refl this : same_config this this.
Proof. by repeat split. Qed.

Lemma same_config_trans t1 t2 t3 :
  same_config t1 t2 → same_config t2 t3 → same_config t1 t3.
Proof. intros (?&?&?&?&?) (?&?&?&?&?). repeat split; congruence. Qed.

Lemma same_config_flag t1 t2 b i : same_config t1 t2 → flag t2 b i = flag t1 b i.
Proof. intros (H & _). unfold flag. by rewrite H. Qed.

Lemma same_config_in_range t1 t2 b i : same_config t1 t2 → in_range t2 b i ↔ in_range t1 b i.
Proof. intros (_ & _ & _ & _ & H). unfold in_range. by rewrite H. Qed.

Lemma same_config_numSpecies t1 t2 : same_config t1 t2 → numSpecies t2 = numSpecies t1.
Proof. intros (_ & _ & _ & H & _). unfold numSpecies. by rewrite H. Qed.

Lemma gather_species_spec wx b predicate transform mypc i this :
  let this' := gather_species wx b predicate transform mypc i this in
  same_config this this'
  ∧ ∀ b' i', slot this' b' i'
      = if decide (b' = b ∧ i' = i ∧ flag this b i ≠ 0%Z ∧ in_range this b i)
        then gathered_buffer wx predicate transform (mypc !!! i) (slot this b i)
        else slot this b' i'.
Proof.
  unfold gather_species. fold (flag this b i) (slot this b i).
  case_bool_decide as Hf; cbv zeta.
  - split; [apply same_config_refl|]. intros b' i'.
    rewrite decide_False; [done|]. intros (_ & _ & ? & _). done.
  - split.
    + repeat split. unfold shape; simpl. apply shape_col_set.
    + intros b' i'. unfold slot at 1; simpl. rewrite col_get_col_set.
      fold (shape this). fold (in_range this b i).
      destruct (decide (b' = b ∧ i' = i ∧ in_range this b i)) as [(-> & -> & Hr)|Hn].
      * by rewrite decide_True.
      * rewrite decide_False; [done|]. intros (? & ? & _ & ?). by apply Hn.
Qed.

Lemma species_loop_spec wx b predicate transform mypc this :
  let this' := for_loop (numSpecies this)
                 (λ i this, gather_species wx b predicate transform mypc i this) this in
  same_config this this'
  ∧ ∀ b' i', slot this' b' i'
      = if decide (b' = b ∧ i' < numSpecies this ∧ flag this b' i' ≠ 0%Z
                   ∧ in_range this b' i')
        then gathered_buffer wx predicate transform (mypc !!! i') (slot this b' i')
        else slot this b' i'.
Proof.
  cbv zeta.
  destruct (for_loop_slots (K := nat * nat) (λ k s, slot s k.1 k.2) (same_config this)
              (λ k, k.2)
              (λ k v, if decide (k.1 = b ∧ flag this k.1 k.2 ≠ 0%Z ∧ in_range this k.1 k.2)
                      then gathered_buffer wx predicate transform (mypc !!! k.2) v else v)
              (numSpecies this)
              (λ i this, gather_species wx b predicate transform mypc i this) this)
    as [Hc Hg].
  { apply same_config_refl. }
  { intros j s Hj Hs.
    destruct (gather_species_spec wx b predicate transform mypc j s) as [Hc' Hg'].
    split; [exact (same_config_trans _ _ _ Hs Hc')|].
    intros [b' i']; cbn [fst snd]. rewrite Hg'.
    rewrite (same_config_flag this s) by done.
    destruct (decide (i' = j)) as [->|Hne].
    - destruct (decide (b' = b ∧ j = j ∧ flag this b j ≠ 0%Z ∧ in_range s b j))
        as [(-> & _ & Hfl & Hr)|Hn].
      + rewrite decide_True; [done|]. split_and!; [done..|].
        by apply (same_config_in_range this s).
      + rewrite decide_False; [done|]. intros (-> & Hfl & Hr). apply Hn.
        split_and!; [done..|]. by apply (same_config_in_range this s).
    - rewrite decide_False; [done|]. intros (_ & ? & _). done. }
  split; [done|]. intros b' i'. specialize (Hg (b', i')). cbn [fst snd] in Hg. rewrite Hg.
  destruct (decide (i' < numSpecies this)) as [Hi|Hi].
  - destruct (decide (b' = b ∧ flag this b' i' ≠ 0%Z ∧ in_range this b' i'))
      as [(-> & ? & ?)|Hn].
    + by rewrite decide_True.
    + rewrite decide_False; [done|]. intros (? & _ & ? & ?). by apply Hn.
  - rewrite decide_False; [done|]. intros (_ & ? & _). done.
Qed.

Lemma side_loop_spec wx idim mypc this :
  let plo := ProbLoArray (Geom wx 0) in
  let phi := ProbHiArray (Geom wx 0) in
  let this' :=
    for_loop 2 (λ iside this,
      for_loop (numSpecies this) (λ i this,
        gather_species wx (2 * idim + iside)
          (domain_predicate plo phi idim iside) (domain_transform wx) mypc i this) this)
      this in
  same_config this this'
  ∧ ∀ b i, slot this' b i
      = if decide (b / 2 = idim ∧ i < numSpecies this ∧ flag this b i ≠ 0%Z
                   ∧ in_range this b i)
        then face_gathered wx mypc b i (slot this b i)
        else slot this b i.
Proof.
  cbv zeta. rewrite !for_loop_S, for_loop_0.
  destruct (species_loop_spec wx (2 * idim + 0)
              (domain_predicate (ProbLoArray (Geom wx 0)) (ProbHiArray (Geom wx 0)) idim 0)
              (domain_transform wx) mypc this) as [Hc0 Hg0].
  set (s1 := for_loop (numSpecies this) _ this) in *.
  destruct (species_loop_spec wx (2 * idim + 1)
              (domain_predicate (ProbLoArray (Geom wx 0)) (ProbHiArray (Geom wx 0)) idim 1)
              (domain_transform wx) mypc s1) as [Hc1 Hg1].
  split; [exact (same_config_trans _ _ _ Hc0 Hc1)|].
  intros b i. rewrite Hg1, !Hg0.
  rewrite (same_config_numSpecies this s1), (same_config_flag this s1) by done.
  assert (b / 2 = idim ↔ b = 2 * idim + 0 ∨ b = 2 * idim + 1) as Hdiv.
  { pose proof (Nat.div_mod_eq b 2). pose proof (Nat.mod_upper_bound b 2). lia. }
  destruct (decide (b = 2 * idim + 1)) as [->|Hb1].
  - assert ((2 * idim + 1) / 2 = idim) as Hd by (apply Hdiv; by right).
    assert ((2 * idim + 1) mod 2 = 1) as Hm
      by (pose proof (Nat.div_mod_eq (2 * idim + 1) 2); lia).
    rewrite (decide_False (P := 2 * idim + 1 = 2 * idim + 0 ∧ _)) by lia.
    unfold face_gathered. rewrite Hd, Hm.
    destruct (decide (2 * idim + 1 = 2 * idim + 1 ∧ i < numSpecies this
                      ∧ flag this (2 * idim + 1) i ≠ 0%Z ∧ in_range s1 (2 * idim + 1) i))
      as [(_ & ? & ? & Hr)|Hn].
    + rewrite decide_True; [done|]. split_and!; [done..|].
      by apply (same_config_in_range this s1).
    + rewrite decide_False; [done|]. intros (_ & ? & ? & Hr). apply Hn.
      split_and!; [done..|]. by apply (same_config_in_range this s1).
  - rewrite (decide_False (P := b = 2 * idim + 1 ∧ _)) by (intros (? & _); done).
    destruct (decide (b = 2 * idim + 0)) as [->|Hb0].
    + assert ((2 * idim + 0) / 2 = idim) as Hd by (apply Hdiv; by left).
      assert ((2 * idim + 0) mod 2 = 0) as Hm
        by (pose proof (Nat.div_mod_eq (2 * idim + 0) 2); lia).
      unfold face_gathered. rewrite Hd, Hm.
      destruct (decide (2 * idim + 0 = 2 * idim + 0 ∧ i < numSpecies this
                        ∧ flag this (2 * idim + 0) i ≠ 0%Z ∧ in_range this (2 * idim + 0) i))
        as [(_ & ? & ? & Hr)|Hn].
      * by rewrite decide_True.
      * rewrite decide_False; [done|]. intros (_ & ? & ? & Hr). by apply Hn.
    + rewrite (decide_False (P := b = 2 * idim + 0 ∧ _)) by (intros (? & _); done).
      rewrite decide_False; [done|]. intros (Hx & _). apply Hdiv in Hx. lia.
Qed.

Lemma dim_loop_spec wx mypc this :
  let geom := Geom wx 0 in
  let plo := ProbLoArray geom in
  let phi := ProbHiArray geom in
  let this' :=
    for_loop (AMREX_SPACEDIM (WARPX_DIM wx)) (λ idim this,
      if isPeriodic geom idim then this
      else
        for_loop 2 (λ iside this,
          for_loop (numSpecies this) (λ i this,
            gather_species wx (2 * idim + iside)
              (domain_predicate plo phi idim iside) (domain_transform wx)
              mypc i this) this) this) this in
  same_config this this'
  ∧ ∀ b i, slot this' b i
      = if decide (face_active wx this b i)
        then face_gathered wx mypc b i (slot this b i)
        else slot this b i.
Proof.
  cbv zeta.
  destruct (for_loop_slots (K := nat * nat) (λ k s, slot s k.1 k.2) (same_config this)
              (λ k, k.1 / 2)
              (λ k v, if decide (isPeriodic (Geom wx 0) (k.1 / 2) = false
                                 ∧ k.2 < numSpecies this ∧ flag this k.1 k.2 ≠ 0%Z
                                 ∧ in_range this k.1 k.2)
                      then face_gathered wx mypc k.1 k.2 v else v)
              (AMREX_SPACEDIM (WARPX_DIM wx))
              (λ idim this,
                 if isPeriodic (Geom wx 0) idim then this
                 else
                   for_loop 2 (λ iside this,
                     for_loop (numSpecies this) (λ i this,
                       gather_species wx (2 * idim + iside)
                         (domain_predicate (ProbLoArray (Geom wx 0))
                            (ProbHiArray (Geom wx 0)) idim iside)
                         (domain_transform wx) mypc i this) this) this) this)
    as [Hc Hg].
  { apply same_config_refl. }
  { intros idim s Hidim Hs.
    destruct (isPeriodic (Geom wx 0) idim) eqn:Hper.
    - split; [done|]. intros [b i]; cbn [fst snd].
      destruct (decide (b / 2 = idim)) as [<-|]; [|done].
      rewrite decide_False; [done|]. intros (? & _). congruence.
    - destruct (side_loop_spec wx idim mypc s) as [Hc' Hg'].
      split; [exact (same_config_trans _ _ _ Hs Hc')|].
      intros [b i]; cbn [fst snd]. rewrite Hg'.
      rewrite (same_config_numSpecies this s), (same_config_flag this s) by done.
      destruct (decide (b / 2 = idim)) as [Hb|Hb].
      + rewrite Hb, Hper.
        destruct (decide (idim = idim ∧ i < numSpecies this ∧ flag this b i ≠ 0%Z
                          ∧ in_range s b i)) as [(_ & ? & ? & Hr)|Hn].
        * rewrite decide_True; [done|]. split_and!; [done..|].
          by apply (same_config_in_range this s).
        * rewrite decide_False; [done|]. intros (_ & ? & ? & Hr). apply Hn.
          split_and!; [done..|]. by apply (same_config_in_range this s).
      + rewrite decide_False; [done|]. intros (? & _). done. }
  split; [done|]. intros b i. specialize (Hg (b, i)). cbn [fst snd] in Hg. rewrite Hg.
  assert (b / 2 < AMREX_SPACEDIM (WARPX_DIM wx) ↔ b < 2 * AMREX_SPACEDIM (WARPX_DIM wx))
    as Hdiv.
  { pose proof (Nat.div_mod_eq b 2). pose proof (Nat.mod_upper_bound b 2). lia. }
  unfold face_active.
  destruct (decide (b / 2 < AMREX_SPACEDIM (WARPX_DIM wx))) as [Hlt|Hge].
  - destruct (decide (isPeriodic (Geom wx 0) (b / 2) = false ∧ i < numSpecies this
                      ∧ flag this b i ≠ 0%Z ∧ in_range this b i)) as [?|Hn].
    + rewrite decide_True; [done|]. split; [by apply Hdiv|done].
    + rewrite decide_False; [done|]. intros (_ & ?). by apply Hn.
  - rewrite decide_False; [done|]. intros (? & _). by apply Hge, Hdiv.
Qed.

(** What [gatherParticles] leaves in every slot. *)
Lemma gatherParticles_spec wx this mypc distance_to_eb :
  let r := gatherParticles this wx mypc distance_to_eb in
  r.2 = mypc
  ∧ same_config this r.1
  ∧ ∀ b i, slot r.1 b i
      = let v := if decide (face_active wx this b i)
                 then face_gathered wx mypc b i (slot this b i)
                 else slot this b i in
        if decide (eb_active wx this b i)
        then eb_gathered wx mypc distance_to_eb i v
        else v.
Proof.
  unfold gatherParticles. cbv zeta.
  destruct (dim_loop_spec wx mypc this) as [Hc1 Hg1]. cbv zeta in Hc1, Hg1.
  set (s1 := for_loop (AMREX_SPACEDIM (WARPX_DIM wx)) _ this) in *.
  simpl. split; [done|].
  destruct (AMREX_USE_EB wx) eqn:Heb.
  - destruct (species_loop_spec wx (length (m_particle_containers s1) - 1)
                (eb_predicate wx distance_to_eb (ProbLoArray (Geom wx 0)))
                (eb_transform wx distance_to_eb (ProbLoArray (Geom wx 0))) mypc s1)
      as [Hc2 Hg2].
    split; [exact (same_config_trans _ _ _ Hc1 Hc2)|].
    intros b i. rewrite Hg2, Hg1.
    assert (length (m_particle_containers s1) = length (m_particle_containers this)) as Hlen.
    { destruct Hc1 as (_ & _ & _ & _ & Hsh). unfold shape in Hsh.
      by rewrite <-(length_fmap length), Hsh, length_fmap. }
    rewrite Hlen, (same_config_numSpecies this s1), (same_config_flag this s1) by done.
    set (v := if decide (face_active wx this b i)
              then face_gathered wx mypc b i (slot this b i) else slot this b i).
    fold (eb_gathered wx mypc distance_to_eb i v).
    destruct (decide (b = length (m_particle_containers this) - 1 ∧ i < numSpecies this
                      ∧ flag this b i ≠ 0%Z ∧ in_range s1 b i)) as [(? & ? & ? & Hr)|Hn].
    + rewrite (decide_True (P := eb_active wx this b i)); [done|].
      split_and!; [done..|]. by apply (same_config_in_range this s1).
    + rewrite (decide_False (P := eb_active wx this b i)); [done|].
      intros (_ & ? & ? & ? & Hr). apply Hn.
      split_and!; [done..|]. by apply (same_config_in_range this s1).
  - split; [done|]. intros b i. rewrite Hg1.
    rewrite (decide_False (P := eb_active wx this b i)); [done|].
    intros (? & _). congruence.
Qed.

(** ** Buffers and their invariant *)

Lemma GetParticles_Some_lt c lev index t :
  GetParticles c lev !! index = Some t → lev < numLevels c.
Proof.
  unfold GetParticles, numLevels. intros H.
  destruct (decide (lev < length (m_particles c))) as [|Hge]; [done|].
  rewrite list_lookup_total_alt, lookup_ge_None_2 in H by lia. done.
Qed.

Lemma tile_define_wf NAR nrr nri t :
  tile_wf NAR nrr nri t → tile_define NAR nrr nri t = t.
Proof.
  intros [(H1 & H2 & H3) _]. unfold tile_define. destruct t; simpl in *.
  by rewrite !resize_all_alt.
Qed.

Lemma tile_define_empty_wf NAR nrr nri :
  tile_wf NAR nrr nri (tile_define NAR nrr nri empty_tile)
  ∧ particles (tile_define NAR nrr nri empty_tile) = [].
Proof.
  unfold tile_define, empty_tile; simpl. rewrite !resize_nil.
  split; [|done]. split.
  - unfold tile_schema; simpl. by rewrite !length_replicate.
  - unfold tile_ok, numParticles, cols_ok; simpl.
    repeat split; by apply Forall_replicate.
Qed.

Lemma matched_nil p t : numParticles t = 0 → matched p t = [].
Proof. unfold matched. by intros ->. Qed.

Lemma gathered_tile_spec NAR nrr nri predicate transform T old ptile :
  good_transform NAR nrr nri transform T →
  (∀ t, old = Some t → tile_wf NAR nrr (S nri) t) →
  tile_schema NAR nrr nri ptile →
  let r := gathered_tile NAR nrr (S nri) predicate transform old ptile in
  tile_wf NAR nrr (S nri) r
  ∧ particles r
    = particles (default empty_tile old)
      ++ ((λ ip, T (getSuperParticle ptile ip)) <$> matched predicate ptile).
Proof.
  intros (R & Hslot & HRT) Hold Hsrc. unfold gathered_tile. cbv zeta.
  set (t0 := tile_define NAR nrr (S nri) (default empty_tile old)).
  assert (tile_wf NAR nrr (S nri) t0
          ∧ particles t0 = particles (default empty_tile old)) as [Hwf0 Hp0].
  { unfold t0. destruct old as [t|]; simpl.
    - rewrite tile_define_wf by by apply Hold. split; [by apply Hold|done].
    - apply tile_define_empty_wf. }
  case_bool_decide as Hnp.
  - rewrite matched_nil by done. simpl. by rewrite app_nil_r.
  - rewrite <-Hp0. by apply (count_resize_compact_spec NAR nrr nri _ _ R T).
Qed.

Lemma domain_transform_good wx nrr nri lev index :
  good_transform (PIdx_nattribs wx) nrr nri (domain_transform wx lev index)
    (stamp (getistep wx 0)).
Proof.
  exists (λ idx, CopyAndTimestamp_row (PIdx_nattribs wx) idx (getistep wx 0)).
  split; [intros idx; apply CopyAndTimestamp_slot|].
  intros sp dp (H1 & H2 & H3) (H4 & H5 & H6).
  rewrite <-H3. apply CopyAndTimestamp_row_stamp; congruence.
Qed.

Lemma length_copy_row {A} `{Inhabited A} n (s d : list A) :
  length (copy_row n s d) = length d.
Proof.
  unfold copy_row. apply (for_loop_ind (λ _ r, length r = length d)); [done|].
  intros j r _ Hr. by rewrite length_insert.
Qed.

Lemma eb_transform_good wx distance_to_eb nrr nri lev index :
  good_transform (PIdx_nattribs wx) nrr nri
    (eb_transform wx distance_to_eb (ProbLoArray (Geom wx 0)) lev index)
    (eb_stored wx distance_to_eb lev index).
Proof.
  exists (λ idx, FindBoundaryIntersection_row wx idx (getistep wx 0) (getdt wx lev)
                   ((distance_to_eb !!! lev) index.1) (InvCellSizeArray (Geom wx lev))
                   (ProbLoArray (Geom wx 0))).
  split; [intros idx; apply FindBoundaryIntersection_slot|].
  intros sp dp (H1 & H2 & H3) (H4 & H5 & H6).
  unfold FindBoundaryIntersection_row, eb_stored. f_equal.
  rewrite <-H3. apply CopyAndTimestamp_row_stamp; simpl; try congruence.
  by rewrite length_copy_row.
Qed.

Lemma GetParticles_fresh pc lev :
  GetParticles (AddIntComp (make_alike pc) "timestamp" false) lev = ∅.
Proof.
  unfold GetParticles, AddIntComp, make_alike; simpl.
  rewrite list_lookup_total_alt, !list_lookup_fmap.
  destruct (m_particles pc !! lev); simpl; [|done]. apply fmap_empty.
Qed.

Lemma buffer_inv_fresh NAR pc :
  buffer_inv NAR pc (AddIntComp (make_alike pc) "timestamp" false).
Proof.
  split; [done|]. intros _. split; [done|]. split; [done|]. split.
  - unfold numLevels; simpl. by rewrite !length_fmap.
  - intros lev index t. by rewrite GetParticles_fresh, lookup_empty.
Qed.

Lemma GetParticles_undefined lev : GetParticles undefined_container lev = ∅.
Proof. unfold GetParticles; simpl. by rewrite list_lookup_total_alt. Qed.

(** The buffer of one pair after the loop body: it is defined, keeps its
    invariant, and every tile holds what it held followed by the stored
    form of the matched particles of the source tile with the same
    level and index. *)
Lemma gathered_buffer_spec wx predicate transform
    (T : nat → nat * nat → SuperParticle → SuperParticle) pc buf :
  (∀ lev index, good_transform (PIdx_nattribs wx) (NumRuntimeRealComps pc)
                  (NumRuntimeIntComps_pc pc) (transform lev index) (T lev index)) →
  container_wf (PIdx_nattribs wx) pc →
  buffer_inv (PIdx_nattribs wx) pc buf →
  let buf' := gathered_buffer wx predicate transform pc buf in
  isDefined buf' = true
  ∧ buffer_inv (PIdx_nattribs wx) pc buf'
  ∧ (∀ lev index, is_Some (GetParticles pc lev !! index) →
                  is_Some (GetParticles buf' lev !! index))
  ∧ ∀ lev index,
      particles (ParticlesAt buf' lev index)
      = particles (ParticlesAt buf lev index)
        ++ match GetParticles pc lev !! index with
           | Some ptile =>
               (λ ip, T lev index (getSuperParticle ptile ip))
                 <$> matched (predicate lev index) ptile
           | None => []
           end.
Proof.
  intros Hgood Hpc [Hundef Hdef]. unfold gathered_buffer. cbv zeta.
  set (buf0 := if isDefined buf then buf else AddIntComp (make_alike pc) "timestamp" false).
  assert (isDefined buf0 = true
          ∧ buffer_inv (PIdx_nattribs wx) pc buf0
          ∧ ∀ lev index, ParticlesAt buf0 lev index = ParticlesAt buf lev index)
    as (Hd0 & [_ Hinv0] & Hsame).
  { unfold buf0. destruct (isDefined buf) eqn:Hd.
    - split; [done|]. split; [|done].
      split; [intros ?; congruence|intros _; by apply Hdef].
    - split; [done|]. split; [apply buffer_inv_fresh|].
      intros lev index. unfold ParticlesAt.
      by rewrite GetParticles_fresh, (Hundef eq_refl), GetParticles_undefined. }
  destruct (Hinv0 Hd0) as (Hrr & Hri & Hlev & Hwf0).
  destruct (gather_levels_spec wx predicate transform pc buf0) as [Hh Hg].
  set (buf' := gather_levels wx predicate transform pc buf0) in *.
  destruct Hh as (Hd' & Hrr' & Hri' & Hlev').
  assert (NumRuntimeIntComps_pc buf0 = S (NumRuntimeIntComps_pc pc)) as Hn0.
  { unfold NumRuntimeIntComps_pc. rewrite Hri, length_app. simpl. lia. }
  assert (∀ lev index ptile, GetParticles pc lev !! index = Some ptile →
            let r := gathered_tile (PIdx_nattribs wx) (NumRuntimeRealComps buf0)
                       (NumRuntimeIntComps_pc buf0) (predicate lev index) (transform lev index)
                       (GetParticles buf0 lev !! index) ptile in
            tile_wf (PIdx_nattribs wx) (NumRuntimeRealComps buf0) (NumRuntimeIntComps_pc buf0) r
            ∧ particles r
              = particles (ParticlesAt buf0 lev index)
                ++ ((λ ip, T lev index (getSuperParticle ptile ip))
                      <$> matched (predicate lev index) ptile)) as Htile.
  { intros lev index ptile Hsrc. rewrite Hn0, Hrr.
    apply gathered_tile_spec; [apply Hgood| |by apply (Hpc lev index)].
    intros t Ht. rewrite <-Hn0, <-Hrr. by apply (Hwf0 lev index). }
  split; [congruence|]. split.
  - split; [congruence|]. intros _. split; [congruence|]. split; [congruence|].
    split; [lia|].
    intros lev index t. rewrite Hg. unfold NumRuntimeIntComps_pc. rewrite Hrr', Hri'.
    fold (NumRuntimeIntComps_pc buf0).
    destruct (decide (lev < numLevels pc ∧ lev < numLevels buf0)) as [?|?];
      [|by apply Hwf0].
    destruct (GetParticles pc lev !! index) as [ptile|] eqn:Hsrc; [|by apply Hwf0].
    intros [= <-]. by apply Htile.
  - split.
    { intros lev index [ptile Hsrc]. rewrite Hg.
      pose proof (GetParticles_Some_lt _ _ _ _ Hsrc) as Hlt.
      rewrite decide_True by lia. by rewrite Hsrc. }
    intros lev index. rewrite <-Hsame. unfold ParticlesAt at 1. rewrite Hg.
    destruct (GetParticles pc lev !! index) as [ptile|] eqn:Hsrc.
    + pose proof (GetParticles_Some_lt _ _ _ _ Hsrc) as Hlt.
      rewrite decide_True by lia. simpl. by apply Htile.
    + rewrite app_nil_r. by destruct (decide _).
Qed.

(** ** The invariant of the buffer manager *)

Lemma pbb_inv_in_range wx mypc this b i :
  pbb_inv wx mypc this → in_range this b i ↔ b < numBoundaries wx ∧ i < numSpecies this.
Proof.
  intros [Hsh _]. unfold in_range. rewrite Hsh.
  destruct (decide (b < numBoundaries wx)) as [Hb|Hb].
  - rewrite lookup_replicate_2 by done. simpl. tauto.
  - rewrite (proj1 (lookup_replicate_None _ _ _)) by lia. simpl. lia.
Qed.

Lemma pbb_inv_length wx mypc this :
  pbb_inv wx mypc this → length (m_particle_containers this) = numBoundaries wx.
Proof.
  intros [Hsh _]. unfold shape in Hsh.
  by rewrite <-(length_fmap length), Hsh, length_replicate.
Qed.

Lemma face_gathered_spec wx mypc b i buf :
  mypc_wf wx mypc → buffer_inv (PIdx_nattribs wx) (mypc !!! i) buf →
  let buf' := face_gathered wx mypc b i buf in
  isDefined buf' = true
  ∧ buffer_inv (PIdx_nattribs wx) (mypc !!! i) buf'
  ∧ (∀ lev index, is_Some (GetParticles (mypc !!! i) lev !! index) →
                  is_Some (GetParticles buf' lev !! index))
  ∧ ∀ lev index, particles (ParticlesAt buf' lev index)
                 = particles (ParticlesAt buf lev index) ++ face_appended wx mypc b i lev index.
Proof.
  intros Hpc Hinv.
  apply (gathered_buffer_spec wx _ _ (λ _ _, stamp (getistep wx 0))); [|done|done].
  intros lev index. apply domain_transform_good.
Qed.

Lemma eb_gathered_spec wx mypc distance_to_eb i buf :
  mypc_wf wx mypc → buffer_inv (PIdx_nattribs wx) (mypc !!! i) buf →
  let buf' := eb_gathered wx mypc distance_to_eb i buf in
  isDefined buf' = true
  ∧ buffer_inv (PIdx_nattribs wx) (mypc !!! i) buf'
  ∧ (∀ lev index, is_Some (GetParticles (mypc !!! i) lev !! index) →
                  is_Some (GetParticles buf' lev !! index))
  ∧ ∀ lev index, particles (ParticlesAt buf' lev index)
                 = particles (ParticlesAt buf lev index)
                   ++ eb_appended wx mypc distance_to_eb i lev index.
Proof.
  intros Hpc Hinv.
  apply (gathered_buffer_spec wx _ _ (eb_stored wx distance_to_eb)); [|done|done].
  intros lev index. apply eb_transform_good.
Qed.

(** One call of [gatherParticles], slot by slot and tile by tile. *)
Lemma gatherParticles_tiles wx this mypc distance_to_eb b i :
  pbb_inv wx mypc this → mypc_wf wx mypc →
  let this' := (gatherParticles this wx mypc distance_to_eb).1 in
  buffer_inv (PIdx_nattribs wx) (mypc !!! i) (slot this' b i)
  ∧ (isDefined (slot this' b i) = true
     ↔ isDefined (slot this b i) = true ∨ face_active wx this b i ∨ eb_active wx this b i)
  ∧ (¬ face_active wx this b i → ¬ eb_active wx this b i → slot this' b i = slot this b i)
  ∧ (face_active wx this b i ∨ eb_active wx this b i →
     ∀ lev index, is_Some (GetParticles (mypc !!! i) lev !! index) →
                  is_Some (GetParticles (slot this' b i) lev !! index))
  ∧ ∀ lev index,
      particles (ParticlesAt (slot this' b i) lev index)
      = particles (ParticlesAt (slot this b i) lev index)
        ++ (if decide (face_active wx this b i)
            then face_appended wx mypc b i lev index else [])
        ++ (if decide (eb_active wx this b i)
            then eb_appended wx mypc distance_to_eb i lev index else []).
Proof.
  intros [Hsh Hinv] Hpc.
  destruct (gatherParticles_spec wx this mypc distance_to_eb) as (_ & _ & Hg).
  cbv zeta in *. rewrite Hg. clear Hg.
  set (v := if decide (face_active wx this b i)
            then face_gathered wx mypc b i (slot this b i) else slot this b i).
  assert (buffer_inv (PIdx_nattribs wx) (mypc !!! i) v
          ∧ (isDefined v = true ↔ isDefined (slot this b i) = true ∨ face_active wx this b i)
          ∧ (¬ face_active wx this b i → v = slot this b i)
          ∧ (face_active wx this b i →
             ∀ lev index, is_Some (GetParticles (mypc !!! i) lev !! index) →
                          is_Some (GetParticles v lev !! index))
          ∧ ∀ lev index, particles (ParticlesAt v lev index)
              = particles (ParticlesAt (slot this b i) lev index)
                ++ (if decide (face_active wx this b i)
                    then face_appended wx mypc b i lev index else []))
    as (Hv1 & Hv2 & Hv3 & Hv5 & Hv4).
  { unfold v. destruct (decide (face_active wx this b i)) as [Hf|Hf].
    - destruct (face_gathered_spec wx mypc b i (slot this b i) Hpc (Hinv b i))
        as (Hd & Hi & He & Hp).
      split; [done|]. split; [tauto|]. split; [done|]. split; [done|done].
    - split; [apply Hinv|]. split; [tauto|]. split; [done|]. split; [done|].
      intros. by rewrite app_nil_r. }
  destruct (decide (eb_active wx this b i)) as [He|He].
  - destruct (eb_gathered_spec wx mypc distance_to_eb i v Hpc Hv1) as (Hd & Hi & Hex & Hp).
    split; [done|]. split; [tauto|]. split; [done|]. split; [done|].
    intros lev index. by rewrite Hp, Hv4, app_assoc.
  - split; [done|]. split; [tauto|]. split; [by intros; apply Hv3|].
    split; [intros [?|?]; [by apply Hv5|done]|].
    intros lev index. by rewrite Hv4, app_nil_r.
Qed.

Lemma gatherParticles_inv wx this mypc distance_to_eb :
  pbb_inv wx mypc this → mypc_wf wx mypc →
  pbb_inv wx mypc (gatherParticles this wx mypc distance_to_eb).1.
Proof.
  intros Hinv Hpc.
  destruct (gatherParticles_spec wx this mypc distance_to_eb) as (_ & Hc & _).
  split.
  - destruct Hc as (_ & _ & _ & Hn & ->). unfold numSpecies. rewrite Hn. apply Hinv.
  - intros b i. by apply gatherParticles_tiles.
Qed.

Lemma slot_ctor wx b i : slot (ParticleBoundaryBuffer_ctor wx) b i = undefined_container.
Proof.
  unfold ParticleBoundaryBuffer_ctor. cbv zeta.
  destruct (for_loop _ _ _) as [flags any]. unfold slot, col_get; simpl.
  rewrite !list_lookup_total_alt.
  destruct (decide (b < numBoundaries wx)) as [Hb|Hb].
  - rewrite lookup_replicate_2 by done. simpl.
    destruct (decide (i < length (getSpeciesNames wx))) as [Hi|Hi].
    + by rewrite lookup_replicate_2.
    + by rewrite (proj1 (lookup_replicate_None _ _ _)) by lia.
  - by rewrite (proj1 (lookup_replicate_None _ _ _)) by lia.
Qed.

(** The constructor establishes the invariant, whatever the species
    containers are. *)
Lemma pbb_inv_ctor wx mypc : pbb_inv wx mypc (ParticleBoundaryBuffer_ctor wx).
Proof.
  split.
  - unfold ParticleBoundaryBuffer_ctor. cbv zeta.
    destruct (for_loop _ _ _) as [flags any]. unfold shape, numSpecies; simpl.
    by rewrite fmap_replicate, length_replicate.
  - intros b i. rewrite slot_ctor. split; [done|]. intros [=].
Qed.

(** ** The loops of [redistribute] and [clearParticles] *)

Lemma slot_out_of_range this b i : ¬ in_range this b i → slot this b i = undefined_container.
Proof.
  unfold in_range, shape, slot, col_get. rewrite list_lookup_fmap. intros Hn.
  rewrite (list_lookup_total_alt (m_particle_containers this)).
  destruct (m_particle_containers this !! b) as [r|]; simpl in *.
  - rewrite list_lookup_total_alt, lookup_ge_None_2 by lia. done.
  - done.
Qed.

Lemma update_slot_spec F b i this :
  same_config this (update_slot F b i this)
  ∧ ∀ b' i', slot (update_slot F b i this) b' i'
      = if decide (b' = b ∧ i' = i) then if_defined F (slot this b i) else slot this b' i'.
Proof.
  unfold update_slot. fold (slot this b i). cbv zeta. unfold if_defined.
  destruct (isDefined (slot this b i)) eqn:Hd.
  - split.
    + repeat split. unfold shape; simpl. apply shape_col_set.
    + intros b' i'. unfold slot at 1; simpl. rewrite col_get_col_set.
      fold (shape this). fold (in_range this b i).
      assert (in_range this b i) as Hr.
      { destruct (decide (in_range this b i)) as [|Hn]; [done|].
        rewrite (slot_out_of_range _ _ _ Hn) in Hd. done. }
      destruct (decide (b' = b ∧ i' = i)) as [[-> ->]|Hn].
      * by rewrite decide_True.
      * rewrite decide_False; [done|]. intros (? & ? & _). by apply Hn.
  - split; [apply same_config_refl|]. intros b' i'.
    by destruct (decide (b' = b ∧ i' = i)) as [[-> ->]|].
Qed.

Lemma update_species_loop_spec F b this :
  let this' := for_loop (numSpecies this) (λ i this, update_slot F b i this) this in
  same_config this this'
  ∧ ∀ b' i', slot this' b' i'
      = if decide (b' = b ∧ i' < numSpecies this) then if_defined F (slot this b' i')
        else slot this b' i'.
Proof.
  cbv zeta.
  destruct (for_loop_slots (K := nat * nat) (λ k s, slot s k.1 k.2) (same_config this)
              (λ k, k.2) (λ k v, if decide (k.1 = b) then if_defined F v else v)
              (numSpecies this) (λ i this, update_slot F b i this) this) as [Hc Hg].
  { apply same_config_refl. }
  { intros j s Hj Hs. destruct (update_slot_spec F b j s) as [Hc' Hg'].
    split; [exact (same_config_trans _ _ _ Hs Hc')|].
    intros [b' i']; cbn [fst snd]. rewrite Hg'.
    destruct (decide (i' = j)) as [->|Hne].
    - destruct (decide (b' = b)) as [->|Hb].
      + by rewrite decide_True.
      + rewrite decide_False; [done|]. intros [? _]. done.
    - rewrite decide_False; [done|]. intros [_ ?]. done. }
  split; [done|]. intros b' i'. specialize (Hg (b', i')). cbn [fst snd] in Hg. rewrite Hg.
  destruct (decide (i' < numSpecies this)) as [Hi|Hi].
  - destruct (decide (b' = b)) as [->|Hb].
    + by rewrite decide_True.
    + rewrite decide_False; [done|]. intros [? _]. done.
  - rewrite decide_False; [done|]. intros [_ ?]. done.
Qed.

Lemma update_all_loop_spec F nb this :
  let this' := for_loop nb (λ i this,
                 for_loop (numSpecies this) (λ ispecies this,
                   update_slot F i ispecies this) this) this in
  same_config this this'
  ∧ ∀ b i, slot this' b i
      = if decide (b < nb ∧ i < numSpecies this) then if_defined F (slot this b i)
        else slot this b i.
Proof.
  cbv zeta.
  destruct (for_loop_slots (K := nat * nat) (λ k s, slot s k.1 k.2) (same_config this)
              (λ k, k.1)
              (λ k v, if decide (k.2 < numSpecies this) then if_defined F v else v)
              nb (λ i this, for_loop (numSpecies this) (λ ispecies this,
                              update_slot F i ispecies this) this) this) as [Hc Hg].
  { apply same_config_refl. }
  { intros j s Hj Hs. destruct (update_species_loop_spec F j s) as [Hc' Hg'].
    split; [exact (same_config_trans _ _ _ Hs Hc')|].
    intros [b i]; cbn [fst snd]. rewrite Hg'.
    rewrite (same_config_numSpecies this s) by done.
    destruct (decide (b = j)) as [->|Hb].
    - destruct (decide (i < numSpecies this)).
      + by rewrite decide_True.
      + rewrite decide_False; [done|]. intros [_ ?]. done.
    - rewrite decide_False; [done|]. intros [? _]. done. }
  split; [done|]. intros b i. specialize (Hg (b, i)). cbn [fst snd] in Hg. rewrite Hg.
  destruct (decide (b < nb)) as [Hb|Hb].
  - destruct (decide (i < numSpecies this)).
    + by rewrite decide_True.
    + rewrite decide_False; [done|]. intros [_ ?]. done.
  - rewrite decide_False; [done|]. intros [? _]. done.
Qed.

Lemma clearParticles_spec this wx :
  same_config this (clearParticles this wx)
  ∧ ∀ b i, slot (clearParticles this wx) b i
      = if decide (b < numBoundaries wx ∧ i < numSpecies this)
        then if_defined clearParticles_pc (slot this b i)
        else slot this b i.
Proof. apply (update_all_loop_spec clearParticles_pc). Qed.

Lemma clearParticles_i_spec this b :
  same_config this (clearParticles_i this b)
  ∧ ∀ b' i, slot (clearParticles_i this b) b' i
      = if decide (b' = b ∧ i < numSpecies this)
        then if_defined clearParticles_pc (slot this b' i)
        else slot this b' i.
Proof. apply (update_species_loop_spec clearParticles_pc). Qed.

Lemma redistribute_spec this wx :
  same_config this (redistribute this wx)
  ∧ ∀ b i, slot (redistribute this wx) b i
      = if decide (b < numBoundaries wx ∧ i < numSpecies this)
        then if_defined (λ c, Redistribute c 0 (-1) 0 0 false) (slot this b i)
        else slot this b i.
Proof. apply (update_all_loop_spec (λ c, Redistribute c 0 (-1) 0 0 false)). Qed.

Lemma cols_ext {A} `{Inhabited A} (c1 c2 : list (list A)) :
  length <$> c1 = length <$> c2 →
  (∀ b i, col_get c1 b i = col_get c2 b i) → c1 = c2.
Proof.
  intros Hsh Hg. apply list_eq. intros b.
  pose proof (f_equal (λ l, l !! b) Hsh) as Hb. simpl in Hb.
  rewrite !list_lookup_fmap in Hb.
  destruct (c1 !! b) as [r1|] eqn:E1, (c2 !! b) as [r2|] eqn:E2; simplify_eq/=; [|done].
  f_equal. apply list_eq. intros i.
  specialize (Hg b i). unfold col_get in Hg.
  rewrite (list_lookup_total_correct _ _ _ E1), (list_lookup_total_correct _ _ _ E2) in Hg.
  destruct (decide (i < length r1)) as [Hi|Hi].
  - rewrite (list_lookup_lookup_total_lt r1), (list_lookup_lookup_total_lt r2) by lia.
    by rewrite Hg.
  - by rewrite !lookup_ge_None_2 by lia.
Qed.

Lemma pbb_ext t1 t2 :
  same_config t1 t2 → (∀ b i, slot t2 b i = slot t1 b i) → t2 = t1.
Proof.
  intros (H1 & H2 & H3 & H4 & H5) Hs. destruct t1, t2; simpl in *. subst.
  f_equal. by apply cols_ext.
Qed.

Lemma sum_list_zero {A} (f : A → nat) (l : list A) :
  (∀ x, x ∈ l → f x = 0) → sum_list (f <$> l) = 0.
Proof.
  induction l as [|x l IH]; intros Hf; [done|]. simpl.
  rewrite (Hf x) by (apply elem_of_cons; by left). simpl.
  apply IH. intros y Hy. apply Hf. apply elem_of_cons. by right.
Qed.

Lemma TotalNumberOfParticles_clear c only_valid only_local :
  TotalNumberOfParticles (clearParticles_pc c) only_valid only_local = 0%Z.
Proof.
  unfold TotalNumberOfParticles, clearParticles_pc; simpl.
  rewrite sum_list_zero; [done|].
  intros plev [x [-> _]]%list_elem_of_fmap. by rewrite map_to_list_empty.
Qed.

Lemma if_defined_clear_idemp c :
  if_defined clearParticles_pc (if_defined clearParticles_pc c)
  = if_defined clearParticles_pc c.
Proof.
  unfold if_defined. destruct (isDefined c) eqn:Hd; [|by rewrite Hd].
  simpl. rewrite Hd. unfold clearParticles_pc, set_particles; simpl.
  f_equal. by rewrite <-list_fmap_compose.
Qed.

Lemma isDefined_if_defined_clear c :
  isDefined (if_defined clearParticles_pc c) = isDefined c.
Proof. unfold if_defined. by destruct (isDefined c) eqn:Hd. Qed.

(** ** The invariant along a run *)

Lemma buffer_inv_clear NAR pc buf :
  buffer_inv NAR pc buf → buffer_inv NAR pc (if_defined clearParticles_pc buf).
Proof.
  intros Hinv. pose proof Hinv as [Hu Hd]. unfold if_defined.
  destruct (isDefined buf) eqn:E; [|exact Hinv].
  split; [simpl; congruence|]. intros _.
  destruct (Hd eq_refl) as (H1 & H2 & H3 & _).
  split_and!; [done|done|by unfold numLevels; simpl; rewrite length_fmap|].
  intros lev index t Ht. exfalso.
  unfold GetParticles, clearParticles_pc in Ht; simpl in Ht.
  rewrite list_lookup_total_alt, list_lookup_fmap in Ht.
  destruct (m_particles buf !! lev); simpl in Ht; by rewrite lookup_empty in Ht.
Qed.

Lemma pbb_inv_same_config wx mypc this this' :
  same_config this this' →
  (∀ b i, buffer_inv (PIdx_nattribs wx) (mypc !!! i) (slot this b i) →
          buffer_inv (PIdx_nattribs wx) (mypc !!! i) (slot this' b i)) →
  pbb_inv wx mypc this → pbb_inv wx mypc this'.
Proof.
  intros (_ & _ & _ & Hn & Hs) Hslot [Hsh Hinv]. split.
  - unfold numSpecies. by rewrite Hs, Hn.
  - intros b i. apply Hslot, Hinv.
Qed.

Lemma pbb_inv_clearParticles wx mypc this wx' :
  pbb_inv wx mypc this → pbb_inv wx mypc (clearParticles this wx').
Proof.
  destruct (clearParticles_spec this wx') as [Hc Hg].
  apply pbb_inv_same_config; [done|]. intros b i Hb. rewrite Hg.
  destruct (decide _); [by apply buffer_inv_clear|done].
Qed.

Lemma pbb_inv_clearParticles_i wx mypc this k :
  pbb_inv wx mypc this → pbb_inv wx mypc (clearParticles_i this k).
Proof.
  destruct (clearParticles_i_spec this k) as [Hc Hg].
  apply pbb_inv_same_config; [done|]. intros b i Hb. rewrite Hg.
  destruct (decide _); [by apply buffer_inv_clear|done].
Qed.

Lemma pbb_inv_redistribute wx mypc this wx' :
  pbb_inv wx mypc this → pbb_inv wx mypc (redistribute this wx').
Proof.
  destruct (redistribute_spec this wx') as [Hc Hg].
  apply pbb_inv_same_config; [done|]. intros b i Hb. rewrite Hg.
  destruct (decide _); [|done]. unfold if_defined, Redistribute.
  by destruct (isDefined _).
Qed.

Lemma pbb_inv_same_build wx mypc wx' mypc' this :
  same_build wx wx' → same_schema mypc mypc' →
  pbb_inv wx mypc this ↔ pbb_inv wx' mypc' this.
Proof.
  intros (Hdim & Heb & Hnar) Hsch.
  assert (numBoundaries wx' = numBoundaries wx) as Hnb
    by (unfold numBoundaries; by rewrite Hdim, Heb).
  unfold pbb_inv, buffer_inv. rewrite Hnb, Hnar.
  split; intros [Hsh Hinv]; (split; [done|]); intros b i;
    destruct (Hsch i) as (H1 & H2 & H3); destruct (Hinv b i) as [Hu Hd];
    (split; [done|]); intros Hdef; destruct (Hd Hdef) as (? & ? & ? & ?);
    split_and!; (done || congruence || lia).
Qed.

(** Every state of a run satisfies the invariant. *)
Lemma reachable_inv wx mypc this : reachable wx mypc this → pbb_inv wx mypc this.
Proof.
  induction 1 as [|this wx' mypc' eb _ IH Hb Hs Hwf|this wx' _ IH|this k _ IH|this wx' _ IH].
  - apply pbb_inv_ctor.
  - apply (pbb_inv_same_build wx mypc wx' mypc'); [done..|].
    apply gatherParticles_inv; [|done].
    by apply (pbb_inv_same_build wx mypc wx' mypc').
  - by apply pbb_inv_clearParticles.
  - by apply pbb_inv_clearParticles_i.
  - by apply pbb_inv_redistribute.
Qed.

(** ** The executable check of the species containers *)

Lemma forallb_cols_ok {A} n (cols : list (list A)) :
  forallb (λ c, bool_decide (length c = n)) cols = true → cols_ok n cols.
Proof.
  intros H. apply Forall_forall. intros c Hc.
  rewrite forallb_forall in H. eapply bool_decide_eq_true_1, H. by apply list_elem_of_In.
Qed.

Lemma tile_wf_check_sound NAR nrr nri t :
  tile_wf_check NAR nrr nri t = true → tile_wf NAR nrr nri t.
Proof.
  unfold tile_wf_check. rewrite !andb_true_iff, !bool_decide_eq_true.
  intros [[[[[H1 H2] H3] H4] H5] H6].
  split; [done|]. split_and!; by apply forallb_cols_ok.
Qed.

Lemma container_wf_check_sound NAR c :
  container_wf_check NAR c = true → container_wf NAR c.
Proof.
  unfold container_wf_check. rewrite forallb_forall. intros H lev index t Ht.
  pose proof (GetParticles_Some_lt _ _ _ _ Ht) as Hlev.
  unfold GetParticles, numLevels in *.
  destruct (lookup_lt_is_Some_2 _ _ Hlev) as [plev Hplev].
  rewrite (list_lookup_total_correct _ _ _ Hplev) in Ht.
  specialize (H plev). rewrite forallb_forall in H.
  apply tile_wf_check_sound.
  apply (H ltac:(apply list_elem_of_In; by eapply list_elem_of_lookup_2) (index, t)).
  apply list_elem_of_In. by apply elem_of_map_to_list.
Qed.

Lemma mypc_wf_check_sound wx mypc : mypc_wf_check wx mypc = true → mypc_wf wx mypc.
Proof.
  unfold mypc_wf_check. rewrite forallb_forall. intros H i.
  destruct (mypc !! i) as [c|] eqn:Hc.
  - rewrite (list_lookup_total_correct _ _ _ Hc). apply container_wf_check_sound, H.
    apply list_elem_of_In. by eapply list_elem_of_lookup_2.
  - rewrite list_lookup_total_alt, Hc. simpl.
    intros lev index t. by rewrite GetParticles_undefined, lookup_empty.
Qed.

(** ** Facts used by several claims *)

Lemma active_exclusive wx mypc this b i :
  pbb_inv wx mypc this → face_active wx this b i → eb_active wx this b i → False.
Proof.
  intros Hinv (Hb & _) (Heb & Hb' & _).
  rewrite (pbb_inv_length _ _ _ Hinv) in Hb'. unfold numBoundaries in Hb'.
  rewrite Heb in Hb'. lia.
Qed.

Lemma length_particles t : length (particles t) = numParticles t.
Proof. unfold particles. by rewrite length_fmap, length_seq. Qed.









(** * The claims *)

(** C4. The classifier is a function of the particle's coordinate along
    [m_idim], the side and the two bounds only; it answers 1 exactly when
    the coordinate is strictly below the low bound (side 0) or at or above
    the high bound (any other side, 1 in [gatherParticles]), and 0
    otherwise. *)
Theorem IsOutsideDomainBoundary_iff (m_plo m_phi : list Real) (m_idim : nat)
    (m_iside : Z) (src : ParticleTile) (ip : nat) :
  let x := pos (getSuperParticle src ip) m_idim in
  (IsOutsideDomainBoundary m_plo m_phi m_idim m_iside src ip = 1%Z
   ∨ IsOutsideDomainBoundary m_plo m_phi m_idim m_iside src ip = 0%Z)
  ∧ (IsOutsideDomainBoundary m_plo m_phi m_idim m_iside src ip ≠ 0%Z ↔
       (m_iside = 0%Z ∧ (x < m_plo !!! m_idim)%Q)
       ∨ (m_iside ≠ 0%Z ∧ (m_phi !!! m_idim <= x)%Q))
  ∧ (IsOutsideDomainBoundary m_plo m_phi m_idim 0 src ip ≠ 0%Z ↔ (x < m_plo !!! m_idim)%Q)
  ∧ (IsOutsideDomainBoundary m_plo m_phi m_idim 1 src ip ≠ 0%Z ↔ (m_phi !!! m_idim <= x)%Q).
Proof.
  intros x.
  pose proof (IsOutsideDomainBoundary_cases m_plo m_phi m_idim) as Hgen. cbv zeta in Hgen.
  split; [apply Hgen|]. split; [apply Hgen|]. split.
  - destruct (Hgen 0%Z src ip) as [_ ->]. split; [|by left]. intros [[_ H]|[H _]]; done.
  - destruct (Hgen 1%Z src ip) as [_ ->]. split; [|by right]. intros [[H _]|[_ H]]; done.
Qed.

(** C9. [gatherParticles] hands back the species containers exactly as it
    received them (positions, momenta, ids, run-time attributes and
    particle counts of every species, level and tile), and in the buffer
    manager nothing but the buffer containers can differ afterwards. *)
Theorem gatherParticles_source_untouched (this : ParticleBoundaryBuffer) (wx : WarpX)
    (mypc : list ParticleContainer) (distance_to_eb : list MultiFab) :
  (gatherParticles this wx mypc distance_to_eb).2 = mypc
  ∧ same_config this (gatherParticles this wx mypc distance_to_eb).1.
Proof.
  destruct (gatherParticles_spec wx this mypc distance_to_eb) as (H1 & H2 & _). done.
Qed.

(** C6, as the code has it.  [getParticleBuffer] stops with a fatal
    assertion whenever the pair is not configured active or its buffer
    has not been defined, and returns the buffer otherwise; the pointer
    variant makes neither check and returns the address of the slot in
    every case. *)
Theorem getParticleBuffer_checks (this : ParticleBoundaryBuffer) (wx : WarpX)
    (species_name : string) (boundary : nat) :
  let index := getSpeciesID wx species_name in
  (flag this boundary index = 0%Z ∨ isDefined (slot this boundary index) = false →
     ∃ msg, getParticleBuffer this wx species_name boundary = Aborts msg)
  ∧ (flag this boundary index ≠ 0%Z → isDefined (slot this boundary index) = true →
     getParticleBuffer this wx species_name boundary = Returns (slot this boundary index))
  ∧ getParticleBufferPointer this wx species_name boundary = Returns (boundary, index)
  ∧ deref this (boundary, index) = slot this boundary index.
Proof.
  intros index. unfold getParticleBuffer, getParticleBufferPointer, deref.
  fold index. fold (flag this boundary index).
  change ((m_particle_containers this !!! boundary) !!! index)
    with (slot this boundary index).
  split; [|split; [|done]].
  - intros [Hf|Hd].
    + rewrite bool_decide_true by done. by eexists.
    + case_bool_decide; [by eexists|]. rewrite Hd. by eexists.
  - intros Hf Hd. rewrite bool_decide_false by done. by rewrite Hd.
Qed.

(** C6, counterexample.  In the freshly constructed manager of the
    example the pair (xlo, "ions") is neither active nor defined:
    [getParticleBuffer] aborts, yet the pointer variant returns. *)
Lemma getParticleBufferPointer_no_assertion :
  flag Example.s0 0 (getSpeciesID Example.wx "ions") = 0%Z
  ∧ isDefined (slot Example.s0 0 (getSpeciesID Example.wx "ions")) = false
  ∧ getParticleBuffer Example.s0 Example.wx "ions" 0
    = Aborts "Attempted to get particle buffer for boundary 0, which is not used!"
  ∧ getParticleBufferPointer Example.s0 Example.wx "ions" 0 = Returns (0, 1)
  ∧ ¬ ∃ msg, getParticleBufferPointer Example.s0 Example.wx "ions" 0 = Aborts msg.
Proof.
  split_and!; [by vm_compute..|]. intros [msg H]. vm_compute in H. discriminate.
Qed.



(** C8. [clearParticles] is idempotent; it leaves every buffer as defined
    as it was; and for every boundary and species of the manager the
    count reported afterwards is 0 (the call returns, it does not
    abort), also when particles had been gathered before. *)
Theorem clearParticles_idempotent (this : ParticleBoundaryBuffer) (wx : WarpX)
    (species_name : string) (boundary : nat) (local : bool)
    (Hb : boundary < numBoundaries wx)
    (Hi : getSpeciesID wx species_name < numSpecies this) :
  clearParticles (clearParticles this wx) wx = clearParticles this wx
  ∧ (∀ b i, isDefined (slot (clearParticles this wx) b i) = isDefined (slot this b i))
  ∧ getNumParticlesInContainer (clearParticles this wx) wx species_name boundary local = 0%Z
  ∧ getNumParticlesInContainer (clearParticles (clearParticles this wx) wx) wx
      species_name boundary local = 0%Z
  ∧ (∀ mypc distance_to_eb,
       getNumParticlesInContainer
         (clearParticles (gatherParticles this wx mypc distance_to_eb).1 wx) wx
         species_name boundary local = 0%Z).
Proof.
  assert (∀ t, clearParticles (clearParticles t wx) wx = clearParticles t wx) as Hidem.
  { intros t. destruct (clearParticles_spec t wx) as [Hc1 Hg1].
    destruct (clearParticles_spec (clearParticles t wx) wx) as [Hc2 Hg2].
    apply pbb_ext; [done|]. intros b i. rewrite Hg2, Hg1.
    rewrite (same_config_numSpecies t (clearParticles t wx)) by done.
    destruct (decide _); [|done]. apply if_defined_clear_idemp. }
  assert (∀ t, getSpeciesID wx species_name < numSpecies t →
            getNumParticlesInContainer (clearParticles t wx) wx species_name boundary local
            = 0%Z) as Hzero.
  { intros t Ht. destruct (clearParticles_spec t wx) as [_ Hg].
    unfold getNumParticlesInContainer.
    change ((m_particle_containers (clearParticles t wx) !!! boundary)
              !!! getSpeciesID wx species_name)
      with (slot (clearParticles t wx) boundary (getSpeciesID wx species_name)).
    rewrite Hg, decide_True by done. unfold if_defined.
    destruct (isDefined (slot t boundary (getSpeciesID wx species_name))) eqn:Hd.
    - simpl. rewrite Hd. by rewrite TotalNumberOfParticles_clear.
    - by rewrite Hd. }
  split; [apply Hidem|]. split.
  { intros b i. destruct (clearParticles_spec this wx) as [_ Hg]. rewrite Hg.
    destruct (decide _); [|done]. apply isDefined_if_defined_clear. }
  split; [by apply Hzero|]. split; [rewrite Hidem; by apply Hzero|].
  intros mypc distance_to_eb. apply Hzero.
  destruct (gatherParticles_spec wx this mypc distance_to_eb) as (_ & Hc & _).
  by rewrite (same_config_numSpecies this _ Hc).
Qed.

Lemma clearParticles_idempotent_witness :
  let s := Example.s1 in
  clearParticles (clearParticles s Example.wx) Example.wx = clearParticles s Example.wx
  ∧ getNumParticlesInContainer s Example.wx "electrons" 0 false = 2%Z
  ∧ getNumParticlesInContainer (clearParticles s Example.wx) Example.wx "electrons" 0 false
    = 0%Z.
Proof.
  cbv zeta.
  destruct (clearParticles_idempotent Example.s1 Example.wx "electrons" 0 false)
    as (H1 & _ & H3 & _).
  - vm_compute. lia.
  - vm_compute. lia.
  - split; [exact H1|]. split; [by vm_compute|exact H3].
Defined.



(** C7, as the code has it.  A buffer container is instantiated by the
    first [gatherParticles] call in which its pair is visited (active, and
    on a non-periodic face or at the embedded boundary), whether or not a
    particle matches.  Once defined it stays defined through
    [gatherParticles], [clearParticles] and [redistribute]; a gather only
    appends to what each tile holds.  The constructor defines none. *)
Theorem buffer_defined_at_first_visit (wx : WarpX) (this : ParticleBoundaryBuffer)
    (mypc : list ParticleContainer) (distance_to_eb : list MultiFab) (b i : nat)
    (Hinv : pbb_inv wx mypc this) (Hwf : mypc_wf wx mypc) :
  let this' := (gatherParticles this wx mypc distance_to_eb).1 in
  (isDefined (slot this' b i) = true
   ↔ isDefined (slot this b i) = true ∨ face_active wx this b i ∨ eb_active wx this b i)
  ∧ (∀ lev index,
       particles (ParticlesAt (slot this b i) lev index)
         `prefix_of` particles (ParticlesAt (slot this' b i) lev index))
  ∧ (isDefined (slot this b i) = true →
       isDefined (slot this' b i) = true
       ∧ isDefined (slot (clearParticles this wx) b i) = true
       ∧ (∀ k, isDefined (slot (clearParticles_i this k) b i) = true)
       ∧ isDefined (slot (redistribute this wx) b i) = true)
  ∧ isDefined (slot (ParticleBoundaryBuffer_ctor wx) b i) = false.
Proof.
  intros this'.
  destruct (gatherParticles_tiles wx this mypc distance_to_eb b i Hinv Hwf)
    as (_ & Hdef & _ & _ & Hp).
  split; [done|]. split; [|split].
  - intros lev index. rewrite Hp. by eexists.
  - intros Hd. split; [by apply Hdef; left|]. split; [|split].
    + destruct (clearParticles_spec this wx) as [_ Hg]. rewrite Hg.
      destruct (decide (b < numBoundaries wx ∧ i < numSpecies this)); [|done].
      by rewrite isDefined_if_defined_clear.
    + intros k. destruct (clearParticles_i_spec this k) as [_ Hg]. rewrite Hg.
      destruct (decide (b = k ∧ i < numSpecies this)); [|done].
      by rewrite isDefined_if_defined_clear.
    + destruct (redistribute_spec this wx) as [_ Hg]. rewrite Hg.
      destruct (decide (b < numBoundaries wx ∧ i < numSpecies this)); [|done].
      unfold if_defined, Redistribute. by rewrite Hd.
  - by rewrite slot_ctor.
Qed.

Lemma buffer_defined_at_first_visit_witness :
  let s' := (gatherParticles Example.s0 Example.wx Example.mypc_empty
               Example.distance_to_eb).1 in
  isDefined (slot s' 0 0) = true ∧ isDefined (slot s' 1 0) = false.
Proof.
  cbv zeta.
  destruct (buffer_defined_at_first_visit Example.wx Example.s0 Example.mypc_empty
              Example.distance_to_eb 0 0) as (H & _).
  - apply pbb_inv_ctor.
  - apply mypc_wf_check_sound. vm_compute. reflexivity.
  - split; [|by vm_compute]. apply H. right. left. vm_compute.
    split_and!; (lia || done).
Defined.

(** C7, counterexample.  In the example no species has any particle, so
    nothing can match; the gather still instantiates the xlo buffer of
    "electrons", which then reports 0 particles. *)
Lemma buffer_defined_without_match :
  let s' := (gatherParticles Example.s0 Example.wx Example.mypc_empty
               Example.distance_to_eb).1 in
  isDefined (slot Example.s0 0 0) = false
  ∧ (λ c, TotalNumberOfParticles c false true) <$> Example.mypc_empty = [0; 0]%Z
  ∧ isDefined (slot s' 0 0) = true
  ∧ getNumParticlesInContainer s' Example.wx "electrons" 0 false = 0%Z.
Proof. cbv zeta. split_and!; by vm_compute. Qed.









(** * Further properties *)

(** ** The constructor *)
Lemma query_loop_spec wx species j nb ns flags :
  length <$> flags = replicate nb ns → j < ns →
  let flags' := for_loop nb (λ idx flags,
                  query_flag wx species ("save_particles_at_" +:+ (boundary_names wx !!! idx))
                    idx j flags) flags in
  length <$> flags' = replicate nb ns
  ∧ ∀ b i, col_get flags' b i
      = if decide (b < nb ∧ i = j)
        then default (col_get flags b i)
               (ParmParse_query wx species ("save_particles_at_" +:+ (boundary_names wx !!! b)))
        else col_get flags b i.
Proof.
  intros Hsh Hj. cbv zeta.
  destruct (for_loop_slots (K := nat * nat) (λ k s, col_get s k.1 k.2)
              (λ s : list (list Z), length <$> s = replicate nb ns) (λ k, k.1)
              (λ k v, if decide (k.2 = j)
                      then default v (ParmParse_query wx species
                             ("save_particles_at_" +:+ (boundary_names wx !!! k.1)))
                      else v)
              nb (λ idx flags,
                  query_flag wx species ("save_particles_at_" +:+ (boundary_names wx !!! idx))
                    idx j flags) flags Hsh) as [HI Hg].
  - intros idx s Hidx Hs. unfold query_flag.
    destruct (ParmParse_query wx species _) as [v|] eqn:Hq.
    + split; [by rewrite shape_col_set|]. intros [b i]. simpl.
      rewrite col_get_col_set, Hs, lookup_replicate_2 by done. simpl.
      destruct (decide (b = idx)) as [->|Hb].
      * rewrite Hq. destruct (decide (i = j)) as [->|Hi].
        -- by rewrite decide_True.
        -- rewrite decide_False; [done|]. intros (_ & ? & _). done.
      * rewrite decide_False; [done|]. intros (? & _). done.
    + split; [done|]. intros [b i]. simpl.
      destruct (decide (b = idx)) as [->|Hb]; [|done]. rewrite Hq. by destruct (decide _).
  - split; [done|]. intros b i. specialize (Hg (b, i)). simpl in Hg. rewrite Hg.
    destruct (decide (b < nb)), (decide (i = j)).
    + by rewrite decide_True.
    + rewrite decide_False; [done|]. tauto.
    + rewrite decide_False; [done|]. tauto.
    + rewrite decide_False; [done|]. tauto.
Qed.

Lemma any_loop_spec (flags : list (list Z)) j nb (any : list Z) :
  length any = nb →
  let any' := for_loop nb (λ i any,
                if bool_decide (col_get flags i j ≠ 0%Z) then <[i := 1%Z]> any else any) any in
  length any' = nb
  ∧ ∀ b, any' !!! b
      = if decide (b < nb ∧ col_get flags b j ≠ 0%Z) then 1%Z else any !!! b.
Proof.
  intros Hl. cbv zeta.
  destruct (for_loop_slots (K := nat) (λ k (s : list Z), s !!! k)
              (λ s : list Z, length s = nb) (λ k, k)
              (λ k v, if decide (col_get flags k j ≠ 0%Z) then 1%Z else v)
              nb (λ i any,
                if bool_decide (col_get flags i j ≠ 0%Z) then <[i := 1%Z]> any else any)
              any Hl) as [HI Hg].
  - intros i s Hi Hs. case_bool_decide as Hf.
    + split; [by rewrite length_insert|]. intros k.
      destruct (decide (k = i)) as [->|Hk].
      * rewrite (decide_True (P := col_get flags i j ≠ 0%Z)) by done.
        by rewrite list_lookup_total_insert_eq by lia.
      * by rewrite list_lookup_total_insert_ne by done.
    + split; [done|]. intros k. destruct (decide (k = i)) as [->|]; [|done].
      by destruct (decide (col_get flags i j ≠ 0%Z)).
  - split; [done|]. intros b. rewrite Hg.
    destruct (decide (b < nb)), (decide (col_get flags b j ≠ 0%Z)).
    + by rewrite decide_True.
    + rewrite decide_False; [done|]. tauto.
    + rewrite decide_False; [done|]. tauto.
    + rewrite decide_False; [done|]. tauto.
Qed.


Lemma col_get_replicate {A} `{Inhabited A} nb ns (x : A) b i :
  b < nb → i < ns → col_get (replicate nb (replicate ns x)) b i = x.
Proof.
  intros Hb Hi. unfold col_get. by rewrite !lookup_total_replicate_2.
Qed.

(** The constructor, field by field. *)
Lemma ctor_spec wx :
  let this := ParticleBoundaryBuffer_ctor wx in
  let nb := numBoundaries wx in
  let ns := length (getSpeciesNames wx) in
  m_particle_containers this = replicate nb (replicate ns undefined_container)
  ∧ m_boundary_names this = boundary_names wx
  ∧ m_species_names this = getSpeciesNames wx
  ∧ length <$> m_do_boundary_buffer this = replicate nb ns
  ∧ length (m_do_any_boundary this) = nb
  ∧ (∀ b i, b < nb → i < ns → flag this b i = configured wx b i)
  ∧ (∀ b, b < nb → m_do_any_boundary this !!! b = 0%Z ∨ m_do_any_boundary this !!! b = 1%Z)
  ∧ (∀ b, b < nb →
       m_do_any_boundary this !!! b = 1%Z ↔ ∃ i, i < ns ∧ configured wx b i ≠ 0%Z).
Proof.
  intros this nb ns. unfold this, ParticleBoundaryBuffer_ctor. cbv zeta.
  fold nb. fold ns.
  set (P := λ n (st : list (list Z) * list Z),
    length <$> st.1 = replicate nb ns
    ∧ length st.2 = nb
    ∧ (∀ b i, b < nb → i < ns →
         col_get st.1 b i = if decide (i < n) then configured wx b i else 0%Z)
    ∧ (∀ b, b < nb → st.2 !!! b = 0%Z ∨ st.2 !!! b = 1%Z)
    ∧ (∀ b, b < nb → st.2 !!! b = 1%Z ↔ ∃ i, i < n ∧ configured wx b i ≠ 0%Z)).
  lazymatch goal with
  | |- context [for_loop ns ?body ?s0] =>
      assert (P ns (for_loop ns body s0)) as HP; [apply (for_loop_ind P ns body s0)|]
  end.
  - unfold P; cbn [fst snd]. split_and!.
    + by rewrite fmap_replicate, length_replicate.
    + by rewrite length_replicate.
    + intros b i Hb Hi. rewrite col_get_replicate by done. by rewrite decide_False by lia.
    + intros b Hb. left. by rewrite lookup_total_replicate_2.
    + intros b Hb. rewrite lookup_total_replicate_2 by done.
      split; [done|]. intros (i & Hi & _). lia.
  - intros j [flags any] Hj (Hsh & Hl & Hf & H01 & Hany). cbn [fst snd] in *.
    destruct (query_loop_spec wx (getSpeciesNames wx !!! j) j nb ns flags Hsh Hj)
      as [Hsh' Hf']. cbv zeta in Hsh', Hf'.
    set (flags' := for_loop nb _ flags) in *.
    destruct (any_loop_spec flags' j nb any Hl) as [Hl' Hany']. cbv zeta in Hl', Hany'.
    set (any' := for_loop nb _ any) in *.
    assert (∀ b, b < nb → col_get flags' b j = configured wx b j) as Hj'.
    { intros b Hb. rewrite Hf', decide_True by done.
      rewrite (Hf b j Hb Hj), decide_False by lia. done. }
    unfold P; cbn [fst snd]. split_and!; [done|done|..].
    + intros b i Hb Hi. destruct (decide (i = j)) as [->|Hne].
      * rewrite Hj' by done. by rewrite decide_True by lia.
      * rewrite Hf', decide_False by tauto. rewrite Hf by done.
        destruct (decide (i < j)); [by rewrite decide_True by lia|by rewrite decide_False by lia].
    + intros b Hb. rewrite Hany'. destruct (decide _); [by right|by apply H01].
    + intros b Hb. rewrite Hany', Hj' by done.
      destruct (decide (b < nb ∧ configured wx b j ≠ 0%Z)) as [[_ Hc]|Hn].
      * split; [|done]. intros _. exists j. split; [lia|done].
      * rewrite Hany by done. split.
        -- intros (i & Hi & Hc). exists i. split; [lia|done].
        -- intros (i & Hi & Hc). exists i. split; [|done].
           destruct (decide (i = j)) as [->|]; [|lia]. exfalso. apply Hn. done.
  - destruct (for_loop ns _ _) as [flags any]. destruct HP as (Hsh & Hl & Hf & H01 & Hany).
    simpl in *. split_and!; try done.
    unfold flag; simpl. intros b i Hb Hi. rewrite Hf by done. by rewrite decide_True.
Qed.








Lemma length_filter_disjoint {A} (P Q : A → Prop) `{∀ x, Decision (P x)}
    `{∀ x, Decision (Q x)} (l : list A) :
  (∀ x, P x → Q x → False) → length (filter P l) + length (filter Q l) ≤ length l.
Proof.
  intros Hd. induction l as [|x l IH]; [done|].
  rewrite !filter_cons. destruct (decide (P x)), (decide (Q x)); simpl; try lia.
  exfalso. eauto.
Qed.

Lemma length_matched p t : length (matched p t) ≤ numParticles t.
Proof.
  unfold matched. etrans; [apply length_filter|]. by rewrite length_seq.
Qed.

Lemma length_face_appended wx mypc b i lev index ptile :
  GetParticles (mypc !!! i) lev !! index = Some ptile →
  length (face_appended wx mypc b i lev index)
  = length (matched (domain_predicate (ProbLoArray (Geom wx 0)) (ProbHiArray (Geom wx 0))
                       (b / 2) (b mod 2) lev index) ptile).
Proof. intros Hsrc. unfold face_appended. by rewrite Hsrc, length_fmap. Qed.

(** X5. When the low bound of dimension [d] is not above its high bound,
    no particle matches both faces of [d], so the two buffers of [d]
    together grow by at most the number of particles of the source
    tile. *)
Theorem gather_stores_at_most_once_per_dimension (wx : WarpX)
    (this : ParticleBoundaryBuffer) (mypc : list ParticleContainer)
    (distance_to_eb : list MultiFab) (d i lev : nat) (index : nat * nat)
    (ptile : ParticleTile)
    (Hinv : pbb_inv wx mypc this) (Hwf : mypc_wf wx mypc)
    (Hd : d < AMREX_SPACEDIM (WARPX_DIM wx))
    (Hsrc : GetParticles (mypc !!! i) lev !! index = Some ptile)
    (Hbox : (ProbLoArray (Geom wx 0) !!! d <= ProbHiArray (Geom wx 0) !!! d)%Q) :
  let this' := (gatherParticles this wx mypc distance_to_eb).1 in
  let plo := ProbLoArray (Geom wx 0) in
  let phi := ProbHiArray (Geom wx 0) in
  let count := λ s b, length (particles (ParticlesAt (slot s b i) lev index)) in
  (∀ ip, IsOutsideDomainBoundary plo phi d 0 ptile ip ≠ 0%Z →
         IsOutsideDomainBoundary plo phi d 1 ptile ip = 0%Z)
  ∧ count this' (2 * d) + count this' (2 * d + 1)
    ≤ count this (2 * d) + count this (2 * d + 1) + numParticles ptile.
Proof.
  intros this' plo phi count.
  assert (∀ ip, IsOutsideDomainBoundary plo phi d 0 ptile ip ≠ 0%Z →
                IsOutsideDomainBoundary plo phi d 1 ptile ip ≠ 0%Z → False) as Hdisj.
  { intros ip H0 H1.
    apply (IsOutsideDomainBoundary_cases plo phi d 0%Z ptile ip) in H0 as [[_ H0]|[H0 _]];
      [|done].
    apply (IsOutsideDomainBoundary_cases plo phi d 1%Z ptile ip) in H1 as [[H1 _]|[_ H1]];
      [done|].
    apply (Qlt_irrefl (pos (getSuperParticle ptile ip) d)).
    eapply Qlt_le_trans; [exact H0|]. eapply Qle_trans; [exact Hbox|exact H1]. }
  split.
  { intros ip H0.
    destruct (IsOutsideDomainBoundary_cases plo phi d 1%Z ptile ip) as [[H1|H1] _]; [|done].
    exfalso. apply (Hdisj ip H0). by rewrite H1. }
  assert (∀ side, side < 2 → (2 * d + side) / 2 = d ∧ (2 * d + side) mod 2 = side) as Hdm.
  { intros side Hs. pose proof (Nat.div_mod_eq (2 * d + side) 2).
    pose proof (Nat.mod_upper_bound (2 * d + side) 2). lia. }
  assert (∀ side, side < 2 →
            count this' (2 * d + side)
            ≤ count this (2 * d + side)
              + length (matched (domain_predicate plo phi d side lev index) ptile)) as Hside.
  { intros side Hs. unfold count, this'.
    destruct (gatherParticles_tiles wx this mypc distance_to_eb (2 * d + side) i Hinv Hwf)
      as (_ & _ & _ & _ & Hp).
    rewrite Hp, !length_app.
    rewrite (decide_False (P := eb_active wx this (2 * d + side) i)).
    - destruct (decide (face_active wx this (2 * d + side) i)); [|simpl; lia].
      cbv beta iota. change (length []) with 0.
      rewrite (length_face_appended _ _ _ _ _ _ ptile) by done.
      destruct (Hdm side Hs) as [-> ->]. fold plo phi. lia.
    - intros (Heb & Hb & _). rewrite (pbb_inv_length _ _ _ Hinv) in Hb.
      unfold numBoundaries in Hb. rewrite Heb in Hb. lia. }
  pose proof (Hside 0 ltac:(lia)) as H0. pose proof (Hside 1 ltac:(lia)) as H1.
  rewrite Nat.add_0_r in H0.
  pose proof (length_filter_disjoint
                (λ ip, domain_predicate plo phi d 0 lev index ptile ip ≠ 0%Z)
                (λ ip, domain_predicate plo phi d 1 lev index ptile ip ≠ 0%Z)
                (seq 0 (numParticles ptile)) (λ ip, Hdisj ip)) as Hl.
  rewrite length_seq in Hl. unfold matched in H0, H1. lia.
Qed.

Lemma gather_stores_at_most_once_per_dimension_witness :
  let count := λ s b, length (particles (ParticlesAt (slot s b 0) 0 (0, 0))) in
  count Example.s1 0 + count Example.s1 1 ≤ count Example.s0 0 + count Example.s0 1 + 4.
Proof.
  cbv zeta.
  destruct (gather_stores_at_most_once_per_dimension Example.wx Example.s0 Example.mypc
              Example.distance_to_eb 0 0 0 (0, 0) Example.electrons_tile) as [_ H].
  - apply pbb_inv_ctor.
  - apply mypc_wf_check_sound. vm_compute. reflexivity.
  - vm_compute. lia.
  - vm_compute. reflexivity.
  - vm_compute. discriminate.
  - exact H.
Defined.


Lemma face_active_same_config wx t1 t2 b i :
  same_config t1 t2 → face_active wx t2 b i ↔ face_active wx t1 b i.
Proof.
  intros Hc. unfold face_active.
  rewrite (same_config_numSpecies t1 t2), (same_config_flag t1 t2),
    (same_config_in_range t1 t2) by done. done.
Qed.

Lemma eb_active_same_config wx t1 t2 b i :
  same_config t1 t2 → eb_active wx t2 b i ↔ eb_active wx t1 b i.
Proof.
  intros Hc. unfold eb_active.
  assert (length (m_particle_containers t2) = length (m_particle_containers t1)) as ->.
  { destruct Hc as (_ & _ & _ & _ & Hsh). unfold shape in Hsh.
    by rewrite <-(length_fmap length), Hsh, length_fmap. }
  rewrite (same_config_numSpecies t1 t2), (same_config_flag t1 t2),
    (same_config_in_range t1 t2) by done. done.
Qed.

(** X6. [gatherParticles] leaves the buffer of a pair whose flag is 0
    exactly as it was (undefined if it was undefined). *)
Theorem gather_leaves_inactive_pairs (wx : WarpX) (this : ParticleBoundaryBuffer)
    (mypc : list ParticleContainer) (distance_to_eb : list MultiFab) (b i : nat)
    (Hflag : flag this b i = 0%Z) :
  slot (gatherParticles this wx mypc distance_to_eb).1 b i = slot this b i.
Proof.
  destruct (gatherParticles_spec wx this mypc distance_to_eb) as (_ & _ & Hg).
  cbv zeta in Hg. rewrite Hg.
  rewrite (decide_False (P := eb_active wx this b i)) by (intros (_ & _ & _ & H & _); done).
  rewrite (decide_False (P := face_active wx this b i)) by (intros (_ & _ & _ & H & _); done).
  done.
Qed.

Lemma gather_leaves_inactive_pairs_witness :
  slot Example.s1 1 0 = slot Example.s0 1 0.
Proof.
  apply (gather_leaves_inactive_pairs Example.wx Example.s0 Example.mypc
           Example.distance_to_eb 1 0).
  vm_compute. reflexivity.
Defined.

(** X7. When no pair is active, or when every direction is periodic and
    the build has no embedded boundary, [gatherParticles] returns the
    manager and the species containers unchanged. *)
Theorem gather_without_visit_is_identity (wx : WarpX) (this : ParticleBoundaryBuffer)
    (mypc : list ParticleContainer) (distance_to_eb : list MultiFab)
    (Hnone : (∀ b i, in_range this b i → flag this b i = 0%Z)
             ∨ ((∀ d, d < AMREX_SPACEDIM (WARPX_DIM wx) → isPeriodic (Geom wx 0) d = true)
                ∧ AMREX_USE_EB wx = false)) :
  gatherParticles this wx mypc distance_to_eb = (this, mypc).
Proof.
  destruct (gatherParticles_spec wx this mypc distance_to_eb) as (Hm & Hc & Hg).
  cbv zeta in *. destruct (gatherParticles _ _ _ _) as [this' mypc'] eqn:E.
  simpl in *. subst mypc'. f_equal. apply pbb_ext; [done|]. intros b i. rewrite Hg.
  rewrite (decide_False (P := eb_active wx this b i)).
  - rewrite (decide_False (P := face_active wx this b i)); [done|].
    intros (Hb & Hper & _ & Hf & Hr). destruct Hnone as [H0|[Hall _]]; [by apply Hf, H0|].
    rewrite Hall in Hper; [done|].
    pose proof (Nat.div_mod_eq b 2). pose proof (Nat.mod_upper_bound b 2). lia.
  - intros (Heb & _ & _ & Hf & Hr).
    destruct Hnone as [H0|[_ Hno]]; [by apply Hf, H0|congruence].
Qed.

Lemma gather_without_visit_is_identity_witness :
  gatherParticles (ParticleBoundaryBuffer_ctor Example.periodic_wx) Example.periodic_wx
    Example.mypc Example.distance_to_eb
  = (ParticleBoundaryBuffer_ctor Example.periodic_wx, Example.mypc).
Proof.
  apply gather_without_visit_is_identity. right. split; [|reflexivity].
  intros d _. reflexivity.
Defined.

(** X8. Gathering does not remove particles from the species containers,
    so a second [gatherParticles] on the same particles appends the same
    particles again: every buffer tile then holds what it held before,
    followed twice by what one gather appends. *)
Theorem gather_twice_appends_twice (wx : WarpX) (this : ParticleBoundaryBuffer)
    (mypc : list ParticleContainer) (distance_to_eb : list MultiFab)
    (b i lev : nat) (index : nat * nat)
    (Hinv : pbb_inv wx mypc this) (Hwf : mypc_wf wx mypc) :
  let s1 := (gatherParticles this wx mypc distance_to_eb).1 in
  let s2 := (gatherParticles s1 wx mypc distance_to_eb).1 in
  let at_ := λ s, particles (ParticlesAt (slot s b i) lev index) in
  let appended :=
    (if decide (face_active wx this b i) then face_appended wx mypc b i lev index else [])
    ++ (if decide (eb_active wx this b i)
        then eb_appended wx mypc distance_to_eb i lev index else []) in
  at_ s1 = at_ this ++ appended ∧ at_ s2 = at_ this ++ appended ++ appended.
Proof.
  intros s1 s2 at_ appended.
  destruct (gatherParticles_tiles wx this mypc distance_to_eb b i Hinv Hwf)
    as (_ & _ & _ & _ & Hp1).
  pose proof (gatherParticles_inv wx this mypc distance_to_eb Hinv Hwf) as Hinv1.
  destruct (gatherParticles_tiles wx s1 mypc distance_to_eb b i Hinv1 Hwf)
    as (_ & _ & _ & _ & Hp2).
  destruct (gatherParticles_spec wx this mypc distance_to_eb) as (_ & Hc & _).
  cbv zeta in Hc. fold s1 in Hc, Hp1. cbv zeta in Hp2. fold s2 in Hp2.
  unfold at_, appended. rewrite Hp2, Hp1. split; [done|].
  rewrite (decide_ext (face_active wx s1 b i) (face_active wx this b i))
    by (by apply face_active_same_config).
  rewrite (decide_ext (eb_active wx s1 b i) (eb_active wx this b i))
    by (by apply eb_active_same_config).
  by rewrite <-!app_assoc.
Qed.

Lemma gather_twice_appends_twice_witness :
  let s2 := (gatherParticles Example.s1 Example.wx Example.mypc Example.distance_to_eb).1 in
  particles (ParticlesAt (slot s2 0 0) 0 (0, 0))
  = particles (ParticlesAt (slot Example.s1 0 0) 0 (0, 0))
    ++ particles (ParticlesAt (slot Example.s1 0 0) 0 (0, 0)).
Proof.
  cbv zeta.
  destruct (gather_twice_appends_twice Example.wx Example.s0 Example.mypc
              Example.distance_to_eb 0 0 0 (0, 0)) as [H1 H2].
  - apply pbb_inv_ctor.
  - apply mypc_wf_check_sound. vm_compute. reflexivity.
  - change (particles (ParticlesAt (slot Example.s0 0 0) 0 (0, 0))) with (@nil SuperParticle)
      in H1, H2.
    rewrite !app_nil_l in H1, H2. unfold Example.s1 at 1. rewrite H2.
    unfold Example.s1. rewrite H1. reflexivity.
Defined.


Lemma particles_undefined lev index :
  particles (ParticlesAt undefined_container lev index) = [].
Proof. unfold ParticlesAt. by rewrite GetParticles_undefined, lookup_empty. Qed.

Lemma particles_cleared c lev index :
  particles (ParticlesAt (clearParticles_pc c) lev index) = [].
Proof.
  unfold ParticlesAt, GetParticles, clearParticles_pc; simpl.
  rewrite list_lookup_total_alt, list_lookup_fmap.
  destruct (m_particles c !! lev); simpl; by rewrite lookup_empty.
Qed.

Lemma particles_if_defined_clear NAR pc c lev index :
  buffer_inv NAR pc c →
  particles (ParticlesAt (if_defined clearParticles_pc c) lev index) = [].
Proof.
  intros [Hu _]. unfold if_defined. destruct (isDefined c) eqn:E.
  - apply particles_cleared.
  - rewrite Hu by done. apply particles_undefined.
Qed.

(** X13. [clearParticles(i)] empties the buffers of boundary [i] only:
    the buffers of every other boundary and their counts are unchanged, no
    buffer changes from defined to undefined or back, the configuration
    is unchanged, and the count of boundary [i] is 0 afterwards. *)
Theorem clearParticles_i_clears_one_boundary (this : ParticleBoundaryBuffer) (wx : WarpX)
    (k : nat) (species_name : string) (local : bool)
    (Hi : getSpeciesID wx species_name < numSpecies this) :
  same_config this (clearParticles_i this k)
  ∧ (∀ b i, b ≠ k → slot (clearParticles_i this k) b i = slot this b i)
  ∧ (∀ b i, isDefined (slot (clearParticles_i this k) b i) = isDefined (slot this b i))
  ∧ getNumParticlesInContainer (clearParticles_i this k) wx species_name k local = 0%Z
  ∧ (∀ b, b ≠ k →
       getNumParticlesInContainer (clearParticles_i this k) wx species_name b local
       = getNumParticlesInContainer this wx species_name b local).
Proof.
  destruct (clearParticles_i_spec this k) as [Hc Hg].
  assert (∀ b i, b ≠ k → slot (clearParticles_i this k) b i = slot this b i) as Hframe.
  { intros b i Hb. rewrite Hg. rewrite decide_False; [done|]. intros [? _]. done. }
  split; [done|]. split; [done|]. split.
  { intros b i. rewrite Hg. destruct (decide _); [|done]. apply isDefined_if_defined_clear. }
  split.
  - unfold getNumParticlesInContainer.
    change ((m_particle_containers (clearParticles_i this k) !!! k)
              !!! getSpeciesID wx species_name)
      with (slot (clearParticles_i this k) k (getSpeciesID wx species_name)).
    rewrite Hg, decide_True by done. unfold if_defined.
    destruct (isDefined (slot this k (getSpeciesID wx species_name))) eqn:Hd.
    + simpl. rewrite Hd. by rewrite TotalNumberOfParticles_clear.
    + by rewrite Hd.
  - intros b Hb. unfold getNumParticlesInContainer.
    change ((m_particle_containers (clearParticles_i this k) !!! b)
              !!! getSpeciesID wx species_name)
      with (slot (clearParticles_i this k) b (getSpeciesID wx species_name)).
    by rewrite Hframe.
Qed.

Lemma clearParticles_i_clears_one_boundary_witness :
  getNumParticlesInContainer Example.s1 Example.wx "electrons" 0 false = 2%Z
  ∧ getNumParticlesInContainer (clearParticles_i Example.s1 0) Example.wx "electrons" 0 false
    = 0%Z
  ∧ getNumParticlesInContainer (clearParticles_i Example.s1 0) Example.wx "electrons" 6 false
    = getNumParticlesInContainer Example.s1 Example.wx "electrons" 6 false.
Proof.
  destruct (clearParticles_i_clears_one_boundary Example.s1 Example.wx 0 "electrons" false)
    as (_ & _ & _ & H0 & Hframe).
  - vm_compute. lia.
  - split; [vm_compute; reflexivity|]. split; [exact H0|]. apply Hframe. lia.
Defined.

(** X12. After [clearParticles] every buffer tile is empty, and the next
    [gatherParticles] leaves in each tile exactly what that gather
    appends; a buffer that was defined keeps its run-time integer
    components, so "timestamp" is not added a second time. *)
Theorem gather_after_clear_holds_the_new_matches (wx : WarpX)
    (this : ParticleBoundaryBuffer) (mypc : list ParticleContainer)
    (distance_to_eb : list MultiFab) (b i lev : nat) (index : nat * nat)
    (Hinv : pbb_inv wx mypc this) (Hwf : mypc_wf wx mypc)
    (Hb : b < numBoundaries wx) (Hi : i < numSpecies this) :
  let cleared := clearParticles this wx in
  let this' := (gatherParticles cleared wx mypc distance_to_eb).1 in
  particles (ParticlesAt (slot cleared b i) lev index) = []
  ∧ particles (ParticlesAt (slot this' b i) lev index)
    = (if decide (face_active wx this b i) then face_appended wx mypc b i lev index else [])
      ++ (if decide (eb_active wx this b i)
          then eb_appended wx mypc distance_to_eb i lev index else [])
  ∧ (isDefined (slot this b i) = true →
     runtime_icomps (slot this' b i) = runtime_icomps (slot this b i)
     ∧ runtime_icomps (slot this' b i) = runtime_icomps (mypc !!! i) ++ ["timestamp"%string]).
Proof.
  intros cleared this'.
  destruct (clearParticles_spec this wx) as [Hc Hg]. fold cleared in Hc, Hg.
  pose proof (pbb_inv_clearParticles wx mypc this wx Hinv) as Hinv'. fold cleared in Hinv'.
  destruct (gatherParticles_tiles wx cleared mypc distance_to_eb b i Hinv' Hwf)
    as ([_ Hbuf] & Hdef & _ & _ & Hp). cbv zeta in Hbuf, Hdef, Hp. fold this' in Hbuf, Hdef, Hp.
  assert (particles (ParticlesAt (slot cleared b i) lev index) = []) as Hnil.
  { rewrite Hg, decide_True by done.
    apply (particles_if_defined_clear (PIdx_nattribs wx) (mypc !!! i)). apply Hinv. }
  split; [done|]. split.
  - rewrite Hp, Hnil. simpl.
    rewrite (decide_ext (face_active wx cleared b i) (face_active wx this b i))
      by (by apply face_active_same_config).
    rewrite (decide_ext (eb_active wx cleared b i) (eb_active wx this b i))
      by (by apply eb_active_same_config).
    done.
  - intros Hd. destruct Hinv as [_ Hall]. destruct (Hall b i) as [_ Hold].
    destruct (Hold Hd) as (_ & Hic & _).
    assert (isDefined (slot cleared b i) = true) as Hd'.
    { rewrite Hg, decide_True by done. by rewrite isDefined_if_defined_clear. }
    destruct (Hbuf ltac:(apply Hdef; by left)) as (_ & Hic' & _).
    split; [by rewrite Hic', Hic|done].
Qed.

Lemma gather_after_clear_holds_the_new_matches_witness :
  let cleared := clearParticles Example.s1 Example.wx in
  let s2 := (gatherParticles cleared Example.wx Example.mypc Example.distance_to_eb).1 in
  particles (ParticlesAt (slot cleared 0 0) 0 (0, 0)) = []
  ∧ length (particles (ParticlesAt (slot Example.s1 0 0) 0 (0, 0))) = 2
  ∧ runtime_icomps (slot s2 0 0) = ["ionizationLevel"; "timestamp"]%string.
Proof.
  cbv zeta.
  destruct (gather_after_clear_holds_the_new_matches Example.wx Example.s1 Example.mypc
              Example.distance_to_eb 0 0 0 (0, 0)) as (H1 & _ & H3).
  - apply gatherParticles_inv; [apply pbb_inv_ctor|].
    apply mypc_wf_check_sound. vm_compute. reflexivity.
  - apply mypc_wf_check_sound. vm_compute. reflexivity.
  - vm_compute. lia.
  - vm_compute. lia.
  - split; [exact H1|]. split; [vm_compute; reflexivity|].
    destruct H3 as [_ H3]; [vm_compute; reflexivity|]. exact H3.
Defined.


(** X3. After construction and one [gatherParticles], the buffer of
    boundary [b] and species [i] is defined exactly when the pair exists,
    the input table gives it a non-zero flag, and, for a domain face, its
    direction is not periodic. *)
Theorem first_gather_defines_the_configured_buffers (wx : WarpX)
    (mypc : list ParticleContainer) (distance_to_eb : list MultiFab) (b i : nat)
    (Hwf : mypc_wf wx mypc) :
  let s0 := ParticleBoundaryBuffer_ctor wx in
  let s1 := (gatherParticles s0 wx mypc distance_to_eb).1 in
  isDefined (slot s1 b i) = true
  ↔ b < numBoundaries wx
    ∧ i < length (getSpeciesNames wx)
    ∧ configured wx b i ≠ 0%Z
    ∧ (b < 2 * AMREX_SPACEDIM (WARPX_DIM wx) → isPeriodic (Geom wx 0) (b / 2) = false).
Proof.
  intros s0 s1.
  pose proof (pbb_inv_ctor wx mypc) as Hinv. fold s0 in Hinv.
  destruct (gatherParticles_tiles wx s0 mypc distance_to_eb b i Hinv Hwf)
    as (_ & Hdef & _). cbv zeta in Hdef. fold s1 in Hdef. rewrite Hdef.
  destruct (ctor_spec wx) as (_ & _ & Hnames & _ & _ & Hflag & _).
  cbv zeta in Hnames, Hflag. fold s0 in Hnames, Hflag.
  assert (numSpecies s0 = length (getSpeciesNames wx)) as Hns
    by (unfold numSpecies; by rewrite Hnames).
  pose proof (pbb_inv_in_range wx mypc s0 b i Hinv) as Hr. rewrite Hns in Hr.
  pose proof (pbb_inv_length wx mypc s0 Hinv) as Hlen.
  unfold s0 at 1. rewrite slot_ctor. unfold face_active, eb_active.
  rewrite Hns, Hlen, Hr. unfold numBoundaries in *.
  split.
  - intros [Hd|[(Hb & Hper & Hi & Hf & Hb' & _)|(Heb & Hb & Hi & Hf & Hb' & _)]]; [done|..].
    + rewrite Hflag in Hf by done. done.
    + rewrite Hflag in Hf by done. split_and!; [done..|]. rewrite Heb in Hb. lia.
  - intros (Hb & Hi & Hc & Hper). rewrite <-Hflag in Hc by done. right.
    destruct (decide (b < 2 * AMREX_SPACEDIM (WARPX_DIM wx))) as [Hlt|Hge].
    + left. split_and!; [done|by apply Hper|done..].
    + right. destruct (AMREX_USE_EB wx); [|lia]. split_and!; [done|lia|done..].
Qed.

Lemma first_gather_defines_the_configured_buffers_witness :
  isDefined (slot Example.s1 0 0) = true ∧ isDefined (slot Example.s1 2 0) = false.
Proof.
  assert (mypc_wf Example.wx Example.mypc) as Hwf
    by (apply mypc_wf_check_sound; vm_compute; reflexivity).
  split.
  - apply (first_gather_defines_the_configured_buffers Example.wx Example.mypc
             Example.distance_to_eb 0 0 Hwf).
    split_and!; [vm_compute; lia|vm_compute; lia|vm_compute; discriminate|].
    intros _. vm_compute. reflexivity.
  - destruct (isDefined (slot Example.s1 2 0)) eqn:E; [|reflexivity].
    apply (first_gather_defines_the_configured_buffers Example.wx Example.mypc
             Example.distance_to_eb 2 0 Hwf) in E as (_ & _ & _ & Hper).
    specialize (Hper ltac:(vm_compute; lia)). vm_compute in Hper. discriminate.
Defined.


(** ** Counting the particles of a container *)

Section wsum.
Context `{Countable K}.

Lemma wsum_empty {A} (w : K → A → nat) : wsum w ∅ = 0.
Proof. unfold wsum. by rewrite map_to_list_empty. Qed.

Lemma wsum_insert {A} (w : K → A → nat) (m : gmap K A) k x :
  m !! k = None → wsum w (<[k := x]> m) = w k x + wsum w m.
Proof.
  intros Hk. unfold wsum.
  rewrite (sum_list_with_Permutation_proper id _ _
             (fmap_Permutation _ _ _ (map_to_list_insert m k x Hk))).
  done.
Qed.

Lemma wsum_delete {A} (w : K → A → nat) (m : gmap K A) k :
  wsum w m = wat w m k + wsum w (delete k m).
Proof.
  unfold wat. destruct (m !! k) as [x|] eqn:Hk; simpl.
  - rewrite <-(insert_delete_id m k x Hk) at 1.
    rewrite wsum_insert by apply lookup_delete_eq. done.
  - by rewrite delete_id.
Qed.

Lemma wsum_zero {A} (w : K → A → nat) (m : gmap K A) :
  (∀ k, wat w m k = 0) → wsum w m = 0.
Proof.
  induction m as [|k x m Hk _ IH] using map_first_key_ind; intros Hz.
  - apply wsum_empty.
  - rewrite wsum_insert by done.
    pose proof (Hz k) as Hzk. unfold wat in Hzk. rewrite lookup_insert_eq in Hzk.
    simpl in Hzk. rewrite Hzk, IH; [done|].
    intros k'. specialize (Hz k'). unfold wat in *.
    destruct (decide (k' = k)) as [->|Hne]; [by rewrite Hk|].
    by rewrite lookup_insert_ne in Hz.
Qed.

Lemma wat_delete {A} (w : K → A → nat) (m : gmap K A) k k' :
  wat w (delete k m) k' = if decide (k' = k) then 0 else wat w m k'.
Proof.
  unfold wat. destruct (decide (k' = k)) as [->|Hne].
  - by rewrite lookup_delete_eq.
  - by rewrite lookup_delete_ne.
Qed.

Lemma wsum_add {A B C} (w' : K → A → nat) (w : K → B → nat) (a : K → C → nat)
    (m' : gmap K A) (m : gmap K B) (s : gmap K C) :
  (∀ k, wat w' m' k = wat w m k + wat a s k) → wsum w' m' = wsum w m + wsum a s.
Proof.
  revert m s. induction m' as [|k x m' Hk _ IH] using map_first_key_ind; intros m s Heq.
  - rewrite wsum_empty, (wsum_zero w m), (wsum_zero a s); [done|..];
      intros k; specialize (Heq k); unfold wat in Heq at 1;
      rewrite lookup_empty in Heq; simpl in Heq; lia.
  - rewrite wsum_insert by done.
    rewrite (wsum_delete w m k), (wsum_delete a s k).
    pose proof (Heq k) as Hkk. unfold wat in Hkk at 1. rewrite lookup_insert_eq in Hkk.
    simpl in Hkk. rewrite (IH (delete k m) (delete k s)); [lia|].
    intros k'. rewrite !wat_delete. destruct (decide (k' = k)) as [->|Hne].
    + unfold wat. by rewrite Hk.
    + rewrite <-Heq. unfold wat. by rewrite lookup_insert_ne.
Qed.
End wsum.


Lemma GetParticles_ge c lev : numLevels c ≤ lev → GetParticles c lev = ∅.
Proof.
  intros Hl. unfold GetParticles. rewrite list_lookup_total_alt.
  by rewrite lookup_ge_None_2.
Qed.

Lemma sum_list_fmap_add {A} (f g : A → nat) (l : list A) :
  sum_list ((λ x, f x + g x) <$> l) = sum_list (f <$> l) + sum_list (g <$> l).
Proof.
  induction l as [|x l IH]; [done|]. rewrite !fmap_cons. cbn [sum_list_with].
  rewrite IH. unfold id. lia.
Qed.

Lemma sum_list_seq_extend (f : nat → nat) n N :
  n ≤ N → (∀ i, n ≤ i → f i = 0) →
  sum_list (f <$> seq 0 N) = sum_list (f <$> seq 0 n).
Proof.
  intros Hn Hz. replace N with (n + (N - n)) by lia.
  rewrite seq_app, fmap_app, sum_list_with_app.
  rewrite (sum_list_zero f (seq (0 + n) (N - n))); [lia|].
  intros i Hi%elem_of_seq. apply Hz. lia.
Qed.

Lemma TotalNumberOfParticles_levels c only_local N :
  numLevels c ≤ N →
  TotalNumberOfParticles c false only_local
  = Z.of_nat (sum_list (level_total c <$> seq 0 N)).
Proof.
  intros HN. unfold TotalNumberOfParticles. f_equal.
  rewrite (sum_list_seq_extend _ (numLevels c)); [|done|].
  - f_equal. symmetry. unfold numLevels. apply fmap_seq_lookup_total. intros i Hi. simpl.
    unfold level_total, wsum, GetParticles. by rewrite <-list_fmap_compose.
  - intros i Hi. unfold level_total. rewrite GetParticles_ge by done. apply wsum_empty.
Qed.

Lemma num_matched_levels predicate pc N :
  numLevels pc ≤ N →
  num_matched predicate pc
  = sum_list ((λ lev, wsum (λ index ptile, length (matched (predicate lev index) ptile))
                        (GetParticles pc lev)) <$> seq 0 N).
Proof.
  intros HN. unfold num_matched. symmetry. apply sum_list_seq_extend; [done|].
  intros i Hi. rewrite GetParticles_ge by done. apply wsum_empty.
Qed.

Lemma gathered_buffer_levels wx predicate transform pc buf :
  (isDefined buf = false → buf = undefined_container) →
  numLevels buf ≤ numLevels (gathered_buffer wx predicate transform pc buf).
Proof.
  intros Hu. unfold gathered_buffer.
  destruct (gather_levels_spec wx predicate transform pc
              (if isDefined buf then buf else AddIntComp (make_alike pc) "timestamp" false))
    as [(_ & _ & _ & Hl) _]. cbv zeta in Hl. rewrite Hl.
  destruct (isDefined buf) eqn:E; [done|]. rewrite Hu by done. unfold numLevels; simpl. lia.
Qed.

Lemma gathered_buffer_total wx predicate transform
    (T : nat → nat * nat → SuperParticle → SuperParticle) pc buf only_local :
  (∀ lev index, good_transform (PIdx_nattribs wx) (NumRuntimeRealComps pc)
                  (NumRuntimeIntComps_pc pc) (transform lev index) (T lev index)) →
  container_wf (PIdx_nattribs wx) pc →
  buffer_inv (PIdx_nattribs wx) pc buf →
  TotalNumberOfParticles (gathered_buffer wx predicate transform pc buf) false only_local
  = (TotalNumberOfParticles buf false only_local + Z.of_nat (num_matched predicate pc))%Z.
Proof.
  intros Hgood Hpc Hinv.
  destruct (gathered_buffer_spec wx predicate transform T pc buf Hgood Hpc Hinv)
    as (Hd & [_ Hinv'] & _ & Hp). cbv zeta in Hd, Hinv', Hp.
  pose proof (gathered_buffer_levels wx predicate transform pc buf (proj1 Hinv)) as Hl.
  set (buf' := gathered_buffer wx predicate transform pc buf) in *.
  destruct (Hinv' Hd) as (_ & _ & Hlpc & _).
  rewrite (TotalNumberOfParticles_levels buf' only_local (numLevels buf')) by done.
  rewrite (TotalNumberOfParticles_levels buf only_local (numLevels buf')) by done.
  rewrite (num_matched_levels predicate pc (numLevels buf')) by done.
  rewrite <-Nat2Z.inj_add. f_equal. rewrite <-sum_list_fmap_add. f_equal.
  apply list_fmap_ext. intros _ lev _. unfold level_total. apply wsum_add.
  intros index. specialize (Hp lev index). apply (f_equal length) in Hp.
  rewrite length_app, !length_particles in Hp. unfold ParticlesAt in Hp. unfold wat.
  destruct (GetParticles buf' lev !! index), (GetParticles buf lev !! index),
    (GetParticles pc lev !! index); simpl in *; rewrite ?length_fmap in Hp;
    change (numParticles empty_tile) with 0 in *; lia.
Qed.


Lemma cast_int_small z : (0 ≤ z < 2147483648)%Z → cast_int z = z.
Proof. intros Hz. unfold cast_int. rewrite Z.mod_small; lia. Qed.

Lemma TotalNumberOfParticles_nonneg c only_valid only_local :
  (0 ≤ TotalNumberOfParticles c only_valid only_local)%Z.
Proof. unfold TotalNumberOfParticles. lia. Qed.

Lemma getNumParticlesInContainer_inv wx mypc this species_name b local :
  pbb_inv wx mypc this →
  getNumParticlesInContainer this wx species_name b local
  = cast_int (TotalNumberOfParticles (slot this b (getSpeciesID wx species_name)) false local).
Proof.
  intros [_ Hinv]. unfold getNumParticlesInContainer.
  change ((m_particle_containers this !!! b) !!! getSpeciesID wx species_name)
    with (slot this b (getSpeciesID wx species_name)).
  destruct (isDefined (slot this b (getSpeciesID wx species_name))) eqn:Hd; [done|].
  destruct (Hinv b (getSpeciesID wx species_name)) as [Hu _]. by rewrite Hu.
Qed.

(** X11. One [gatherParticles] increases the number of particles of a
    buffer by exactly the number of particles its predicate matches in the
    species container, summed over levels and tiles (0 for a pair that is
    not visited); [getNumParticlesInContainer] grows by the same number as
    long as the total stays below 2^31. *)
Theorem gather_count_grows_by_the_matches (wx : WarpX) (this : ParticleBoundaryBuffer)
    (mypc : list ParticleContainer) (distance_to_eb : list MultiFab)
    (species_name : string) (b : nat) (local : bool)
    (Hinv : pbb_inv wx mypc this) (Hwf : mypc_wf wx mypc) :
  let i := getSpeciesID wx species_name in
  let this' := (gatherParticles this wx mypc distance_to_eb).1 in
  let plo := ProbLoArray (Geom wx 0) in
  let phi := ProbHiArray (Geom wx 0) in
  let at_face :=
    if decide (face_active wx this b i)
    then num_matched (domain_predicate plo phi (b / 2) (b mod 2)) (mypc !!! i) else 0 in
  let at_eb :=
    if decide (eb_active wx this b i)
    then num_matched (eb_predicate wx distance_to_eb plo) (mypc !!! i) else 0 in
  TotalNumberOfParticles (slot this' b i) false local
  = (TotalNumberOfParticles (slot this b i) false local + Z.of_nat (at_face + at_eb))%Z
  ∧ ((TotalNumberOfParticles (slot this' b i) false local < 2147483648)%Z →
     getNumParticlesInContainer this' wx species_name b local
     = (getNumParticlesInContainer this wx species_name b local
        + Z.of_nat (at_face + at_eb))%Z).
Proof.
  intros i this' plo phi at_face at_eb. subst at_face at_eb this'. revert i. intros i.
  set (this' := (gatherParticles this wx mypc distance_to_eb).1).
  set (at_face := if decide (face_active wx this b i) then _ else 0).
  set (at_eb := if decide (eb_active wx this b i) then _ else 0).
  assert (TotalNumberOfParticles (slot this' b i) false local
          = (TotalNumberOfParticles (slot this b i) false local
             + Z.of_nat (at_face + at_eb))%Z) as Htot.
  { destruct (gatherParticles_spec wx this mypc distance_to_eb) as (_ & _ & Hg).
    cbv zeta in Hg. unfold this'. rewrite Hg. unfold at_face, at_eb.
    destruct (decide (face_active wx this b i)) as [Hf|Hf].
    - rewrite !(decide_False (P := eb_active wx this b i))
        by (intros He; exact (active_exclusive _ _ _ _ _ Hinv Hf He)).
      cbv beta iota. rewrite Nat.add_0_r. unfold face_gathered.
      apply (gathered_buffer_total wx _ _ (λ _ _, stamp (getistep wx 0)));
        [|apply Hwf|apply Hinv].
      intros lev index. apply domain_transform_good.
    - destruct (decide (eb_active wx this b i)) as [He|He].
      + cbv beta iota. rewrite Nat.add_0_l. unfold eb_gathered.
        apply (gathered_buffer_total wx _ _ (eb_stored wx distance_to_eb));
          [|apply Hwf|apply Hinv].
        intros lev index. apply eb_transform_good.
      + simpl. lia. }
  split; [done|]. intros Hsmall.
  pose proof (gatherParticles_inv wx this mypc distance_to_eb Hinv Hwf) as Hinv'.
  rewrite (getNumParticlesInContainer_inv wx mypc _ _ _ _ Hinv').
  rewrite (getNumParticlesInContainer_inv wx mypc _ _ _ _ Hinv).
  fold i. fold this'.
  pose proof (TotalNumberOfParticles_nonneg (slot this b i) false local).
  rewrite !cast_int_small by lia. done.
Qed.

Lemma gather_count_grows_by_the_matches_witness :
  getNumParticlesInContainer Example.s0 Example.wx "electrons" 0 false = 0%Z
  ∧ num_matched (domain_predicate [0; 0; 0]%Q [10; 10; 10]%Q 0 0) Example.electrons = 2
  ∧ getNumParticlesInContainer Example.s1 Example.wx "electrons" 0 false = 2%Z.
Proof.
  destruct (gather_count_grows_by_the_matches Example.wx Example.s0 Example.mypc
              Example.distance_to_eb "electrons" 0 false) as [_ H].
  - apply pbb_inv_ctor.
  - apply mypc_wf_check_sound. vm_compute. reflexivity.
  - split; [vm_compute; reflexivity|]. split; [vm_compute; reflexivity|].
    unfold Example.s1. rewrite H by (vm_compute; reflexivity). vm_compute. reflexivity.
Defined.


Lemma matched_eb wx distance_to_eb lev index ptile :
  matched (eb_predicate wx distance_to_eb (ProbLoArray (Geom wx 0)) lev index) ptile
  = filter (λ ip, (sampled_distance wx distance_to_eb lev index ptile ip < 0)%Q)
      (seq 0 (numParticles ptile)).
Proof.
  unfold matched, eb_predicate, sampled_distance. apply list_filter_iff. intros ip.
  destruct (GetParticlePosition wx ptile ip) as [[xp yp] zp].
  destruct (Real_lt _ 0) eqn:E.
  - apply Real_lt_spec in E. done.
  - split; [done|]. intros H%Real_lt_spec. congruence.
Qed.

Lemma filter_none {A} (P : A → Prop) `{∀ x, Decision (P x)} (l : list A) :
  (∀ x, x ∈ l → ¬ P x) → filter P l = [].
Proof.
  induction l as [|x l IH]; intros Hn; [done|].
  rewrite filter_cons_False by (apply Hn, elem_of_cons; by left).
  apply IH. intros y Hy. apply Hn, elem_of_cons. by right.
Qed.

Lemma eb_active_intro wx mypc this i :
  pbb_inv wx mypc this → AMREX_USE_EB wx = true → i < numSpecies this →
  flag this (2 * AMREX_SPACEDIM (WARPX_DIM wx)) i ≠ 0%Z →
  eb_active wx this (2 * AMREX_SPACEDIM (WARPX_DIM wx)) i.
Proof.
  intros Hinv Heb Hi Hf. split_and!; [done| |done|done|].
  - rewrite (pbb_inv_length _ _ _ Hinv). unfold numBoundaries. rewrite Heb. lia.
  - apply (pbb_inv_in_range wx mypc); [done|]. split; [|done].
    unfold numBoundaries. rewrite Heb. lia.
Qed.

(** X9. For an active embedded-boundary pair, one [gatherParticles]
    appends to the buffer tile, in source order, one particle for every
    source particle whose sampled signed distance is strictly negative,
    and nothing else: when every particle of the tile has a signed
    distance of 0 or more the tile keeps its particles. *)
Theorem gather_eb_appends_the_particles_behind_the_boundary (wx : WarpX)
    (this : ParticleBoundaryBuffer) (mypc : list ParticleContainer)
    (distance_to_eb : list MultiFab) (i lev : nat) (index : nat * nat)
    (ptile : ParticleTile)
    (Hinv : pbb_inv wx mypc this) (Hwf : mypc_wf wx mypc)
    (Heb : AMREX_USE_EB wx = true) (Hi : i < numSpecies this)
    (Hflag : flag this (2 * AMREX_SPACEDIM (WARPX_DIM wx)) i ≠ 0%Z)
    (Hsrc : GetParticles (mypc !!! i) lev !! index = Some ptile) :
  let eb := 2 * AMREX_SPACEDIM (WARPX_DIM wx) in
  let this' := (gatherParticles this wx mypc distance_to_eb).1 in
  let behind := λ ip, (sampled_distance wx distance_to_eb lev index ptile ip < 0)%Q in
  let old := particles (ParticlesAt (slot this eb i) lev index) in
  let new := particles (ParticlesAt (slot this' eb i) lev index) in
  new = old ++ ((λ ip, eb_stored wx distance_to_eb lev index (getSuperParticle ptile ip))
                  <$> filter behind (seq 0 (numParticles ptile)))
  ∧ length new = length old + length (filter behind (seq 0 (numParticles ptile)))
  ∧ ((∀ ip, ip < numParticles ptile →
            (0 <= sampled_distance wx distance_to_eb lev index ptile ip)%Q) →
     new = old).
Proof.
  intros eb this' behind old new.
  destruct (gatherParticles_tiles wx this mypc distance_to_eb eb i Hinv Hwf)
    as (_ & _ & _ & _ & Hp).
  assert (eb_active wx this eb i) as Hact by (by apply (eb_active_intro wx mypc)).
  assert (new = old ++ ((λ ip, eb_stored wx distance_to_eb lev index
                                 (getSuperParticle ptile ip))
                          <$> filter behind (seq 0 (numParticles ptile)))) as Hnew.
  { unfold new, old, this'. rewrite Hp.
    rewrite decide_False by (intros Hf; exact (active_exclusive _ _ _ _ _ Hinv Hf Hact)).
    rewrite decide_True by done. simpl. unfold eb_appended. rewrite Hsrc.
    by rewrite matched_eb. }
  split; [done|]. split; [by rewrite Hnew, length_app, length_fmap|].
  intros Hout. rewrite Hnew.
  replace (filter behind (seq 0 (numParticles ptile))) with (@nil nat);
    [by rewrite app_nil_r|].
  symmetry. apply filter_none. intros ip Hip%elem_of_seq Hb.
  apply (Qlt_not_le _ _ Hb). apply Hout. lia.
Qed.

Lemma gather_eb_appends_the_particles_behind_the_boundary_witness :
  particles (ParticlesAt (slot Example.s1 6 0) 0 (0, 0))
  = particles (ParticlesAt (slot Example.s0 6 0) 0 (0, 0))
    ++ ((λ ip, eb_stored Example.wx Example.distance_to_eb 0 (0, 0)
                 (getSuperParticle Example.electrons_tile ip))
          <$> filter (λ ip, Qlt (sampled_distance Example.wx Example.distance_to_eb 0 (0, 0)
                                   Example.electrons_tile ip) 0%Q) (seq 0 4)).
Proof.
  destruct (gather_eb_appends_the_particles_behind_the_boundary Example.wx Example.s0
              Example.mypc Example.distance_to_eb 0 0 (0, 0) Example.electrons_tile)
    as (H & _).
  - apply pbb_inv_ctor.
  - apply mypc_wf_check_sound. vm_compute. reflexivity.
  - reflexivity.
  - vm_compute. lia.
  - vm_compute. discriminate.
  - vm_compute. reflexivity.
  - exact H.
Defined.


Lemma set_position_row_reduced wx x y z r :
  let r' := set_position_row wx (x, y, z) r in
  (WARPX_DIM wx = DIM_XZ → 2 ≤ length r → r' !!! 0 = x ∧ r' !!! 1 = z)
  ∧ (WARPX_DIM wx = DIM_1D_Z → 1 ≤ length r → r' !!! 0 = z)
  ∧ (WARPX_DIM wx = DIM_RZ → 2 ≤ PIdx_theta wx < length r →
     r' !!! 0 = std_sqrt wx (x * x + y * y)%Q
     ∧ r' !!! PIdx_theta wx = std_atan2 wx y x
     ∧ r' !!! 1 = z).
Proof.
  cbv zeta. unfold set_position_row. split_and!; intros Hd Hl; rewrite Hd.
  - destruct r as [|a [|b r]]; simpl in Hl; try lia. done.
  - destruct r as [|a r]; simpl in Hl; try lia. done.
  - split_and!.
    + rewrite list_lookup_total_insert_ne by lia.
      rewrite list_lookup_total_insert_ne by lia.
      rewrite list_lookup_total_insert_eq by lia. done.
    + rewrite list_lookup_total_insert_ne by lia.
      rewrite list_lookup_total_insert_eq by (rewrite length_insert; lia). done.
    + rewrite list_lookup_total_insert_eq by (rewrite !length_insert; lia). done.
Qed.

(** X10. In the builds with fewer than three dimensions the crossing
    point (x, y, z) is stored as the build has it: (x, z) in XZ, z alone
    in 1D, and in RZ the radius sqrt(x*x + y*y), z and the angle
    atan2(y, x) in the component theta (when theta is not one of the two
    position components). *)
Theorem eb_position_in_reduced_dimensions (wx : WarpX)
    (this : ParticleBoundaryBuffer) (mypc : list ParticleContainer)
    (distance_to_eb : list MultiFab) (b i lev : nat) (index : nat * nat)
    (ptile : ParticleTile)
    (Hinv : pbb_inv wx mypc this) (Hwf : mypc_wf wx mypc)
    (Hsrc : GetParticles (mypc !!! i) lev !! index = Some ptile)
    (Hact : eb_active wx this b i) :
  let this' := (gatherParticles this wx mypc distance_to_eb).1 in
  let NAR := PIdx_nattribs wx in
  let old := particles (ParticlesAt (slot this b i) lev index) in
  let new := particles (ParticlesAt (slot this' b i) lev index) in
  ∃ stored, new = old ++ stored
    ∧ Forall2 (λ ip dp,
        let '(x, y, z) :=
          intersection wx (getdt wx lev) ((distance_to_eb !!! lev) index.1)
            (InvCellSizeArray (Geom wx lev)) (ProbLoArray (Geom wx 0))
            (stamp (getistep wx 0) (getSuperParticle ptile ip)) in
        (WARPX_DIM wx = DIM_XZ → 2 ≤ NAR → pos dp 0 = x ∧ pos dp 1 = z)
        ∧ (WARPX_DIM wx = DIM_1D_Z → 1 ≤ NAR → pos dp 0 = z)
        ∧ (WARPX_DIM wx = DIM_RZ → 2 ≤ PIdx_theta wx < NAR →
           pos dp 0 = std_sqrt wx (x * x + y * y)%Q
           ∧ sp_rdata dp !!! PIdx_theta wx = std_atan2 wx y x
           ∧ pos dp 1 = z))
      (matched (eb_predicate wx distance_to_eb (ProbLoArray (Geom wx 0)) lev index) ptile)
      stored.
Proof.
  intros this' NAR old new.
  destruct (gatherParticles_tiles wx this mypc distance_to_eb b i Hinv Hwf)
    as (_ & _ & _ & _ & Hp).
  eexists. split.
  - unfold new, old, this'. rewrite Hp.
    rewrite decide_False by (intros Hf; exact (active_exclusive _ _ _ _ _ Hinv Hf Hact)).
    rewrite decide_True by done. simpl. unfold eb_appended. rewrite Hsrc. done.
  - apply Forall2_fmap_r, Forall_Forall2_diag, Forall_forall. intros ip _. unfold compose. cbv beta.
    unfold pos, eb_stored, move_to_intersection, sp_set_rdata. cbn [sp_rdata].
    destruct (intersection _ _ _ _ _ _) as [[x y] z].
    destruct (Hwf i lev index ptile Hsrc) as [(Hl & _ & _) _].
    assert (length (sp_rdata (stamp (getistep wx 0) (getSuperParticle ptile ip))) = NAR)
      as Hlen by (simpl; by rewrite length_fmap).
    pose proof (set_position_row_reduced wx x y z
                  (sp_rdata (stamp (getistep wx 0) (getSuperParticle ptile ip)))) as Hrow.
    cbv zeta in Hrow. rewrite Hlen in Hrow. exact Hrow.
Qed.

Lemma eb_position_in_reduced_dimensions_witness :
  let s0 := ParticleBoundaryBuffer_ctor Example.wx_xz in
  let s1 := (gatherParticles s0 Example.wx_xz Example.mypc_xz Example.distance_to_eb).1 in
  ∃ dp, particles (ParticlesAt (slot s1 4 0) 0 (0, 0)) = [dp]
    ∧ (pos dp 0 == 8 ∧ pos dp 1 == 5)%Q.
Proof.
  cbv zeta.
  assert (mypc_wf Example.wx_xz Example.mypc_xz) as Hwf
    by (apply mypc_wf_check_sound; vm_compute; reflexivity).
  destruct (eb_position_in_reduced_dimensions Example.wx_xz
              (ParticleBoundaryBuffer_ctor Example.wx_xz) Example.mypc_xz
              Example.distance_to_eb 4 0 0 (0, 0)
              (mkTile [9223372036871553024]%Z [[17 # 2]; [5]; [1]; [1]; [1]; [0]]%Q []
                 [[3]]%Z) (pbb_inv_ctor _ _) Hwf)
    as (stored & Heq & Hall).
  - vm_compute. reflexivity.
  - vm_compute. split_and!; (lia || done).
  - rewrite slot_ctor, particles_undefined, app_nil_l in Heq.
    replace (matched _ _) with [0] in Hall by (vm_compute; reflexivity).
    apply Forall2_cons_inv_l in Hall as (dp & rest & Hdp & Hnil & ->).
    apply Forall2_nil_inv_l in Hnil as ->.
    exists dp. split; [exact Heq|].
    lazymatch type of Hdp with
    | context [intersection ?a ?b ?c ?d ?e ?f] =>
        remember (intersection a b c d e f) as P eqn:HP in Hdp
    end.
    vm_compute in HP. subst P. destruct Hdp as (Hxz & _).
    destruct (Hxz eq_refl ltac:(vm_compute; lia)) as [-> ->]. vm_compute. repeat split.
Defined.


Lemma for_loop_snoc {A} n (f : nat → A) out :
  for_loop n (λ i out, out ++ [f i]) out = out ++ (f <$> seq 0 n).
Proof.
  induction n as [|n IH]; [by rewrite for_loop_0, app_nil_r|].
  by rewrite for_loop_S, IH, seq_S, fmap_app, app_assoc.
Qed.

Lemma for_loop_sides {St} n (G : nat → nat → St → St) s :
  for_loop n (λ idim s, for_loop 2 (λ iside s, G idim iside s) s) s
  = for_loop (2 * n) (λ b s, G (b / 2) (b mod 2) s) s.
Proof.
  assert (∀ k side, side < 2 → (2 * k + side) / 2 = k ∧ (2 * k + side) mod 2 = side) as Hdm.
  { intros k side Hs. pose proof (Nat.div_mod_eq (2 * k + side) 2).
    pose proof (Nat.mod_upper_bound (2 * k + side) 2). lia. }
  induction n as [|n IH]; [done|].
  replace (2 * S n) with (S (S (2 * n))) by lia.
  rewrite !for_loop_S, for_loop_0, IH.
  destruct (Hdm n 0 ltac:(lia)) as [H1 H2]. destruct (Hdm n 1 ltac:(lia)) as [H3 H4].
  rewrite Nat.add_0_r in H1, H2. replace (S (2 * n)) with (2 * n + 1) by lia.
  by rewrite H1, H2, H3, H4.
Qed.

Lemma for_loop_blocks {A} n m (g : nat → nat → A) (body : nat → list A → list A) out0 :
  (∀ j out, j < n → body j out = out ++ (g j <$> seq 0 m)) →
  let out := for_loop n body out0 in
  length out = length out0 + n * m
  ∧ (∀ k, k < length out0 → out !! k = out0 !! k)
  ∧ ∀ j i, j < n → i < m → out !! (length out0 + j * m + i) = Some (g j i).
Proof.
  intros Hbody. cbv zeta.
  set (P := λ n (out : list A),
    length out = length out0 + n * m
    ∧ (∀ k, k < length out0 → out !! k = out0 !! k)
    ∧ ∀ j i, j < n → i < m → out !! (length out0 + j * m + i) = Some (g j i)).
  apply (for_loop_ind P n body out0); unfold P.
  - split; [lia|]. split; [done|]. intros; lia.
  - intros j out Hj (Hl & Hold & Hnew). rewrite Hbody by done.
    split; [rewrite length_app, length_fmap, length_seq; lia|]. split.
    + intros k Hk. rewrite lookup_app_l by lia. by apply Hold.
    + intros j' i Hj' Hi. destruct (decide (j' = j)) as [->|Hne].
      * rewrite lookup_app_r by lia.
        replace (length out0 + j * m + i - length out) with i by lia.
        by rewrite list_lookup_fmap, lookup_seq_lt.
      * rewrite lookup_app_l by nia. apply Hnew; [lia|done].
Qed.


(** X14. [printNumParticles] prints one line per boundary and species:
    first the faces in index order (side and dimension in the text), within
    a face the species in index order, then, with embedded boundaries, one
    line per species for the embedded boundary.  The count in a line is the
    number of particles of the buffer, particles with a negative id
    included, and 0 for a buffer that is not defined. *)
Theorem printNumParticles_lists_every_buffer (this : ParticleBoundaryBuffer) (wx : WarpX) :
  let ns := numSpecies this in
  let faces := 2 * AMREX_SPACEDIM (WARPX_DIM wx) in
  let out := printNumParticles this wx in
  length out = numBoundaries wx * ns
  ∧ (∀ b i, b < faces → i < ns → out !! (b * ns + i) = Some (face_line this b i))
  ∧ (AMREX_USE_EB wx = true →
     ∀ i, i < ns → out !! (faces * ns + i) = Some (eb_line this faces i)).
Proof.
  intros ns faces out. unfold out, printNumParticles. cbv zeta.
  rewrite (for_loop_sides (AMREX_SPACEDIM (WARPX_DIM wx))
             (λ idim iside out,
                for_loop (numSpecies this) (λ i out,
                  out ++ ["Species " +:+ (m_species_names this !!! i) +:+ " has "
                    +:+ pretty (if isDefined ((m_particle_containers this
                                                 !!! (2 * idim + iside)) !!! i)
                                then TotalNumberOfParticles
                                       ((m_particle_containers this
                                           !!! (2 * idim + iside)) !!! i) false false
                                else 0%Z)
                    +:+ " particles in the boundary buffer "
                    +:+ "for side " +:+ pretty iside +:+ " of dim " +:+ pretty idim])
                  out)).
  fold faces. fold ns.
  destruct (for_loop_blocks faces ns (face_line this)
              (λ b out,
                 for_loop ns (λ i out,
                   out ++ ["Species " +:+ (m_species_names this !!! i) +:+ " has "
                     +:+ pretty (if isDefined ((m_particle_containers this
                                                  !!! (2 * (b / 2) + b mod 2)) !!! i)
                                 then TotalNumberOfParticles
                                        ((m_particle_containers this
                                            !!! (2 * (b / 2) + b mod 2)) !!! i) false false
                                 else 0%Z)
                     +:+ " particles in the boundary buffer "
                     +:+ "for side " +:+ pretty (b mod 2) +:+ " of dim " +:+ pretty (b / 2)])
                   out) [])
    as (Hlen & _ & Hlook).
  { intros b o Hb. rewrite <-(Nat.div_mod_eq b 2).
    exact (for_loop_snoc ns (face_line this b) o). }
  set (o := for_loop faces _ []) in *. simpl in Hlen, Hlook.
  assert (numBoundaries wx = faces + (if AMREX_USE_EB wx then 1 else 0)) as Hnb
    by (unfold numBoundaries, faces; lia).
  destruct (AMREX_USE_EB wx) eqn:Heb.
  - change (for_loop ns _ o) with
      (for_loop ns (λ i out, out ++ [eb_line this faces i]) o).
    rewrite for_loop_snoc. split; [|split].
    + rewrite length_app, length_fmap, length_seq, Hlen, Hnb. lia.
    + intros b i Hb Hi. rewrite lookup_app_l by nia. by apply Hlook.
    + intros _ i Hi. rewrite lookup_app_r by lia.
      replace (faces * ns + i - length o) with i by lia.
      by rewrite list_lookup_fmap, lookup_seq_lt.
  - split; [rewrite Hlen, Hnb; lia|]. split; [|done].
    intros b i Hb Hi. by apply Hlook.
Qed.


(** X15. [getSpeciesNames] reads the input table on the first call of the
    process only, into the still empty list of the object it is called
    on: every later call on the same object returns the names read then,
    whatever the table says by then, and every call on another object
    returns that object's own list without reading the table. *)
Theorem getSpeciesNames_reads_the_table_once (this other : ParticleBoundaryBuffer)
    (wx : WarpX) (tables : list WarpX)
    (Hfresh : m_species_names this = []) :
  let '(names, initialized, this1) := getSpeciesNames_static false this wx in
  names = queryarr_species_names wx
  ∧ getSpeciesNames_calls initialized this1 tables = replicate (length tables) names
  ∧ getSpeciesNames_calls initialized other tables
    = replicate (length tables) (m_species_names other).
Proof.
  simpl. split; [done|].
  assert (∀ t, getSpeciesNames_calls true t tables
               = replicate (length tables) (m_species_names t)) as Hcalls.
  { intros t. induction tables as [|wx' tables IH]; [done|]. simpl. by rewrite IH. }
  split; [by rewrite Hcalls|apply Hcalls].
Qed.

Lemma getSpeciesNames_reads_the_table_once_witness :
  let this := mkPBB [] [] [] [] [] in
  let this1 := (getSpeciesNames_static false this Example.wx).2 in
  getSpeciesNames_calls true this1 [Example.periodic_wx; Example.wx_xz]
  = [["electrons"; "ions"]; ["electrons"; "ions"]]%string
  ∧ getSpeciesNames_calls true this [Example.wx; Example.wx] = [[]; []].
Proof.
  cbv zeta.
  pose proof (getSpeciesNames_reads_the_table_once (mkPBB [] [] [] [] [])
                (mkPBB [] [] [] [] []) Example.wx [Example.periodic_wx; Example.wx_xz]
                eq_refl) as H.
  pose proof (getSpeciesNames_reads_the_table_once (mkPBB [] [] [] [] [])
                (mkPBB [] [] [] [] []) Example.wx [Example.wx; Example.wx] eq_refl) as H'.
  simpl in H, H'. destruct H as (_ & H & _). destruct H' as (_ & _ & H').
  split; [exact H|exact H'].
Defined.


Lemma reachable_config wx mypc this :
  reachable wx mypc this →
  same_config (ParticleBoundaryBuffer_ctor wx) this
  ∧ ∀ b i, isDefined (slot this b i) = true → flag this b i ≠ 0%Z ∧ in_range this b i.
Proof.
  induction 1 as [|this wx' mypc' eb Hrun [IHc IHd] Hb Hs Hwf
                  |this wx' Hrun [IHc IHd]|this k Hrun [IHc IHd]|this wx' Hrun [IHc IHd]].
  - split; [apply same_config_refl|]. intros b i. by rewrite slot_ctor.
  - destruct (gatherParticles_spec wx' this mypc' eb) as (_ & Hc & _). cbv zeta in Hc.
    split; [by eapply same_config_trans|]. intros b i Hd.
    rewrite (same_config_flag this _ b i Hc), (same_config_in_range this _ b i Hc).
    assert (pbb_inv wx' mypc' this) as Hinv
      by (apply (pbb_inv_same_build wx mypc wx' mypc'); [done..|by apply reachable_inv]).
    destruct (gatherParticles_tiles wx' this mypc' eb b i Hinv Hwf) as (_ & Hdef & _).
    apply Hdef in Hd as [Hd|[(_ & _ & _ & ? & ?)|(_ & _ & _ & ? & ?)]]; [by apply IHd|done..].
  - destruct (clearParticles_spec this wx') as [Hc Hg].
    split; [by eapply same_config_trans|]. intros b i Hd.
    rewrite (same_config_flag this _ b i Hc), (same_config_in_range this _ b i Hc).
    apply IHd. rewrite Hg in Hd. destruct (decide _); [|done].
    by rewrite isDefined_if_defined_clear in Hd.
  - destruct (clearParticles_i_spec this k) as [Hc Hg].
    split; [by eapply same_config_trans|]. intros b i Hd.
    rewrite (same_config_flag this _ b i Hc), (same_config_in_range this _ b i Hc).
    apply IHd. rewrite Hg in Hd. destruct (decide _); [|done].
    by rewrite isDefined_if_defined_clear in Hd.
  - destruct (redistribute_spec this wx') as [Hc Hg].
    split; [by eapply same_config_trans|]. intros b i Hd.
    rewrite (same_config_flag this _ b i Hc), (same_config_in_range this _ b i Hc).
    apply IHd. rewrite Hg in Hd. destruct (decide _); [|done].
    unfold if_defined, Redistribute in Hd.
    destruct (isDefined (slot this b i)) eqn:E; [done|congruence].
Qed.

(** X16. In every state of a run (construction followed by any
    sequence of [gatherParticles], [clearParticles], [clearParticles(i)]
    and [redistribute]) the flags and species names are those the
    constructor read, there is one row of buffers per boundary, a buffer
    that is not defined is a default-constructed container, and a buffer
    that is defined belongs to a pair with a non-zero flag in the input
    table, has the run-time integer components of its species followed by
    "timestamp", and has only well-formed tiles with one more integer
    array than the species. *)
Theorem run_defines_only_configured_buffers (wx : WarpX) (mypc : list ParticleContainer)
    (this : ParticleBoundaryBuffer) (b i : nat)
    (Hrun : reachable wx mypc this) :
  m_do_boundary_buffer this = m_do_boundary_buffer (ParticleBoundaryBuffer_ctor wx)
  ∧ m_species_names this = getSpeciesNames wx
  ∧ length (m_particle_containers this) = numBoundaries wx
  ∧ (isDefined (slot this b i) = false → slot this b i = undefined_container)
  ∧ (isDefined (slot this b i) = true →
     b < numBoundaries wx
     ∧ i < length (getSpeciesNames wx)
     ∧ configured wx b i ≠ 0%Z
     ∧ runtime_icomps (slot this b i) = runtime_icomps (mypc !!! i) ++ ["timestamp"%string]
     ∧ ∀ lev index t, GetParticles (slot this b i) lev !! index = Some t →
         tile_wf (PIdx_nattribs wx) (NumRuntimeRealComps (mypc !!! i))
           (S (NumRuntimeIntComps_pc (mypc !!! i))) t).
Proof.
  destruct (reachable_config wx mypc this Hrun) as [Hc Hd].
  pose proof (reachable_inv wx mypc this Hrun) as Hinv.
  destruct (ctor_spec wx) as (_ & _ & Hnames & _ & _ & Hflag & _).
  cbv zeta in Hnames, Hflag.
  assert (numSpecies this = length (getSpeciesNames wx)) as Hns.
  { rewrite (same_config_numSpecies _ _ Hc). unfold numSpecies. by rewrite Hnames. }
  split; [apply Hc|]. split; [destruct Hc as (_ & _ & _ & -> & _); done|].
  split; [by apply (pbb_inv_length wx mypc)|].
  destruct Hinv as [Hsh Hall]. destruct (Hall b i) as [Hu Hdef].
  split; [done|]. intros Hdefd.
  destruct (Hd b i Hdefd) as [Hf Hr].
  apply (pbb_inv_in_range wx mypc this b i (conj Hsh Hall)) in Hr as [Hb Hi].
  rewrite Hns in Hi.
  destruct (Hdef Hdefd) as (Hrr & Hic & _ & Hwf).
  split_and!; [done|done| |done|].
  - rewrite <-Hflag by done. by rewrite <-(same_config_flag _ _ b i Hc).
  - intros lev index t Ht. specialize (Hwf lev index t Ht).
    unfold NumRuntimeIntComps_pc in *. rewrite Hrr, Hic, length_app in Hwf.
    simpl in Hwf. by rewrite Nat.add_1_r in Hwf.
Qed.

Lemma run_defines_only_configured_buffers_witness :
  reachable Example.wx Example.mypc Example.s1
  ∧ configured Example.wx 0 0 ≠ 0%Z
  ∧ runtime_icomps (slot Example.s1 0 0) = ["ionizationLevel"; "timestamp"]%string.
Proof.
  assert (reachable Example.wx Example.mypc Example.s1) as Hrun.
  { apply reachable_gather; [apply reachable_ctor|done|done|].
    apply mypc_wf_check_sound. vm_compute. reflexivity. }
  destruct (run_defines_only_configured_buffers Example.wx Example.mypc Example.s1 0 0 Hrun)
    as (_ & _ & _ & _ & H).
  destruct H as (_ & _ & Hc & Hic & _); [vm_compute; reflexivity|].
  split; [exact Hrun|]. split; [exact Hc|exact Hic].
Defined.

(** X1. The constructor sizes the manager for [numBoundaries] boundaries
    and the species of the input table, names the boundaries, and sets
    the flag of boundary [b] and species [i] to the value of
    "<species>.save_particles_at_<boundary>", 0 when the entry is absent.
    [m_do_any_boundary] of [b] is 1 exactly when some species has a
    non-zero flag there, and 0 exactly when none has. *)
Theorem ctor_reads_the_flags (wx : WarpX) (b i : nat)
    (Hb : b < numBoundaries wx) (Hi : i < length (getSpeciesNames wx)) :
  let this := ParticleBoundaryBuffer_ctor wx in
  let species := getSpeciesNames wx !!! i in
  let key := "save_particles_at_" +:+ (boundary_names wx !!! b) in
  numSpecies this = length (getSpeciesNames wx)
  ∧ m_boundary_names this = boundary_names wx
  ∧ length (boundary_names wx) = numBoundaries wx
  ∧ flag this b i = default 0%Z (ParmParse_query wx species key)
  ∧ (m_do_any_boundary this !!! b = 1%Z
     ↔ ∃ j, j < numSpecies this ∧ flag this b j ≠ 0%Z)
  ∧ (m_do_any_boundary this !!! b = 0%Z
     ↔ ∀ j, j < numSpecies this → flag this b j = 0%Z).
Proof.
  intros this species key.
  destruct (ctor_spec wx) as (_ & Hbn & Hnames & _ & _ & Hflag & H01 & Hany).
  cbv zeta in *. fold this in Hbn, Hnames, Hflag, H01, Hany.
  assert (numSpecies this = length (getSpeciesNames wx)) as Hns
    by (unfold numSpecies; by rewrite Hnames).
  assert (m_do_any_boundary this !!! b = 1%Z
          ↔ ∃ j, j < numSpecies this ∧ flag this b j ≠ 0%Z) as Hone.
  { rewrite Hany by done. rewrite Hns. split.
    - intros (j & Hj & Hc). exists j. split; [done|]. by rewrite Hflag.
    - intros (j & Hj & Hc). exists j. split; [done|]. by rewrite <-Hflag. }
  split; [done|]. split; [done|]. split.
  { unfold boundary_names, numBoundaries, face_names.
    rewrite length_app. destruct (WARPX_DIM wx), (AMREX_USE_EB wx); done. }
  split; [by apply Hflag|]. split; [done|].
  split.
  - intros H0 j Hj. destruct (decide (flag this b j = 0%Z)) as [|Hne]; [done|].
    assert (m_do_any_boundary this !!! b = 1%Z) as H1 by (apply Hone; by exists j).
    congruence.
  - intros Hall. destruct (H01 b Hb) as [|H1]; [done|].
    apply Hone in H1 as (j & Hj & Hne). by specialize (Hall j Hj).
Qed.

Lemma ctor_reads_the_flags_witness :
  flag Example.s0 0 0 = 1%Z
  ∧ m_do_any_boundary Example.s0 !!! 0 = 1%Z
  ∧ m_do_any_boundary Example.s0 !!! 1 = 0%Z.
Proof.
  unfold Example.s0.
  destruct (ctor_reads_the_flags Example.wx 0 0) as (_ & _ & _ & Hf & H1 & _);
    [vm_compute; lia..|].
  destruct (ctor_reads_the_flags Example.wx 1 0) as (_ & _ & _ & _ & _ & H0);
    [vm_compute; lia..|].
  split; [rewrite Hf; vm_compute; reflexivity|]. split.
  - apply H1. exists 0. split; [vm_compute; lia|]. rewrite Hf. vm_compute. discriminate.
  - apply H0. intros j Hj. vm_compute in Hj.
    destruct j as [|[|j]]; [vm_compute; reflexivity..|lia].
Defined.

(** X2. Straight after construction no buffer exists:
    [getNumParticlesInContainer] answers 0 for every species and boundary,
    [getParticleBuffer] stops with a fatal assertion for every species and
    boundary, [clearParticles] and [redistribute] change nothing, and every
    count that [printNumParticles] reports is 0. *)
Theorem fresh_manager_holds_nothing (wx : WarpX) (species_name : string) (boundary : nat)
    (local : bool) :
  let this := ParticleBoundaryBuffer_ctor wx in
  getNumParticlesInContainer this wx species_name boundary local = 0%Z
  ∧ (∃ msg, getParticleBuffer this wx species_name boundary = Aborts msg)
  ∧ clearParticles this wx = this
  ∧ redistribute this wx = this
  ∧ ∀ b i, b < numBoundaries wx → i < numSpecies this → reported this b i = 0%Z.
Proof.
  intros this.
  assert (∀ b i, slot this b i = undefined_container) as Hslot by apply slot_ctor.
  split_and!.
  - unfold getNumParticlesInContainer.
    change ((m_particle_containers this !!! boundary) !!! getSpeciesID wx species_name)
      with (slot this boundary (getSpeciesID wx species_name)).
    by rewrite Hslot.
  - unfold getParticleBuffer.
    change ((m_particle_containers this !!! boundary) !!! getSpeciesID wx species_name)
      with (slot this boundary (getSpeciesID wx species_name)).
    rewrite Hslot. case_bool_decide; by eexists.
  - destruct (clearParticles_spec this wx) as [Hc Hg]. apply pbb_ext; [done|].
    intros b i. rewrite Hg, Hslot. by destruct (decide _).
  - destruct (redistribute_spec this wx) as [Hc Hg]. apply pbb_ext; [done|].
    intros b i. rewrite Hg, Hslot. by destruct (decide _).
  - intros b i _ _. unfold reported. by rewrite Hslot.
Qed.

(** ** The compaction functors on their own *)

Lemma slot_writer_one_slot f R (T : SuperParticle → SuperParticle) NAR nrr nri
    dst src src_i dst_i :
  slot_writer f R →
  (∀ sp dp, sp_schema NAR nrr nri sp → sp_schema NAR nrr (S nri) dp → R sp dp = T sp) →
  tile_wf NAR nrr (S nri) dst → tile_schema NAR nrr nri src → dst_i < numParticles dst →
  let dst' := f dst src src_i dst_i in
  numParticles dst' = numParticles dst
  ∧ tile_wf NAR nrr (S nri) dst'
  ∧ getSuperParticle dst' dst_i = T (getSuperParticle src src_i)
  ∧ ∀ k, k ≠ dst_i → getSuperParticle dst' k = getSuperParticle dst k.
Proof.
  intros Hw HR [Hsch Hok] Hsrc Hi. cbv zeta.
  destruct (Hw dst src src_i dst_i Hok Hi) as (Hn & Hok' & Hsch' & Hget).
  split; [done|]. split; [split; [by apply Hsch'|done]|]. split.
  - rewrite Hget, decide_True by done.
    apply HR; by apply getSuperParticle_schema.
  - intros k Hk. by rewrite Hget, decide_False.
Qed.

(** X17. Called with the index of the last integer array of a destination
    laid out for the source plus one integer array, each compaction
    functor writes the destination slot [dst_i] and nothing else: the
    tile keeps its size and layout, every other slot keeps its particle,
    and the slot receives the source particle with the step appended
    ([CopyAndTimestamp]), moved to the crossing point
    ([FindBoundaryIntersection]). *)
Theorem functors_write_one_slot (wx : WarpX) (nrr nri : nat) (m_step : Z) (m_dt : Real)
    (m_phiarr : Array4) (m_dxi m_plo : list Real) (dst src : ParticleTile)
    (src_i dst_i : nat)
    (Hdst : tile_wf (PIdx_nattribs wx) nrr (S nri) dst)
    (Hsrc : tile_schema (PIdx_nattribs wx) nrr nri src)
    (Hi : dst_i < numParticles dst) :
  let NAR := PIdx_nattribs wx in
  let sp := getSuperParticle src src_i in
  let d1 := CopyAndTimestamp NAR (Z.of_nat nri) m_step dst src src_i dst_i in
  let d2 := FindBoundaryIntersection wx (Z.of_nat nri) m_step m_dt m_phiarr m_dxi m_plo
              dst src src_i dst_i in
  (numParticles d1 = numParticles dst
   ∧ tile_wf NAR nrr (S nri) d1
   ∧ getSuperParticle d1 dst_i = stamp m_step sp
   ∧ ∀ k, k ≠ dst_i → getSuperParticle d1 k = getSuperParticle dst k)
  ∧ (numParticles d2 = numParticles dst
     ∧ tile_wf NAR nrr (S nri) d2
     ∧ getSuperParticle d2 dst_i
       = move_to_intersection wx m_dt m_phiarr m_dxi m_plo (stamp m_step sp)
     ∧ ∀ k, k ≠ dst_i → getSuperParticle d2 k = getSuperParticle dst k).
Proof.
  intros NAR sp d1 d2. subst NAR. split.
  - apply (slot_writer_one_slot _
             (CopyAndTimestamp_row (PIdx_nattribs wx) (Z.of_nat nri) m_step));
      [apply CopyAndTimestamp_slot| |done..].
    intros p dp (H1 & H2 & H3) (H4 & H5 & H6).
    rewrite <-H3. apply CopyAndTimestamp_row_stamp; congruence.
  - apply (slot_writer_one_slot _
             (FindBoundaryIntersection_row wx (Z.of_nat nri) m_step m_dt m_phiarr m_dxi m_plo)
             (λ p, move_to_intersection wx m_dt m_phiarr m_dxi m_plo (stamp m_step p)));
      [apply FindBoundaryIntersection_slot| |done..].
    intros p dp (H1 & H2 & H3) (H4 & H5 & H6).
    unfold FindBoundaryIntersection_row. f_equal.
    rewrite <-H3. apply CopyAndTimestamp_row_stamp; simpl; try congruence.
    rewrite length_copy_row. congruence.
Qed.

Lemma functors_write_one_slot_witness :
  let dst := tile_resize 2 (tile_define 7 0 2 empty_tile) in
  let d1 := CopyAndTimestamp 7 1 7 dst Example.electrons_tile 3 1 in
  numParticles d1 = 2
  ∧ getSuperParticle d1 1 = stamp 7 (getSuperParticle Example.electrons_tile 3)
  ∧ getSuperParticle d1 0 = getSuperParticle dst 0.
Proof.
  cbv zeta.
  destruct (functors_write_one_slot Example.wx 0 1 7 1%Q (λ _ _ _, 0%Q) [] []
              (tile_resize 2 (tile_define 7 0 2 empty_tile)) Example.electrons_tile 3 1)
    as [(H1 & _ & H3 & H4) _].
  - apply tile_wf_check_sound. vm_compute. reflexivity.
  - vm_compute. repeat split.
  - vm_compute. lia.
  - split; [exact H1|]. split; [exact H3|]. apply H4. lia.
Defined.
